(** * LRU_Cache.py: a capacity-bounded LRU cache and a memoizing decorator

    A shallow embedding of [src/LRU_Cache.py].  Python objects that the
    program handles are values of [pyval]; the [_Node] objects live in an
    object store indexed by reference; every method of [LRUCache] is a
    computation in a state-and-exception monad over the cache object, so
    that an exception leaves the mutations made before it in place, as in
    Python. *)

From Stdlib Require Import ZArith QArith.
From stdpp Require Import base list sets strings sorting.

#[local] Set Warnings "-register-all,-clear-no-such-hyp".
Local Open Scope Z_scope.

(** ** Python values *)

(** The runtime types that [type(x)] can answer for the values below. *)
Inductive pytype : Set :=
| TNoneType | TBool | TInt | TFloat | TStr | TTuple | TType | TObject.

(** The hashable values that can be an argument, a key or a result.  A
    finite float is given by the rational number it denotes, which is all
    that [==] looks at (infinities and NaN are left out); [PyObject] is a
    plain [object()], identified by its identity. *)
Inductive pyval : Type :=
| PyNone
| PyBool (b : bool)
| PyInt (z : Z)
| PyFloat (q : Q)
| PyStr (s : string)
| PyTuple (items : list pyval)
| PyType (t : pytype)
| PyObject (id : nat).

Definition type_of (v : pyval) : pytype :=
  match v with
  | PyNone => TNoneType
  | PyBool _ => TBool
  | PyInt _ => TInt
  | PyFloat _ => TFloat
  | PyStr _ => TStr
  | PyTuple _ => TTuple
  | PyType _ => TType
  | PyObject _ => TObject
  end.

Definition pytype_eqb (s t : pytype) : bool :=
  match s, t with
  | TNoneType, TNoneType | TBool, TBool | TInt, TInt | TFloat, TFloat
  | TStr, TStr | TTuple, TTuple | TType, TType | TObject, TObject => true
  | _, _ => false
  end.

(** The number a [bool], [int] or [float] stands for: Python compares the
    three by value ([True == 1 == 1.0]). *)
Definition num_of (v : pyval) : option Q :=
  match v with
  | PyBool b => Some (inject_Z (if b then 1 else 0))
  | PyInt z => Some (inject_Z z)
  | PyFloat q => Some q
  | _ => None
  end.

(** Two sequences are equal when they have the same length and equal
    items. *)
Section all2.
Context {A : Type} (eq_item : A -> A -> bool).
Fixpoint all2 (xs ys : list A) {struct xs} : bool :=
  match xs, ys with
  | [], [] => true
  | x :: xs', y :: ys' => eq_item x y && all2 xs' ys'
  | _, _ => false
  end.
End all2.

(** [a == b], the equality a [dict] uses on its keys (equal values hash
    alike). *)
Fixpoint py_eq (a b : pyval) : bool :=
  match a with
  | PyNone => match b with PyNone => true | _ => false end
  | PyBool _ | PyInt _ | PyFloat _ =>
      match num_of a, num_of b with
      | Some x, Some y => Qeq_bool x y
      | _, _ => false
      end
  | PyStr s => match b with PyStr t => String.eqb s t | _ => false end
  | PyTuple xs =>
      match b with
      | PyTuple ys => all2 py_eq xs ys
      | _ => false
      end
  | PyType s => match b with PyType t => pytype_eqb s t | _ => false end
  | PyObject i => match b with PyObject j => Nat.eqb i j | _ => false end
  end.

(** [x is None] *)
Definition is_None (v : pyval) : bool :=
  match v with PyNone => true | _ => false end.

(** ** Exceptions and results *)

Inductive exn : Type :=
| AttributeError            (* an attribute of [None] was read or written *)
| KeyError                  (* [del d[k]] with no such key *)
| ValueError (msg : string)
| Raised (e : pyval)        (* whatever the wrapped function raises *)
| StoreFault.               (* a reference to no object: Python has none,
                               the store of the model could *)

Inductive result (A : Type) : Type :=
| Ok (a : A)
| Err (e : exn).
Arguments Ok {A} a.
Arguments Err {A} e.

(** ** Nodes and the cache object *)

(** A reference to a node: its index in the store. *)
Abbreviation loc := nat (only parsing).

(** [_SENTINEL = object()] *)
Definition _SENTINEL : pyval := PyObject 0.

Record _Node : Type := mk_Node {
  key : pyval;
  val : pyval;
  prev : option loc;
  next : option loc
}.

(** [_data] is the dict from keys to node references, in insertion order;
    [store] holds the [_Node] objects the cache has created, a reference
    being an index into it. *)
Record LRUCache : Type := mkLRUCache {
  _data : list (pyval * loc);
  _head : loc;
  _tail : loc;
  capacity : Z;
  store : list _Node
}.

(** *** The dict operations the cache uses *)

(** [d.get(k)] *)
Fixpoint dict_get (d : list (pyval * loc)) (k : pyval) : option loc :=
  match d with
  | [] => None
  | (k', l) :: d' => if py_eq k' k then Some l else dict_get d' k
  end.

(** [d[k] = l] *)
Fixpoint dict_set (d : list (pyval * loc)) (k : pyval) (l : loc)
  : list (pyval * loc) :=
  match d with
  | [] => [(k, l)]
  | (k', l') :: d' =>
      if py_eq k' k then (k', l) :: d' else (k', l') :: dict_set d' k l
  end.

(** [del d[k]]; [None] stands for the [KeyError]. *)
Fixpoint dict_del (d : list (pyval * loc)) (k : pyval)
  : option (list (pyval * loc)) :=
  match d with
  | [] => None
  | (k', l) :: d' =>
      if py_eq k' k then Some d' else cons (k', l) <$> dict_del d' k
  end.

(** *** The monad of the methods

    A computation over a state [S] returns a value or raises, and always
    hands back the state it reached. *)

Definition M (S A : Type) : Type := S -> result A * S.

Definition ret {S A} (a : A) : M S A := fun s => (Ok a, s).
Definition raise {S A} (e : exn) : M S A := fun s => (Err e, s).
Definition bind {S A B} (m : M S A) (f : A -> M S B) : M S B :=
  fun s =>
    match m s with
    | (Ok a, s') => f a s'
    | (Err e, s') => (Err e, s')
    end.

Notation "'let*' x ':=' m 'in' k" := (bind m (fun x => k))
  (at level 10, x name, m at level 100, k at level 200, only parsing).

(** [self.f], for a field [f] of the object [self]. *)
Definition attr {S A} (f : S -> A) : M S A := fun self => (Ok (f self), self).

Definition set_store (st : list _Node) (self : LRUCache) : LRUCache :=
  mkLRUCache (_data self) (_head self) (_tail self) (capacity self) st.
Definition set_data (d : list (pyval * loc)) (self : LRUCache) : LRUCache :=
  mkLRUCache d (_head self) (_tail self) (capacity self) (store self).

(** [o.attr] on an optional reference [o]: [None] has no attribute. *)
Definition deref (o : option loc) : M LRUCache loc :=
  match o with
  | Some l => ret l
  | None => raise AttributeError
  end.

Definition read (l : loc) : M LRUCache _Node :=
  fun self =>
    match store self !! l with
    | Some n => (Ok n, self)
    | None => (Err StoreFault, self)
    end.

Definition with_prev (p : option loc) (n : _Node) : _Node :=
  mk_Node (key n) (val n) p (next n).
Definition with_next (q : option loc) (n : _Node) : _Node :=
  mk_Node (key n) (val n) (prev n) q.

Definition write (l : loc) (f : _Node -> _Node) : M LRUCache unit :=
  fun self =>
    match store self !! l with
    | Some n => (Ok tt, set_store (<[l := f n]> (store self)) self)
    | None => (Err StoreFault, self)
    end.

(** [_Node(key=k, val=v)]: a new object, with [prev] and [next] at [None]. *)
Definition new_Node (k v : pyval) : M LRUCache loc :=
  fun self =>
    (Ok (length (store self)),
     set_store (store self ++ [mk_Node k v None None]) self).

(** ** class LRUCache *)

Definition __init__ (capacity : Z) : result unit * LRUCache :=
  let self :=
    mkLRUCache [] 0%nat 1%nat capacity
      [mk_Node _SENTINEL _SENTINEL None None;
       mk_Node _SENTINEL _SENTINEL None None] in
  (let* _ := write (_head self) (with_prev (Some (_tail self))) in
   write (_tail self) (with_next (Some (_head self)))) self.

Definition __len__ (self : LRUCache) : Z := Z.of_nat (length (_data self)).

Definition _remove (node : loc) : M LRUCache unit :=
  let* n := read node in
  let prev := prev n in
  let next := next n in
  let* _ := match prev with
            | Some p => write p (with_next next)
            | None => ret tt
            end in
  match next with
  | Some q => write q (with_prev prev)
  | None => ret tt
  end.

Definition _move_front (node : loc) : M LRUCache unit :=
  let* _ := _remove node in
  let* head := attr _head in
  let* h := read head in
  let prev_head := prev h in
  let* ph := deref prev_head in
  let* _ := write ph (with_next (Some node)) in
  let* _ := write node (with_prev prev_head) in
  let* _ := write node (with_next (Some head)) in
  write head (with_prev (Some node)).

Definition _pop : M LRUCache loc :=
  let* tail := attr _tail in
  let* t := read tail in
  let* node := deref (next t) in
  let* _ := _remove node in
  ret node.

Definition get (k : pyval) (default : pyval) : M LRUCache pyval :=
  let* d := attr _data in
  match dict_get d k with
  | None => ret default
  | Some node =>
      let* _ := _move_front node in
      let* n := read node in
      ret (val n)
  end.

(** [self._data[k] = node] *)
Definition set_item (k : pyval) (node : loc) : M LRUCache unit :=
  fun self => (Ok tt, set_data (dict_set (_data self) k node) self).

(** [del self._data[k]] *)
Definition del_data (k : pyval) : M LRUCache unit :=
  fun self =>
    match dict_del (_data self) k with
    | Some d => (Ok tt, set_data d self)
    | None => (Err KeyError, self)
    end.

(** [put] returns the stored value when the key is present and falls off
    its end, returning [None], otherwise. *)
Definition put (k v : pyval) : M LRUCache pyval :=
  let* d := attr _data in
  match dict_get d k with
  | Some node =>
      let* _ := _move_front node in
      let* n := read node in
      ret (val n)
  | None =>
      let* node := new_Node k v in
      let* _ := set_item k node in
      let* _ := _move_front node in
      let* len := attr __len__ in
      let* cap := attr capacity in
      if len >? cap then
        let* lru := _pop in
        let* n := read lru in
        let* _ := del_data (key n) in
        ret PyNone
      else ret PyNone
  end.

(** [LRUCache(capacity)] *)
Definition new_LRUCache (capacity : Z) : result LRUCache :=
  match __init__ capacity with
  | (Ok _, self) => Ok self
  | (Err e, _) => Err e
  end.

(** *** Reading the list off the store *)

(** The references met from [cur] along the link [field] until [stop]. *)
Fixpoint walk (field : _Node -> option loc) (fuel : nat) (st : list _Node)
    (stop : loc) (cur : option loc) : list loc :=
  match fuel, cur with
  | S fuel', Some l =>
      if decide (l = stop) then []
      else l :: walk field fuel' st stop (st !! l ≫= field)
  | _, _ => []
  end.

(** The live nodes, from the one after [_tail] (least recently used) to
    the one before [_head] (most recently used). *)
Definition chain (self : LRUCache) : list loc :=
  walk next (length (store self)) (store self) (_head self)
       (store self !! _tail self ≫= next).

(** The same walk backwards, from the one before [_head] down to [_tail]. *)
Definition chain_back (self : LRUCache) : list loc :=
  walk prev (length (store self)) (store self) (_tail self)
       (store self !! _head self ≫= prev).

Definition entry_at (st : list _Node) (l : loc) : option (pyval * pyval) :=
  n ← st !! l; Some (key n, val n).

(** The live entries [(key, val)], least recently used first. *)
Definition entries (self : LRUCache) : list (pyval * pyval) :=
  omap (entry_at (store self)) (chain self).

(** *** Sequences of operations *)

Inductive op : Type :=
| Get (k default : pyval)
| Put (k v : pyval).

Definition step (o : op) : M LRUCache pyval :=
  match o with
  | Get k default => get k default
  | Put k v => put k v
  end.

(** The operations one after the other, up to the first that raises. *)
Fixpoint run (ops : list op) : M LRUCache (list pyval) :=
  match ops with
  | [] => ret []
  | o :: ops' =>
      let* r := step o in
      let* rs := run ops' in
      ret (r :: rs)
  end.

(** ** The key of a call *)

(** [sorted(kwargs.items())]: the items are pairs [(name, value)] and the
    names of one call are distinct, so the order of two items is the order
    of their names and no two values are ever compared.  [sorted] is
    stable; so is this insertion sort. *)
Fixpoint insert_item (x : string * pyval) (l : list (string * pyval))
  : list (string * pyval) :=
  match l with
  | [] => [x]
  | y :: l' =>
      if String.leb (fst x) (fst y) then x :: l else y :: insert_item x l'
  end.

Fixpoint sorted (l : list (string * pyval)) : list (string * pyval) :=
  match l with
  | [] => []
  | x :: l' => insert_item x (sorted l')
  end.

Definition item_tuple (x : string * pyval) : pyval :=
  PyTuple [PyStr (fst x); snd x].

Definition _normalize_key (args : list pyval) (kwargs : list (string * pyval))
    (typed : bool) : pyval :=
  let items :=
    match kwargs with
    | [] => []
    | _ => sorted kwargs
    end in
  let key := PyTuple [PyTuple args; PyTuple (item_tuple <$> items)] in
  if typed then
    PyTuple [PyTuple args; PyTuple (item_tuple <$> items);
             PyTuple ((fun a => PyType (type_of a)) <$> args);
             PyTuple ((fun x => PyType (type_of (snd x))) <$> items)]
  else key.

(** ** The decorator *)

Module CacheInfo.
Record t : Type := mk {
  hits : Z;
  misses : Z;
  max_size : Z;
  currsize : Z
}.
End CacheInfo.

Section decorator.
(** The wrapped function: called on positional and named arguments, it
    returns or raises, and may read and change the rest of the program's
    state, of type [W].  That state does not hold the wrapper's own cache
    and counters: the function does not call its own wrapper. *)
Context {W : Type}.
Variable func : list pyval -> list (string * pyval) -> M W pyval.

(** What [wrapper] closes over: [cache], [hits], [misses], and the
    arguments of [lru_cache_impl].  [world] is the state [func] runs in
    and [calls] counts the times [func] was entered. *)
Record closure : Type := mkClosure {
  cache : LRUCache;
  hits : Z;
  misses : Z;
  max_size : Z;
  typed : bool;
  world : W;
  calls : nat
}.

Definition on_cache {A} (m : M LRUCache A) : M closure A :=
  fun s =>
    let '(r, c) := m (cache s) in
    (r, mkClosure c (hits s) (misses s) (max_size s) (typed s)
          (world s) (calls s)).

(** [hits += 1] *)
Definition incr_hits : M closure unit :=
  fun s =>
    (Ok tt, mkClosure (cache s) (hits s + 1) (misses s) (max_size s)
              (typed s) (world s) (calls s)).

(** [misses += 1] *)
Definition incr_misses : M closure unit :=
  fun s =>
    (Ok tt, mkClosure (cache s) (hits s) (misses s + 1) (max_size s)
              (typed s) (world s) (calls s)).

(** [func( *args, **kwargs)] *)
Definition call_func (args : list pyval) (kwargs : list (string * pyval))
  : M closure pyval :=
  fun s =>
    let '(r, w) := func args kwargs (world s) in
    (r, mkClosure (cache s) (hits s) (misses s) (max_size s) (typed s)
          w (S (calls s))).

Definition wrapper (args : list pyval) (kwargs : list (string * pyval))
  : M closure pyval :=
  let* typed := attr typed in
  let key := _normalize_key args kwargs typed in
  let* cached := on_cache (get key PyNone) in
  if negb (is_None cached) then
    let* _ := incr_hits in
    ret cached
  else
    let* _ := incr_misses in
    let* value := call_func args kwargs in
    let* _ := on_cache (put key value) in
    ret value.

Definition cache_info (s : closure) : CacheInfo.t :=
  CacheInfo.mk (hits s) (misses s) (max_size s) (__len__ (cache s)).

(** [decorator(func)], in a program whose state is [w]. *)
Definition decorator (max_size : Z) (typed : bool) (w : W) : result closure :=
  match new_LRUCache max_size with
  | Ok cache => Ok (mkClosure cache 0 0 max_size typed w 0)
  | Err e => Err e
  end.

Definition lru_cache_impl (max_size : Z) (typed : bool)
  : result (W -> result closure) :=
  if max_size <=? 0 then Err (ValueError "max_size must be > 0")
  else Ok (decorator max_size typed).

(** The calls of a list, one after the other, up to the first that
    raises. *)
Fixpoint calls_of (cs : list (list pyval * list (string * pyval)))
  : M closure (list pyval) :=
  match cs with
  | [] => ret []
  | (args, kwargs) :: cs' =>
      let* r := wrapper args kwargs in
      let* rs := calls_of cs' in
      ret (r :: rs)
  end.
End decorator.

(** * The vocabulary of the statements *)

(** ** Links, keys and values read off the store *)

Definition nextf (st : list _Node) (l : loc) : option loc := st !! l ≫= next.
Definition prevf (st : list _Node) (l : loc) : option loc := st !! l ≫= prev.
Definition keyf (st : list _Node) (l : loc) : pyval :=
  from_option key PyNone (st !! l).
Definition valf (st : list _Node) (l : loc) : pyval :=
  from_option val PyNone (st !! l).

(** Each node of [path] has the one after it as [next], which has it as
    [prev]. *)
Fixpoint linked (st : list _Node) (path : list loc) : Prop :=
  match path with
  | a :: (b :: _) as rest =>
      nextf st a = Some b /\ prevf st b = Some a /\ linked st rest
  | _ => True
  end.
#[global] Arguments linked : simpl never.

(** No two keys of the list are equal for [==]. *)
Fixpoint keys_distinct (ks : list pyval) : Prop :=
  match ks with
  | [] => True
  | k :: ks' => Forall (fun k' => py_eq k k' = false) ks' /\ keys_distinct ks'
  end.

(** ** Updates of the store

    What the writes of [_remove] and of [_move_front] make of the store. *)

Definition st_set_next (l : loc) (v : option loc) (st : list _Node) :=
  match st !! l with Some n => <[l := with_next v n]> st | None => st end.
Definition st_set_prev (l : loc) (v : option loc) (st : list _Node) :=
  match st !! l with Some n => <[l := with_prev v n]> st | None => st end.

(** [p.next = q; q.prev = p] *)
Definition unlink (p q : loc) (st : list _Node) : list _Node :=
  st_set_prev q (Some p) (st_set_next p (Some q) st).

(** [m.next = n; n.prev = m; n.next = h; h.prev = n] *)
Definition link_front (m n h : loc) (st : list _Node) : list _Node :=
  st_set_prev h (Some n)
    (st_set_next n (Some h) (st_set_prev n (Some m) (st_set_next m (Some n) st))).

(** What [_move_front] does once [_remove] has returned. *)
Definition insert_front (node : loc) : M LRUCache unit :=
  let* head := attr _head in
  let* h := read head in
  let prev_head := prev h in
  let* ph := deref prev_head in
  let* _ := write ph (with_next (Some node)) in
  let* _ := write node (with_prev prev_head) in
  let* _ := write node (with_next (Some head)) in
  write head (with_prev (Some node)).

(** The entry and the index item of a node. *)
Definition kvf (st : list _Node) (l : loc) : pyval * pyval :=
  (keyf st l, valf st l).
Definition klf (st : list _Node) (l : loc) : pyval * loc := (keyf st l, l).

(** ** The representation invariant

    [ls] lists the live nodes, least recently used first: the store links
    them in that order between the two sentinels, in both directions; the
    dict holds exactly their keys, each with its node; no two of them have
    equal keys; and there are no more of them than the capacity allows. *)
Record Inv (self : LRUCache) (ls : list loc) : Prop := mkInv {
  inv_nodup : NoDup (_tail self :: ls ++ [_head self]);
  inv_linked : linked (store self) (_tail self :: ls ++ [_head self]);
  inv_index : _data self ≡ₚ (fun l => (keyf (store self) l, l)) <$> ls;
  inv_keys : keys_distinct (keyf (store self) <$> ls);
  inv_size : Z.of_nat (length ls) <= Z.max 0 (capacity self)
}.

(** The value the cache holds for [k], if it holds one. *)
Definition lookup_val (self : LRUCache) (k : pyval) : option pyval :=
  l ← dict_get (_data self) k; val <$> store self !! l.

(** The caches a program can have: a new one, and what a [get] or a [put]
    leaves of one. *)
Inductive reachable : LRUCache -> Prop :=
| reachable_new capacity self :
    new_LRUCache capacity = Ok self -> reachable self
| reachable_step o self r self' :
    reachable self -> step o self = (r, self') -> reachable self'.

(** ** The cache as a list of entries

    The reference model: the entries, least recently used first.  A hit
    moves the entry to the end; a new key is appended and, when the list
    has grown past the capacity, the first entry is dropped. *)

Fixpoint assoc (es : list (pyval * pyval)) (k : pyval)
  : option (pyval * pyval) :=
  match es with
  | [] => None
  | e :: es' => if py_eq e.1 k then Some e else assoc es' k
  end.

Fixpoint remove_key (es : list (pyval * pyval)) (k : pyval)
  : list (pyval * pyval) :=
  match es with
  | [] => []
  | e :: es' => if py_eq e.1 k then es' else e :: remove_key es' k
  end.

Definition model_step (cap : Z) (o : op) (es : list (pyval * pyval))
  : pyval * list (pyval * pyval) :=
  match o with
  | Get k default =>
      match assoc es k with
      | Some e => (e.2, remove_key es k ++ [e])
      | None => (default, es)
      end
  | Put k v =>
      match assoc es k with
      | Some e => (e.2, remove_key es k ++ [e])
      | None =>
          let es' := es ++ [(k, v)] in
          (PyNone, if Z.of_nat (length es') >? cap then tail es' else es')
      end
  end.

(** ** Accesses and their times *)

(** The key an operation accesses in the cache it runs on: a [put] its
    key, a [get] its key when it is a hit. *)
Definition access_of (o : op) (self : LRUCache) : option pyval :=
  match o with
  | Put k _ => Some k
  | Get k _ =>
      match dict_get (_data self) k with
      | Some _ => Some k
      | None => None
      end
  end.

(** The accesses of a sequence of operations, one entry per operation. *)
Fixpoint trace (ops : list op) (self : LRUCache) : list (option pyval) :=
  match ops with
  | [] => []
  | o :: ops' => access_of o self :: trace ops' (snd (step o self))
  end.

(** The time of the last access to [k] in a trace whose first entry has
    time [t0]. *)
Fixpoint last_access_from (t0 : nat) (tr : list (option pyval)) (k : pyval)
  : option nat :=
  match tr with
  | [] => None
  | a :: tr' =>
      match last_access_from (S t0) tr' k with
      | Some t => Some t
      | None =>
          match a with
          | Some k' => if py_eq k' k then Some t0 else None
          | None => None
          end
      end
  end.

Definition last_access (tr : list (option pyval)) (k : pyval) : option nat :=
  last_access_from 0 tr k.

(** [a] was last accessed before [b] was. *)
Definition lru_before (tr : list (option pyval)) (a b : pyval) : Prop :=
  exists ta tb,
    last_access tr a = Some ta /\ last_access tr b = Some tb /\ (ta < tb)%nat.

(** The keys [ks] are in the order of their last accesses, each having
    been accessed. *)
Definition by_access (tr : list (option pyval)) (ks : list pyval) : Prop :=
  StronglySorted (lru_before tr) ks
  /\ Forall (fun k => is_Some (last_access tr k)) ks.

(** ** Wrapped functions *)

Section wrapped.
Context {W : Type}.
Variable func : list pyval -> list (string * pyval) -> M W pyval.

(** The rest of the program puts its state at [w]. *)
Definition set_world (w : W) (s : @closure W) : @closure W :=
  mkClosure (cache s) (hits s) (misses s) (max_size s) (typed s) w (calls s).

(** The wrappers a program can have: one that [lru_cache_impl] has just
    made, one after a call, one after the rest of the program has run. *)
Inductive wreachable : @closure W -> Prop :=
| wreachable_new max_size typed dec w s :
    lru_cache_impl max_size typed = Ok dec -> dec w = Ok s ->
    wreachable s
| wreachable_call args kwargs s r s' :
    wreachable s -> wrapper func args kwargs s = (r, s') -> wreachable s'
| wreachable_world w s :
    wreachable s -> wreachable (set_world w s).

(** What holds of every wrapper: its cache is well formed and has the
    positive capacity [max_size]. *)
Definition WInv (s : @closure W) : Prop :=
  (exists ls, Inv (cache s) ls)
  /\ capacity (cache s) = max_size s
  /\ 1 <= max_size s.

(** The cache holds nothing for [k] that [wrapper] would take for a
    result: no entry, or an entry whose value is [None]. *)
Definition is_miss (s : @closure W) (k : pyval) : bool :=
  match lookup_val (cache s) k with
  | Some v => is_None v
  | None => true
  end.
End wrapped.

(** The order [sorted] puts the items in: by name. *)
Definition name_le (x y : string * pyval) : Prop := String.le x.1 y.1.

(** ** Calls with the same arguments *)

(** Two arguments are the same for a wrapper: equal for [==] and, in typed
    mode, of the same type. *)
Definition arg_eq (typed : bool) (v1 v2 : pyval) : Prop :=
  py_eq v1 v2 = true /\ (typed = true -> type_of v1 = type_of v2).

(** Two calls pass the same names, and values related by [R] under each
    name, in whatever order each call lists them. *)
Definition named_agree (R : pyval -> pyval -> Prop)
    (kw1 kw2 : list (string * pyval)) : Prop :=
  (forall n v1, (n, v1) ∈ kw1 -> exists v2, (n, v2) ∈ kw2 /\ R v1 v2)
  /\ (forall n v2, (n, v2) ∈ kw2 -> exists v1, (n, v1) ∈ kw1 /\ R v1 v2).

(** ** Examples

    Caches, wrapped functions and wrappers on which the statements below
    are evaluated. *)

Definition ex_a : pyval := PyStr "a".
Definition ex_b : pyval := PyStr "b".
Definition ex_c : pyval := PyStr "c".

Definition ex_new (capacity : Z) : LRUCache :=
  mkLRUCache [] 0%nat 1%nat capacity
    [mk_Node _SENTINEL _SENTINEL (Some 1%nat) None;
     mk_Node _SENTINEL _SENTINEL None (Some 0%nat)].

Definition ex_ops : list op :=
  [Put ex_a (PyInt 1); Put ex_b (PyInt 2); Get ex_a PyNone].

Definition ex_after_ops : LRUCache := (run ex_ops (ex_new 2)).2.

Definition ex_abc_b : LRUCache :=
  (run [Put ex_a (PyInt 1); Put ex_b (PyInt 2); Put ex_c (PyInt 3);
        Get ex_b PyNone] (ex_new 2)).2.

Definition ex_a1 : LRUCache := (put ex_a (PyInt 1) (ex_new 2)).2.

Definition ex_none : list pyval -> list (string * pyval) -> M unit pyval :=
  fun _ _ w => (Ok PyNone, w).

Definition ex_square : list pyval -> list (string * pyval) -> M unit pyval :=
  fun args _ w =>
    match args with
    | [PyInt x] => (Ok (PyInt (x * x)), w)
    | _ => (Err (Raised (PyStr "TypeError")), w)
    end.

Definition ex_float_only : list pyval -> list (string * pyval) -> M unit pyval :=
  fun args _ w =>
    match args with
    | [PyFloat _] => (Ok (PyInt 5), w)
    | _ => (Ok PyNone, w)
    end.

Definition ex_wrapper (typed : bool) : @closure unit :=
  mkClosure (ex_new 2) 0 0 2 typed tt 0.

Definition ex_zero : LRUCache := (run ex_ops (ex_new 0)).2.

Definition ex_kvs : list (pyval * pyval) :=
  [(ex_a, PyInt 1); (ex_b, PyInt 2); (ex_c, PyInt 3)].



Definition ex_after_call : @closure unit :=
  (wrapper ex_square [PyInt 3] [] (ex_wrapper false)).2.

Definition ex_after_none : @closure unit :=
  (wrapper ex_none [PyInt 3] [] (ex_wrapper false)).2.


(** * Properties *)

(** ** Equality of values *)

Lemma pyval_nested_ind (P : pyval -> Prop) :
  P PyNone ->
  (forall b, P (PyBool b)) ->
  (forall z, P (PyInt z)) ->
  (forall q, P (PyFloat q)) ->
  (forall s, P (PyStr s)) ->
  (forall items, Forall P items -> P (PyTuple items)) ->
  (forall t, P (PyType t)) ->
  (forall i, P (PyObject i)) ->
  forall v, P v.
Proof.
  intros HN HB HI HF HS HT HTy HO.
  fix IH 1.
  intros [ | b | z | q | s | items | t | i ];
    [ exact HN | apply HB | apply HI | apply HF | apply HS | | apply HTy
    | apply HO ].
  apply HT. induction items as [ | x items IHitems ]; constructor.
  - apply IH.
  - exact IHitems.
Qed.

Lemma pytype_eqb_eq s t : pytype_eqb s t = true <-> s = t.
Proof. destruct s, t; simpl; split; congruence. Qed.

Lemma py_eq_refl a : py_eq a a = true.
Proof.
  induction a as [ | b | z | q | s | items IH | t | i ] using pyval_nested_ind;
    simpl; auto using Qeq_bool_refl.
  - apply String.eqb_refl.
  - induction IH as [ | x items Hx _ IH ]; simpl; [ done | ].
    by rewrite Hx, IH.
  - by apply pytype_eqb_eq.
  - apply Nat.eqb_refl.
Qed.

Lemma py_eq_sym a b : py_eq a b = py_eq b a.
Proof.
  revert b.
  induction a as [ | b | z | q | s | items IH | t | i ] using pyval_nested_ind;
    intros [ | b' | z' | q' | s' | items' | t' | i' ]; simpl;
    auto using Qeq_bool_comm, String.eqb_sym, Nat.eqb_sym.
  - revert items'.
    induction IH as [ | x items Hx _ IH ]; intros [ | y items' ]; simpl; auto.
    by rewrite Hx, IH.
  - destruct t, t'; done.
Qed.

Lemma py_eq_trans a b c :
  py_eq a b = true -> py_eq b c = true -> py_eq a c = true.
Proof.
  revert b c.
  induction a as [ | b0 | z | q | s | items IH | t | i ] using pyval_nested_ind;
    intros [ | b' | z' | q' | s' | items' | t' | i' ]; simpl; try done;
    intros [ | b'' | z'' | q'' | s'' | items'' | t'' | i'' ]; simpl; try done;
    eauto using Qeq_bool_trans.
  - rewrite !String.eqb_eq. congruence.
  - revert items' items''.
    induction IH as [ | x items Hx _ IH ];
      intros [ | y items' ] [ | z items'' ]; simpl; try done.
    rewrite !andb_true_iff. intros [? ?] [? ?]. split; eauto.
  - rewrite !pytype_eqb_eq. congruence.
  - rewrite !Nat.eqb_eq. congruence.
Qed.

(** ** Dicts *)

Lemma keys_distinct_perm ks ks' :
  ks ≡ₚ ks' -> keys_distinct ks -> keys_distinct ks'.
Proof.
  induction 1 as [ | k ks ks' Hp IH | k1 k2 ks | ks1 ks2 ks3 _ IH1 _ IH2 ];
    simpl; auto.
  - intros [Hall Hd]. split; [ by rewrite <- Hp | auto ].
  - intros [Hall2 [Hall1 Hd]].
    apply Forall_cons in Hall2 as [H21 Hall2].
    repeat split; auto. constructor; auto. by rewrite py_eq_sym.
Qed.

Lemma keys_distinct_snoc ks k :
  keys_distinct (ks ++ [k]) <->
  keys_distinct ks /\ Forall (fun k' => py_eq k' k = false) ks.
Proof.
  induction ks as [ | k0 ks IH ]; simpl.
  - split; auto using Forall_nil_2.
  - rewrite IH, Forall_app, Forall_singleton, (Forall_cons _ k0 ks). tauto.
Qed.

Lemma dict_get_None d k :
  dict_get d k = None <-> Forall (fun kl => py_eq kl.1 k = false) d.
Proof.
  induction d as [ | [k' l] d IH ]; simpl.
  - split; auto using Forall_nil_2.
  - rewrite Forall_cons. simpl. destruct (py_eq k' k); [ | tauto ].
    split; [ done | by intros [? _] ].
Qed.

Lemma dict_get_Some d k l :
  dict_get d k = Some l -> exists k0, (k0, l) ∈ d /\ py_eq k0 k = true.
Proof.
  induction d as [ | [k' l'] d IH ]; simpl; [ done | ].
  destruct (py_eq k' k) eqn:Hk.
  - intros [= ->]. exists k'. split; [ left | done ].
  - intros [k0 [? ?]]%IH. exists k0. split; [ by right | done ].
Qed.

Lemma dict_set_absent d k l :
  dict_get d k = None -> dict_set d k l = d ++ [(k, l)].
Proof.
  induction d as [ | [k' l'] d IH ]; simpl; [ done | ].
  destruct (py_eq k' k); [ done | ]. intros ?. by rewrite IH.
Qed.

Lemma dict_del_elem d k0 k l :
  keys_distinct d.*1 -> (k0, l) ∈ d -> py_eq k0 k = true ->
  exists d', dict_del d k = Some d' /\ d ≡ₚ (k0, l) :: d'.
Proof.
  induction d as [ | [k' l'] d IH ]; simpl.
  - intros _ Hin. by apply elem_of_nil in Hin.
  - intros [Hall Hd] Hin Hk.
    apply elem_of_cons in Hin as [ [= <- <-] | Hin ].
    { rewrite Hk. by exists d. }
    destruct (py_eq k' k) eqn:Hk'.
    + rewrite Forall_forall in Hall.
      assert (py_eq k' k0 = false) as Hne.
      { apply Hall. apply list_elem_of_fmap. by exists (k0, l). }
      rewrite py_eq_sym in Hk.
      by rewrite (py_eq_trans k' k k0) in Hne.
    + destruct (IH Hd Hin Hk) as [d' [-> Hp]].
      exists ((k', l') :: d'). split; [ done | ].
      rewrite Hp. apply perm_swap.
Qed.

(** ** The store *)

Lemma length_st_set_next l v st : length (st_set_next l v st) = length st.
Proof. unfold st_set_next. destruct (st !! l); by rewrite ?length_insert. Qed.
Lemma length_st_set_prev l v st : length (st_set_prev l v st) = length st.
Proof. unfold st_set_prev. destruct (st !! l); by rewrite ?length_insert. Qed.

Lemma lookup_st_set_next l v st x :
  st_set_next l v st !! x =
  if decide (x = l) then with_next v <$> st !! l else st !! x.
Proof.
  unfold st_set_next. destruct (st !! l) as [ n | ] eqn:Hl; case_decide; subst;
    simpl; auto.
  - apply list_lookup_insert_eq. by eapply lookup_lt_Some.
  - by apply list_lookup_insert_ne.
Qed.
Lemma lookup_st_set_prev l v st x :
  st_set_prev l v st !! x =
  if decide (x = l) then with_prev v <$> st !! l else st !! x.
Proof.
  unfold st_set_prev. destruct (st !! l) as [ n | ] eqn:Hl; case_decide; subst;
    simpl; auto.
  - apply list_lookup_insert_eq. by eapply lookup_lt_Some.
  - by apply list_lookup_insert_ne.
Qed.

Lemma nextf_st_set_next l v st x :
  (l < length st)%nat ->
  nextf (st_set_next l v st) x = if decide (x = l) then v else nextf st x.
Proof.
  intros [n Hn]%lookup_lt_is_Some. unfold nextf.
  rewrite lookup_st_set_next. case_decide; subst; [ | done ]. by rewrite Hn.
Qed.
Lemma nextf_st_set_prev l v st x : nextf (st_set_prev l v st) x = nextf st x.
Proof.
  unfold nextf. rewrite lookup_st_set_prev. case_decide; subst; [ | done ].
  by destruct (st !! l).
Qed.
Lemma prevf_st_set_prev l v st x :
  (l < length st)%nat ->
  prevf (st_set_prev l v st) x = if decide (x = l) then v else prevf st x.
Proof.
  intros [n Hn]%lookup_lt_is_Some. unfold prevf.
  rewrite lookup_st_set_prev. case_decide; subst; [ | done ]. by rewrite Hn.
Qed.
Lemma prevf_st_set_next l v st x : prevf (st_set_next l v st) x = prevf st x.
Proof.
  unfold prevf. rewrite lookup_st_set_next. case_decide; subst; [ | done ].
  by destruct (st !! l).
Qed.
Lemma keyf_st_set_next l v st x : keyf (st_set_next l v st) x = keyf st x.
Proof.
  unfold keyf. rewrite lookup_st_set_next. case_decide; subst; [ | done ].
  by destruct (st !! l).
Qed.
Lemma keyf_st_set_prev l v st x : keyf (st_set_prev l v st) x = keyf st x.
Proof.
  unfold keyf. rewrite lookup_st_set_prev. case_decide; subst; [ | done ].
  by destruct (st !! l).
Qed.
Lemma valf_st_set_next l v st x : valf (st_set_next l v st) x = valf st x.
Proof.
  unfold valf. rewrite lookup_st_set_next. case_decide; subst; [ | done ].
  by destruct (st !! l).
Qed.
Lemma valf_st_set_prev l v st x : valf (st_set_prev l v st) x = valf st x.
Proof.
  unfold valf. rewrite lookup_st_set_prev. case_decide; subst; [ | done ].
  by destruct (st !! l).
Qed.

Lemma length_unlink p q st : length (unlink p q st) = length st.
Proof. unfold unlink. by rewrite length_st_set_prev, length_st_set_next. Qed.
Lemma length_link_front m n h st : length (link_front m n h st) = length st.
Proof.
  unfold link_front.
  by rewrite !length_st_set_prev, !length_st_set_next, length_st_set_prev,
    length_st_set_next.
Qed.

Lemma nextf_unlink p q st x :
  (p < length st)%nat ->
  nextf (unlink p q st) x = if decide (x = p) then Some q else nextf st x.
Proof. intros. unfold unlink. by rewrite nextf_st_set_prev, nextf_st_set_next. Qed.
Lemma prevf_unlink p q st x :
  (q < length st)%nat ->
  prevf (unlink p q st) x = if decide (x = q) then Some p else prevf st x.
Proof.
  intros. unfold unlink.
  by rewrite prevf_st_set_prev, prevf_st_set_next
    by by rewrite length_st_set_next.
Qed.
Lemma keyf_unlink p q st x : keyf (unlink p q st) x = keyf st x.
Proof. unfold unlink. by rewrite keyf_st_set_prev, keyf_st_set_next. Qed.
Lemma valf_unlink p q st x : valf (unlink p q st) x = valf st x.
Proof. unfold unlink. by rewrite valf_st_set_prev, valf_st_set_next. Qed.

Lemma nextf_link_front m n h st x :
  (m < length st)%nat -> (n < length st)%nat ->
  nextf (link_front m n h st) x =
  if decide (x = n) then Some h
  else if decide (x = m) then Some n else nextf st x.
Proof.
  intros. unfold link_front.
  rewrite nextf_st_set_prev, nextf_st_set_next
    by by rewrite length_st_set_prev, length_st_set_next.
  by rewrite nextf_st_set_prev, nextf_st_set_next.
Qed.
Lemma prevf_link_front m n h st x :
  (n < length st)%nat -> (h < length st)%nat ->
  prevf (link_front m n h st) x =
  if decide (x = h) then Some n
  else if decide (x = n) then Some m else prevf st x.
Proof.
  intros. unfold link_front.
  rewrite prevf_st_set_prev
    by by rewrite length_st_set_next, length_st_set_prev, length_st_set_next.
  rewrite prevf_st_set_next, prevf_st_set_prev by by rewrite length_st_set_next.
  by rewrite prevf_st_set_next.
Qed.
Lemma keyf_link_front m n h st x : keyf (link_front m n h st) x = keyf st x.
Proof.
  unfold link_front.
  by rewrite keyf_st_set_prev, keyf_st_set_next, keyf_st_set_prev,
    keyf_st_set_next.
Qed.
Lemma valf_link_front m n h st x : valf (link_front m n h st) x = valf st x.
Proof.
  unfold link_front.
  by rewrite valf_st_set_prev, valf_st_set_next, valf_st_set_prev,
    valf_st_set_next.
Qed.

Lemma nextf_lt st a b : nextf st a = Some b -> (a < length st)%nat.
Proof.
  unfold nextf. destruct (st !! a) eqn:Ha; [ | done ].
  intros _. by eapply lookup_lt_Some.
Qed.
Lemma prevf_lt st a b : prevf st a = Some b -> (a < length st)%nat.
Proof.
  unfold prevf. destruct (st !! a) eqn:Ha; [ | done ].
  intros _. by eapply lookup_lt_Some.
Qed.

(** ** Linked paths *)

Lemma linked_cons2 st a b path :
  linked st (a :: b :: path) <->
  nextf st a = Some b /\ prevf st b = Some a /\ linked st (b :: path).
Proof. done. Qed.

Lemma linked_cons_inv st a path : linked st (a :: path) -> linked st path.
Proof. destruct path; [ done | ]. rewrite linked_cons2. tauto. Qed.

Lemma linked_lt st path x :
  linked st path -> (2 <= length path)%nat -> x ∈ path -> (x < length st)%nat.
Proof.
  induction path as [ | a [ | b path ] IH ]; simpl; try lia.
  rewrite linked_cons2.
  intros (Hn & Hp & Hl) _ [ -> | Hx ]%elem_of_cons; [ by eapply nextf_lt | ].
  destruct path as [ | c path ].
  - apply list_elem_of_singleton in Hx as ->. by eapply prevf_lt.
  - apply IH; simpl; [ done | lia | done ].
Qed.

Lemma linked_frame st st' path :
  (forall x, x ∈ path -> nextf st' x = nextf st x) ->
  (forall x, x ∈ tail path -> prevf st' x = prevf st x) ->
  linked st path -> linked st' path.
Proof.
  induction path as [ | a [ | b path ] IH ]; try done.
  rewrite !linked_cons2. intros Hn Hp (Ha & Hb & Hl). split_and!.
  - rewrite Hn; [ done | left ].
  - rewrite Hp; [ done | left ].
  - apply IH; [ | | done ].
    + intros x Hx. apply Hn. by right.
    + intros x Hx. apply Hp. by right.
Qed.

Lemma linked_unlink st l1 p n q l2 :
  NoDup (l1 ++ p :: n :: q :: l2) ->
  linked st (l1 ++ p :: n :: q :: l2) ->
  linked (unlink p q st) (l1 ++ p :: q :: l2).
Proof.
  intros Hnd Hl.
  assert (p < length st /\ q < length st)%nat as [Hp Hq].
  { split; eapply linked_lt; try done; rewrite ?length_app; simpl; try lia;
      set_solver. }
  induction l1 as [ | a l1 IH ]; simpl in *.
  - rewrite !linked_cons2 in Hl. destruct Hl as (_ & _ & _ & _ & Hl).
    apply NoDup_cons in Hnd as [Hp' [Hn' [Hq' _]%NoDup_cons]%NoDup_cons].
    rewrite linked_cons2.
    rewrite nextf_unlink, prevf_unlink by done.
    rewrite !decide_True by done. split_and!; try done.
    apply (linked_frame st); [ | | done ]; intros x Hx.
    + rewrite nextf_unlink by done. rewrite decide_False; [ done | set_solver ].
    + rewrite prevf_unlink by done. rewrite decide_False; [ done | ].
      simpl in Hx. set_solver.
  - apply NoDup_cons in Hnd as [Ha Hnd].
    destruct l1 as [ | b l1 ]; simpl in *.
    + rewrite linked_cons2 in Hl |- *.
      destruct Hl as (Hn & Hp' & Hl). split_and!; [ | | by apply IH ].
      * rewrite nextf_unlink by done. rewrite decide_False; [ done | set_solver ].
      * rewrite prevf_unlink by done. rewrite decide_False; [ done | ].
        apply NoDup_cons in Hnd as [Hp'' [Hn' _]%NoDup_cons]. set_solver.
    + rewrite linked_cons2 in Hl |- *.
      destruct Hl as (Hn & Hp' & Hl). split_and!; [ | | by apply IH ].
      * rewrite nextf_unlink by done. rewrite decide_False; [ done | set_solver ].
      * rewrite prevf_unlink by done. rewrite decide_False; [ done | ].
        apply NoDup_cons in Hnd as [Hb Hnd]. apply NoDup_app in Hnd as (_ & _ & Hnd).
        intros ->. set_solver.
Qed.

Lemma linked_snoc2 st l m h :
  linked st (l ++ [m; h]) -> nextf st m = Some h /\ prevf st h = Some m.
Proof.
  induction l as [ | a l IH ]; simpl.
  - rewrite linked_cons2. intros (? & ? & _). done.
  - intros ?%linked_cons_inv. auto.
Qed.

Lemma linked_link_front st l m n h :
  NoDup (l ++ [m; h]) -> n ∉ l ++ [m; h] -> (n < length st)%nat ->
  linked st (l ++ [m; h]) ->
  linked (link_front m n h st) (l ++ [m; n; h]).
Proof.
  intros Hnd Hn Hlt Hl.
  assert (m < length st /\ h < length st)%nat as [Hm Hh].
  { split; eapply linked_lt; try done; rewrite ?length_app; simpl; try lia;
      set_solver. }
  induction l as [ | a l IH ]; simpl in *.
  - rewrite !linked_cons2.
    rewrite !nextf_link_front, !prevf_link_front by done.
    apply NoDup_cons in Hnd as [Hmh _].
    repeat case_decide; subst; try done; set_solver.
  - apply NoDup_cons in Hnd as [Ha Hnd].
    assert (linked (link_front m n h st) (l ++ [m; n; h])) as IH'.
    { apply IH; [ done | set_solver | by eapply linked_cons_inv ]. }
    assert (a ≠ n /\ a ≠ m) as [Han Ham] by set_solver.
    destruct l as [ | b l ]; simpl in *.
    + rewrite linked_cons2 in Hl |- *. destruct Hl as (Hnx & Hpv & _).
      rewrite nextf_link_front, prevf_link_front by done.
      apply NoDup_cons in Hnd as [Hmh _].
      split_and!; [ | | done ]; repeat case_decide; subst; try done; set_solver.
    + rewrite linked_cons2 in Hl |- *. destruct Hl as (Hnx & Hpv & _).
      rewrite nextf_link_front, prevf_link_front by done.
      apply NoDup_cons in Hnd as [Hb Hnd].
      split_and!; [ | | done ]; repeat case_decide; subst; try done; set_solver.
Qed.

(** ** Walking the list *)

Lemma NoDup_lt_length (l : list nat) n :
  NoDup l -> (forall x, x ∈ l -> (x < n)%nat) -> (length l <= n)%nat.
Proof.
  intros Hnd Hlt.
  assert (length l <= length (seq 0%nat n))%nat as Hle.
  { apply submseteq_length, NoDup_submseteq; [ done | ].
    intros x Hx. apply elem_of_seq. specialize (Hlt x Hx). lia. }
  by rewrite length_seq in Hle.
Qed.

Lemma walk_next_linked st fuel a ls h :
  NoDup (a :: ls ++ [h]) -> linked st (a :: ls ++ [h]) ->
  (length ls < fuel)%nat ->
  walk next fuel st h (nextf st a) = ls.
Proof.
  revert fuel a. induction ls as [ | b ls IH ]; intros fuel a Hnd Hl Hf; simpl in *.
  - rewrite linked_cons2 in Hl. destruct Hl as (-> & _).
    destruct fuel; [ lia | ]. simpl. by rewrite decide_True.
  - rewrite linked_cons2 in Hl. destruct Hl as (-> & _ & Hl).
    destruct fuel as [ | fuel ]; [ lia | ]. simpl.
    apply NoDup_cons in Hnd as [_ Hnd].
    rewrite decide_False.
    + f_equal. apply IH; [ done | done | lia ].
    + apply NoDup_cons in Hnd as [Hb _]. set_solver.
Qed.

Lemma linked_app_l st l1 l2 : linked st (l1 ++ l2) -> linked st l1.
Proof.
  induction l1 as [ | x [ | y l ] IH ]; try done.
  simpl. rewrite !linked_cons2. intros (? & ? & ?). split_and!; auto.
Qed.

Lemma walk_prev_linked st fuel t ls a :
  NoDup (t :: ls ++ [a]) -> linked st (t :: ls ++ [a]) ->
  (length ls < fuel)%nat ->
  walk prev fuel st t (prevf st a) = rev ls.
Proof.
  revert fuel a. induction ls as [ | b ls IH ] using rev_ind;
    intros fuel a Hnd Hl Hf.
  - simpl in *. rewrite linked_cons2 in Hl. destruct Hl as (_ & -> & _).
    destruct fuel; [ lia | ]. simpl. by rewrite decide_True.
  - rewrite length_app in Hf. simpl in Hf.
    destruct (linked_snoc2 st (t :: ls) b a) as [_ ->].
    { simpl. by rewrite <- app_assoc in Hl. }
    destruct fuel as [ | fuel ]; [ lia | ]. simpl.
    rewrite rev_unit.
    change (t :: (ls ++ [b]) ++ [a]) with ((t :: ls ++ [b]) ++ [a]) in Hnd, Hl.
    apply NoDup_app in Hnd as (Hnd & _ & _).
    apply linked_app_l in Hl.
    rewrite decide_False.
    + f_equal. apply IH; [ done | done | lia ].
    + apply NoDup_cons in Hnd as [Ht _]. set_solver.
Qed.

(** ** The methods on a well-formed cache *)

Lemma read_ok l self n :
  store self !! l = Some n -> read l self = (Ok n, self).
Proof. unfold read. by intros ->. Qed.

Lemma write_next_ok l v self :
  (l < length (store self))%nat ->
  write l (with_next v) self
  = (Ok tt, set_store (st_set_next l v (store self)) self).
Proof.
  intros [n Hn]%lookup_lt_is_Some. unfold write, st_set_next. by rewrite Hn.
Qed.

Lemma write_prev_ok l v self :
  (l < length (store self))%nat ->
  write l (with_prev v) self
  = (Ok tt, set_store (st_set_prev l v (store self)) self).
Proof.
  intros [n Hn]%lookup_lt_is_Some. unfold write, st_set_prev. by rewrite Hn.
Qed.

Lemma nextf_Some st l q :
  nextf st l = Some q -> exists n, st !! l = Some n /\ next n = Some q.
Proof. unfold nextf. destruct (st !! l) as [ n | ]; [ | done ]. by exists n. Qed.
Lemma prevf_Some st l p :
  prevf st l = Some p -> exists n, st !! l = Some n /\ prev n = Some p.
Proof. unfold prevf. destruct (st !! l) as [ n | ]; [ | done ]. by exists n. Qed.

Lemma _remove_linked node p q self :
  prevf (store self) node = Some p -> nextf (store self) node = Some q ->
  (p < length (store self))%nat -> (q < length (store self))%nat ->
  _remove node self = (Ok tt, set_store (unlink p q (store self)) self).
Proof.
  intros (n & Hn & Hp)%prevf_Some (n' & Hn' & Hq)%nextf_Some Hlp Hlq.
  assert (n' = n) as -> by congruence.
  unfold _remove, bind. rewrite (read_ok _ _ _ Hn), Hp, Hq.
  rewrite write_next_ok by done.
  rewrite write_prev_ok by (simpl; by rewrite length_st_set_next).
  done.
Qed.

Lemma _remove_fresh node k v self :
  store self !! node = Some (mk_Node k v None None) ->
  _remove node self = (Ok tt, self).
Proof. intros Hn. unfold _remove, bind. by rewrite (read_ok _ _ _ Hn). Qed.

Lemma _move_front_eq node : _move_front node = bind (_remove node) (fun _ => insert_front node).
Proof. done. Qed.

Lemma insert_front_ok node m self :
  prevf (store self) (_head self) = Some m ->
  (m < length (store self))%nat -> (node < length (store self))%nat ->
  insert_front node self
  = (Ok tt, set_store (link_front m node (_head self) (store self)) self).
Proof.
  intros (h & Hh & Hm)%prevf_Some Hlm Hln.
  assert (_head self < length (store self))%nat by by eapply lookup_lt_Some.
  unfold insert_front, bind, attr. rewrite (read_ok _ _ _ Hh), Hm. simpl.
  rewrite write_next_ok by done.
  rewrite write_prev_ok by (simpl; by rewrite length_st_set_next).
  rewrite write_next_ok
    by (simpl; by rewrite length_st_set_prev, length_st_set_next).
  rewrite write_prev_ok
    by (simpl;
        by rewrite length_st_set_next, length_st_set_prev, length_st_set_next).
  done.
Qed.

Lemma snoc_decomp {A} (x : A) l : exists l' y, x :: l = l' ++ [y].
Proof.
  revert x. induction l as [ | z l IH ]; intros x.
  - by exists [], x.
  - destruct (IH z) as (l' & y & ->). by exists (x :: l'), y.
Qed.

Lemma linked_mid st l1 p n q l2 :
  linked st (l1 ++ p :: n :: q :: l2) ->
  prevf st n = Some p /\ nextf st n = Some q.
Proof.
  induction l1 as [ | a l1 IH ]; simpl.
  - rewrite !linked_cons2. tauto.
  - intros ?%linked_cons_inv. auto.
Qed.

Lemma _move_front_live self la n lb :
  NoDup (_tail self :: (la ++ n :: lb) ++ [_head self]) ->
  linked (store self) (_tail self :: (la ++ n :: lb) ++ [_head self]) ->
  exists st',
    _move_front n self = (Ok tt, set_store st' self)
    /\ linked st' (_tail self :: (la ++ lb ++ [n]) ++ [_head self])
    /\ length st' = length (store self)
    /\ (forall x, keyf st' x = keyf (store self) x)
    /\ (forall x, valf st' x = valf (store self) x).
Proof.
  set (t := _tail self). set (h := _head self). set (st := store self).
  intros Hnd Hl.
  destruct (snoc_decomp t la) as (l1 & p & Hl1).
  assert (exists q l2, lb ++ [h] = q :: l2) as (q & l2 & Hl2).
  { destruct lb; simpl; eauto. }
  assert (t :: (la ++ n :: lb) ++ [h] = l1 ++ p :: n :: q :: l2) as Hpath.
  { rewrite <- app_assoc. simpl. rewrite Hl2.
    change (t :: la ++ n :: q :: l2) with ((t :: la) ++ n :: q :: l2).
    rewrite Hl1. by rewrite <- app_assoc. }
  rewrite Hpath in Hnd, Hl.
  destruct (linked_mid _ _ _ _ _ _ Hl) as [Hp Hq].
  assert (forall x, x ∈ l1 ++ p :: n :: q :: l2 -> (x < length st)%nat) as Hlt.
  { intros x Hx. eapply linked_lt; [ done | | done ].
    rewrite length_app. simpl. lia. }
  assert (p < length st)%nat as Hlp by (apply Hlt; set_solver).
  assert (q < length st)%nat as Hlq by (apply Hlt; set_solver).
  assert (n < length st)%nat as Hln by (apply Hlt; set_solver).
  pose proof (linked_unlink _ _ _ _ _ _ Hnd Hl) as Hl'.
  assert (l1 ++ p :: q :: l2 = (t :: la ++ lb) ++ [h]) as Hpath1.
  { change (l1 ++ p :: q :: l2) with (l1 ++ [p] ++ q :: l2).
    rewrite app_assoc, <- Hl1, <- Hl2. simpl. by rewrite app_assoc. }
  destruct (snoc_decomp t (la ++ lb)) as (l3 & m & Hl3).
  assert (l1 ++ p :: q :: l2 = l3 ++ [m; h]) as Hpath2.
  { rewrite Hpath1, Hl3. by rewrite <- app_assoc. }
  rewrite Hpath2 in Hl'.
  assert (NoDup (l3 ++ [m; h]) /\ n ∉ l3 ++ [m; h]) as [Hnd' Hn'].
  { rewrite <- Hpath2.
    apply NoDup_app in Hnd as (H1 & H2 & H3).
    apply NoDup_cons in H3 as [Hp3 H3]. apply NoDup_cons in H3 as [Hn3 H3].
    split.
    - apply NoDup_app. split_and!; [ done | | ].
      + intros x Hx. specialize (H2 x Hx). set_solver.
      + apply NoDup_cons. split; [ set_solver | done ].
    - intros [Hx | Hx]%elem_of_app.
      + specialize (H2 n Hx). set_solver.
      + set_solver. }
  exists (link_front m n h (unlink p q st)).
  rewrite _move_front_eq. unfold bind.
  rewrite (_remove_linked _ p q) by done.
  rewrite (insert_front_ok _ m); simpl; fold st h.
  - split_and!.
    + done.
    + replace (t :: (la ++ lb ++ [n]) ++ [h]) with (l3 ++ [m; n; h]).
      * apply linked_link_front; by rewrite ?length_unlink.
      * change (l3 ++ [m; n; h]) with (l3 ++ [m] ++ [n; h]).
        rewrite app_assoc, <- Hl3. simpl. by rewrite <- !app_assoc.
    + by rewrite length_link_front, length_unlink.
    + intros x. by rewrite keyf_link_front, keyf_unlink.
    + intros x. by rewrite valf_link_front, valf_unlink.
  - by destruct (linked_snoc2 _ _ _ _ Hl').
  - rewrite length_unlink. eapply (linked_lt _ _ m) in Hl'.
    + by rewrite length_unlink in Hl'.
    + rewrite length_app. simpl. lia.
    + set_solver.
  - by rewrite length_unlink.
Qed.

Lemma _move_front_fresh self ls n k v :
  NoDup (_tail self :: ls ++ [_head self]) ->
  linked (store self) (_tail self :: ls ++ [_head self]) ->
  store self !! n = Some (mk_Node k v None None) ->
  n ∉ _tail self :: ls ++ [_head self] ->
  exists st',
    _move_front n self = (Ok tt, set_store st' self)
    /\ linked st' (_tail self :: (ls ++ [n]) ++ [_head self])
    /\ length st' = length (store self)
    /\ (forall x, keyf st' x = keyf (store self) x)
    /\ (forall x, valf st' x = valf (store self) x).
Proof.
  set (t := _tail self). set (h := _head self). set (st := store self).
  intros Hnd Hl Hn Hnin.
  destruct (snoc_decomp t ls) as (l3 & m & Hl3).
  assert (t :: ls ++ [h] = l3 ++ [m; h]) as Hpath.
  { change (t :: ls ++ [h]) with ((t :: ls) ++ [h]).
    rewrite Hl3. by rewrite <- app_assoc. }
  rewrite Hpath in Hnd, Hl, Hnin.
  assert (n < length st)%nat as Hln by by eapply lookup_lt_Some.
  exists (link_front m n h st).
  rewrite _move_front_eq. unfold bind.
  rewrite (_remove_fresh _ k v) by done.
  rewrite (insert_front_ok _ m); fold st h.
  - split_and!.
    + done.
    + replace (t :: (ls ++ [n]) ++ [h]) with (l3 ++ [m; n; h]).
      * by apply linked_link_front.
      * change (l3 ++ [m; n; h]) with (l3 ++ [m] ++ [n; h]).
        rewrite app_assoc, <- Hl3. simpl. by rewrite <- !app_assoc.
    + by rewrite length_link_front.
    + intros x. by rewrite keyf_link_front.
    + intros x. by rewrite valf_link_front.
  - by destruct (linked_snoc2 _ _ _ _ Hl).
  - eapply (linked_lt _ _ m) in Hl; [ done | | set_solver ].
    rewrite length_app. simpl. lia.
  - done.
Qed.

Lemma _pop_live self f rest :
  NoDup (_tail self :: (f :: rest) ++ [_head self]) ->
  linked (store self) (_tail self :: (f :: rest) ++ [_head self]) ->
  exists st',
    _pop self = (Ok f, set_store st' self)
    /\ linked st' (_tail self :: rest ++ [_head self])
    /\ length st' = length (store self)
    /\ (forall x, keyf st' x = keyf (store self) x)
    /\ (forall x, valf st' x = valf (store self) x).
Proof.
  set (t := _tail self). set (h := _head self). set (st := store self).
  intros Hnd Hl.
  assert (exists q l2, rest ++ [h] = q :: l2) as (q & l2 & Hl2).
  { destruct rest; simpl; eauto. }
  simpl in Hnd, Hl. rewrite Hl2 in Hnd, Hl.
  destruct (linked_mid st [] t f q l2 Hl) as [Hp Hq].
  assert (forall x, x ∈ t :: f :: q :: l2 -> (x < length st)%nat) as Hlt.
  { intros x Hx. eapply linked_lt; [ done | simpl; lia | done ]. }
  pose proof (linked_unlink st [] t f q l2 Hnd Hl) as Hl'.
  rewrite linked_cons2 in Hl. destruct Hl as ((tn & Ht & Hf)%nextf_Some & _).
  exists (unlink t q st). unfold _pop, bind, attr. fold t.
  rewrite (read_ok _ _ _ Ht), Hf. simpl.
  rewrite (_remove_linked _ t q); try done; try (apply Hlt; set_solver).
  fold st. split_and!.
  - done.
  - by rewrite Hl2.
  - by rewrite length_unlink.
  - intros x. by rewrite keyf_unlink.
  - intros x. by rewrite valf_unlink.
Qed.

Lemma assoc_None es k :
  assoc es k = None <-> Forall (fun k' => py_eq k' k = false) es.*1.
Proof.
  induction es as [ | e es IH ]; simpl.
  - split; auto using Forall_nil_2.
  - rewrite Forall_cons. destruct (py_eq e.1 k); [ | tauto ].
    split; [ done | by intros [? _] ].
Qed.

Lemma assoc_mid ea e eb k :
  keys_distinct (ea ++ e :: eb).*1 -> py_eq e.1 k = true ->
  assoc (ea ++ e :: eb) k = Some e /\ remove_key (ea ++ e :: eb) k = ea ++ eb.
Proof.
  intros Hd Hk. induction ea as [ | a ea IH ]; simpl in *.
  - by rewrite Hk.
  - destruct Hd as [Hall Hd].
    assert (py_eq a.1 k = false) as ->.
    { rewrite Forall_forall in Hall.
      assert (py_eq a.1 e.1 = false) as Hne.
      { apply Hall. rewrite fmap_app. set_solver. }
      destruct (py_eq a.1 k) eqn:Hak; [ | done ].
      rewrite py_eq_sym in Hk. by rewrite (py_eq_trans a.1 k e.1) in Hne. }
    destruct (IH Hd) as [-> ->]. done.
Qed.

Lemma dict_get_None_keys d k :
  dict_get d k = None <-> Forall (fun k' => py_eq k' k = false) d.*1.
Proof. rewrite dict_get_None. by rewrite Forall_fmap. Qed.

(** ** What the invariant gives *)

Lemma keyf_app_l st l x : (x < length st)%nat -> keyf (st ++ l) x = keyf st x.
Proof. intros. unfold keyf. by rewrite lookup_app_l. Qed.
Lemma valf_app_l st l x : (x < length st)%nat -> valf (st ++ l) x = valf st x.
Proof. intros. unfold valf. by rewrite lookup_app_l. Qed.
Lemma nextf_app_l st l x : (x < length st)%nat -> nextf (st ++ l) x = nextf st x.
Proof. intros. unfold nextf. by rewrite lookup_app_l. Qed.
Lemma prevf_app_l st l x : (x < length st)%nat -> prevf (st ++ l) x = prevf st x.
Proof. intros. unfold prevf. by rewrite lookup_app_l. Qed.

Lemma lookup_keyf_valf st l :
  (l < length st)%nat ->
  exists n, st !! l = Some n /\ key n = keyf st l /\ val n = valf st l.
Proof.
  intros [n Hn]%lookup_lt_is_Some. exists n. unfold keyf, valf. by rewrite Hn.
Qed.

Lemma omap_entry_at st (l : list nat) :
  (forall x, x ∈ l -> (x < length st)%nat) ->
  omap (entry_at st) l = kvf st <$> l.
Proof.
  induction l as [ | x l IH ]; intros Hlt; [ done | ].
  destruct (lookup_keyf_valf st x) as (n & Hn & Hk & Hv); [ apply Hlt; left | ].
  change (omap (entry_at st) (x :: l))
    with (match entry_at st x with
          | Some e => e :: omap (entry_at st) l
          | None => omap (entry_at st) l
          end).
  rewrite IH by (intros y Hy; apply Hlt; by right).
  unfold entry_at. rewrite Hn. simpl. unfold kvf at 2. by rewrite Hk, Hv.
Qed.

Section inv_facts.
Context (self : LRUCache) (ls : list loc) (HI : Inv self ls).

Lemma Inv_lt x :
  x ∈ _tail self :: ls ++ [_head self] -> (x < length (store self))%nat.
Proof.
  intros Hx. eapply linked_lt; [ apply HI | | done ].
  simpl. rewrite length_app. simpl. lia.
Qed.

Lemma Inv_live_lt x : x ∈ ls -> (x < length (store self))%nat.
Proof. intros. apply Inv_lt. set_solver. Qed.

Lemma Inv_length : (length ls + 2 <= length (store self))%nat.
Proof.
  pose proof (NoDup_lt_length _ (length (store self)) (inv_nodup _ _ HI) Inv_lt)
    as Hle.
  simpl in Hle. rewrite length_app in Hle. simpl in Hle. lia.
Qed.

Lemma Inv_chain : chain self = ls.
Proof.
  unfold chain. apply walk_next_linked; try apply HI.
  pose proof Inv_length. lia.
Qed.

Lemma Inv_chain_back : chain_back self = rev ls.
Proof.
  unfold chain_back. apply walk_prev_linked; try apply HI.
  pose proof Inv_length. lia.
Qed.

Lemma Inv_entries : entries self = kvf (store self) <$> ls.
Proof.
  unfold entries. rewrite Inv_chain. apply omap_entry_at, Inv_live_lt.
Qed.

Lemma Inv_keys_data : (_data self).*1 ≡ₚ keyf (store self) <$> ls.
Proof.
  rewrite (inv_index _ _ HI). rewrite <- list_fmap_compose. done.
Qed.

Lemma Inv_entries_keys : (entries self).*1 = keyf (store self) <$> ls.
Proof. rewrite Inv_entries. by rewrite <- list_fmap_compose. Qed.

Lemma Inv_len : __len__ self = Z.of_nat (length ls).
Proof.
  unfold __len__. by rewrite (inv_index _ _ HI), length_fmap.
Qed.

Lemma Inv_dict_get_Some k n :
  dict_get (_data self) k = Some n ->
  n ∈ ls /\ py_eq (keyf (store self) n) k = true.
Proof.
  intros (k0 & Hin & Hk)%dict_get_Some.
  rewrite (inv_index _ _ HI) in Hin.
  apply list_elem_of_fmap in Hin as (l & [= -> ->] & Hl). done.
Qed.

Lemma Inv_dict_get_None k :
  dict_get (_data self) k = None <-> assoc (entries self) k = None.
Proof.
  rewrite dict_get_None_keys, assoc_None, Inv_entries_keys.
  by rewrite Inv_keys_data.
Qed.
End inv_facts.

Lemma kvf_ext st st' (l : list nat) :
  (forall x, x ∈ l -> keyf st' x = keyf st x) ->
  (forall x, x ∈ l -> valf st' x = valf st x) ->
  kvf st' <$> l = kvf st <$> l.
Proof.
  intros Hk Hv. apply list_fmap_ext. intros i x Hx.
  apply list_elem_of_lookup_2 in Hx. unfold kvf. by rewrite Hk, Hv.
Qed.
Lemma klf_ext st st' (l : list nat) :
  (forall x, x ∈ l -> keyf st' x = keyf st x) -> klf st' <$> l = klf st <$> l.
Proof.
  intros Hk. apply list_fmap_ext. intros i x Hx.
  apply list_elem_of_lookup_2 in Hx. unfold klf. by rewrite Hk.
Qed.
Lemma keyf_ext st st' (l : list nat) :
  (forall x, x ∈ l -> keyf st' x = keyf st x) -> keyf st' <$> l = keyf st <$> l.
Proof.
  intros Hk. apply list_fmap_ext. intros i x Hx.
  apply list_elem_of_lookup_2 in Hx. by rewrite Hk.
Qed.

Lemma touch_live self ls k n :
  Inv self ls -> dict_get (_data self) k = Some n ->
  exists st' la lb,
    ls = la ++ n :: lb
    /\ _move_front n self = (Ok tt, set_store st' self)
    /\ Inv (set_store st' self) (la ++ lb ++ [n])
    /\ (forall x, keyf st' x = keyf (store self) x)
    /\ (forall x, valf st' x = valf (store self) x)
    /\ length st' = length (store self)
    /\ py_eq (keyf (store self) n) k = true.
Proof.
  intros HI Hg.
  destruct (Inv_dict_get_Some _ _ HI _ _ Hg) as [Hn Hk].
  apply list_elem_of_split in Hn as (la & lb & ->).
  destruct (_move_front_live self la n lb) as (st' & Hmf & Hl & Hlen & Hkf & Hvf);
    [ apply HI | apply HI | ].
  exists st', la, lb. split_and!; try done.
  assert (la ++ lb ++ [n] ≡ₚ la ++ n :: lb) as Hperm.
  { apply Permutation_app_head. symmetry. apply Permutation_cons_append. }
  constructor; simpl.
  - rewrite Hperm. apply HI.
  - done.
  - rewrite (inv_index _ _ HI). rewrite Hperm.
    fold (klf st'). fold (klf (store self)). by rewrite (klf_ext (store self) st').
  - rewrite (keyf_ext (store self) st') by done.
    eapply keys_distinct_perm; [ | apply HI ]. by rewrite Hperm.
  - rewrite Hperm. apply HI.
Qed.

Lemma get_miss self k default :
  dict_get (_data self) k = None -> get k default self = (Ok default, self).
Proof. intros Hg. unfold get, bind, attr. by rewrite Hg. Qed.

Lemma access_hit self ls k n :
  Inv self ls -> dict_get (_data self) k = Some n ->
  exists st' la lb,
    ls = la ++ n :: lb
    /\ (forall default,
         get k default self = (Ok (valf (store self) n), set_store st' self))
    /\ (forall v, put k v self = (Ok (valf (store self) n), set_store st' self))
    /\ Inv (set_store st' self) (la ++ lb ++ [n])
    /\ (forall x, keyf st' x = keyf (store self) x)
    /\ (forall x, valf st' x = valf (store self) x)
    /\ py_eq (keyf (store self) n) k = true.
Proof.
  intros HI Hg.
  destruct (touch_live _ _ _ _ HI Hg)
    as (st' & la & lb & Hls & Hmf & HI' & Hkf & Hvf & Hlen & Hk).
  exists st', la, lb.
  assert (n < length st')%nat as Hlt.
  { rewrite Hlen. apply (Inv_live_lt _ _ HI). rewrite Hls. set_solver. }
  destruct (lookup_keyf_valf st' n Hlt) as (nd & Hnd & _ & Hv).
  assert (bind (_move_front n)
            (fun _ => bind (read n) (fun n0 => ret (val n0))) self
          = (Ok (valf (store self) n), set_store st' self)) as Hrun.
  { unfold bind. rewrite Hmf. rewrite (read_ok _ _ nd) by done.
    unfold ret. by rewrite Hv, Hvf. }
  split_and!; try done.
  - intros default. unfold get, bind at 1, attr. by rewrite Hg.
  - intros v. unfold put, bind at 1, attr. by rewrite Hg.
Qed.

Lemma put_new self ls k v :
  Inv self ls -> dict_get (_data self) k = None ->
  exists self',
    put k v self = (Ok PyNone, self')
    /\ Inv self'
         (if Z.of_nat (length (ls ++ [length (store self)])) >? capacity self
          then tail (ls ++ [length (store self)])
          else ls ++ [length (store self)])
    /\ capacity self' = capacity self
    /\ (forall x, (x < length (store self))%nat ->
          keyf (store self') x = keyf (store self) x
          /\ valf (store self') x = valf (store self) x)
    /\ keyf (store self') (length (store self)) = k
    /\ valf (store self') (length (store self)) = v.
Proof.
  intros HI Hg.
  set (st := store self). set (n := length st). set (d := _data self).
  set (nd := mk_Node k v None None).
  set (s2 := set_data (d ++ [(k, n)]) (set_store (st ++ [nd]) self)).
  assert (forall x, x ∈ _tail self :: ls ++ [_head self] -> (x < n)%nat) as Hlt
    by apply (Inv_lt _ _ HI).
  assert (n ∉ _tail self :: ls ++ [_head self]) as Hnin.
  { intros Hn%Hlt. lia. }
  destruct (_move_front_fresh s2 ls n k v)
    as (st' & Hmf & Hl' & Hlen' & Hkf & Hvf).
  { apply HI. }
  { simpl. apply (linked_frame st); [ | | apply HI ].
    - intros x Hx. apply nextf_app_l. by apply Hlt.
    - intros x Hx. apply prevf_app_l. apply Hlt. by right. }
  { simpl. by apply list_lookup_middle. }
  { done. }
  simpl in Hl', Hlen', Hkf, Hvf.
  assert (forall x, (x < n)%nat ->
            keyf st' x = keyf st x /\ valf st' x = valf st x) as Hold.
  { intros x Hx. by rewrite Hkf, Hvf, keyf_app_l, valf_app_l. }
  assert (keyf st' n = k /\ valf st' n = v) as [Hkn Hvn].
  { rewrite Hkf, Hvf. unfold keyf, valf.
    by rewrite list_lookup_middle. }
  assert (forall x, x ∈ ls -> keyf st' x = keyf st x) as Hkls.
  { intros x Hx. apply Hold, Hlt. set_solver. }
  assert (NoDup (_tail self :: (ls ++ [n]) ++ [_head self])) as Hnd1.
  { pose proof (inv_nodup _ _ HI) as Hnd.
    apply NoDup_cons in Hnd as [Ht Hnd]. apply NoDup_app in Hnd as (H1 & H2 & H3).
    apply NoDup_cons. split; [ set_solver | ].
    apply NoDup_app. split_and!; [ | | done ].
    - apply NoDup_app. split_and!; [ done | | apply NoDup_singleton ].
      intros x Hx. set_solver.
    - intros x [Hx | Hx]%elem_of_app; [ by apply H2 | ]. set_solver. }
  assert (d ++ [(k, n)] ≡ₚ klf st' <$> (ls ++ [n])) as Hidx1.
  { rewrite fmap_app. simpl. unfold klf at 2. rewrite Hkn.
    rewrite (klf_ext st st') by done.
    apply Permutation_app_tail. apply HI. }
  assert (keys_distinct (keyf st' <$> (ls ++ [n]))) as Hkeys1.
  { rewrite fmap_app. simpl. rewrite Hkn.
    apply keys_distinct_snoc. rewrite (keyf_ext st st') by done.
    split; [ apply HI | ].
    unfold st. rewrite <- (Inv_keys_data _ _ HI). by apply dict_get_None_keys. }
  assert (put k v self
          = bind (attr __len__) (fun len =>
              bind (attr capacity) (fun cap =>
                if len >? cap then
                  bind _pop (fun lru =>
                    bind (read lru) (fun n0 =>
                      bind (del_data (key n0)) (fun _ => ret PyNone)))
                else ret PyNone)) (set_store st' s2)) as ->.
  { unfold put, bind at 1, attr at 1. rewrite Hg.
    unfold bind at 1, new_Node. fold st n nd.
    unfold bind at 1, set_item. simpl.
    rewrite (dict_set_absent _ _ _ Hg).
    unfold bind at 1. fold d. fold s2. by rewrite Hmf. }
  unfold bind at 1, attr at 1. unfold bind at 1, attr at 1.
  unfold __len__. simpl. rewrite !length_app. simpl.
  assert (length d = length ls) as ->.
  { unfold d. rewrite (inv_index _ _ HI). apply length_fmap. }
  destruct (Z.of_nat (length ls + 1) >? capacity self) eqn:Hcap.
  - destruct (ls ++ [n]) as [ | f rest ] eqn:Hls1.
    { by destruct ls. }
    destruct (_pop_live (set_store st' s2) f rest)
      as (st'' & Hpop & Hl'' & Hlen'' & Hkf' & Hvf'); [ done | done | ].
    simpl in Hl'', Hlen'', Hkf', Hvf'.
    assert (f < length st'')%nat as Hf.
    { eapply linked_lt in Hl'.
      - rewrite Hlen''. exact Hl'.
      - simpl. lia.
      - set_solver. }
    destruct (lookup_keyf_valf st'' f Hf) as (fd & Hfd & Hfk & _).
    destruct (dict_del_elem (d ++ [(k, n)]) (keyf st' f) (keyf st' f) f)
      as (d' & Hdel & Hperm).
    { eapply keys_distinct_perm; [ | exact Hkeys1 ].
      rewrite Hidx1, <- list_fmap_compose. done. }
    { rewrite Hidx1. simpl. left. }
    { apply py_eq_refl. }
    exists (set_data d' (set_store st'' s2)).
    unfold bind at 1. rewrite Hpop.
    unfold bind at 1. rewrite (read_ok _ _ fd) by done.
    unfold bind, del_data, ret. simpl. rewrite Hfk, Hkf', Hdel.
    split_and!; try done.
    + constructor; simpl.
      * apply NoDup_cons in Hnd1 as [Ht Hnd1]. simpl in Hnd1.
        apply NoDup_cons in Hnd1 as [_ Hnd1].
        apply NoDup_cons. split; [ set_solver | done ].
      * done.
      * rewrite Hidx1 in Hperm. simpl in Hperm.
        apply Permutation_cons_inv in Hperm. rewrite <- Hperm.
        fold (klf st''). by rewrite (klf_ext st' st'').
      * rewrite (keyf_ext st' st'') by done. by destruct Hkeys1.
      * pose proof (inv_size _ _ HI) as Hsz.
        apply (f_equal length) in Hls1. rewrite length_app in Hls1.
        simpl in Hls1. lia.
    + intros x Hx. rewrite Hkf', Hvf'. by apply Hold.
    + by rewrite Hkf'.
    + by rewrite Hvf'.
  - exists (set_store st' s2). split_and!; try done.
    constructor; simpl; try done.
    rewrite length_app. simpl.
    rewrite Z.gtb_ltb, Z.ltb_ge in Hcap. lia.
Qed.

Lemma new_LRUCache_eq capacity :
  new_LRUCache capacity
  = Ok (mkLRUCache [] 0%nat 1%nat capacity
          [mk_Node _SENTINEL _SENTINEL (Some 1%nat) None;
           mk_Node _SENTINEL _SENTINEL None (Some 0%nat)]).
Proof. done. Qed.

Lemma new_Inv cap self :
  new_LRUCache cap = Ok self ->
  Inv self [] /\ entries self = [] /\ capacity self = cap.
Proof.
  rewrite new_LRUCache_eq. intros [= <-]. split_and!; try done.
  constructor; simpl; try done.
  - apply NoDup_cons. split; [ set_solver | apply NoDup_singleton ].
  - lia.
Qed.

Lemma step_refines o self ls :
  Inv self ls ->
  exists self' ls',
    step o self = (Ok (model_step (capacity self) o (entries self)).1, self')
    /\ Inv self' ls'
    /\ entries self' = (model_step (capacity self) o (entries self)).2
    /\ capacity self' = capacity self.
Proof.
  intros HI.
  assert (forall k n,
    dict_get (_data self) k = Some n ->
    exists st' la lb,
      (forall default,
         get k default self = (Ok (valf (store self) n), set_store st' self))
      /\ (forall v, put k v self = (Ok (valf (store self) n), set_store st' self))
      /\ Inv (set_store st' self) (la ++ lb ++ [n])
      /\ assoc (entries self) k = Some (kvf (store self) n)
      /\ entries (set_store st' self)
         = remove_key (entries self) k ++ [kvf (store self) n]) as Hhit.
  { intros k n Hg.
    destruct (access_hit _ _ _ _ HI Hg)
      as (st' & la & lb & Hls & Hget & Hput & HI' & Hkf & Hvf & Hk).
    exists st', la, lb.
    assert (entries self
            = (kvf (store self) <$> la) ++ kvf (store self) n
                :: (kvf (store self) <$> lb)) as Hes.
    { by rewrite (Inv_entries _ _ HI), Hls, fmap_app, fmap_cons. }
    destruct (assoc_mid (kvf (store self) <$> la) (kvf (store self) n)
                (kvf (store self) <$> lb) k) as [Ha Hr]; [ | done | ].
    { rewrite <- Hes, (Inv_entries_keys _ _ HI). apply HI. }
    split_and!; try done.
    - by rewrite Hes.
    - rewrite Hes, Hr, (Inv_entries _ _ HI'). simpl.
      rewrite (kvf_ext (store self) st') by done.
      rewrite !fmap_app. simpl. by rewrite <- app_assoc. }
  destruct o as [ k default | k v ]; simpl;
    destruct (dict_get (_data self) k) as [ n | ] eqn:Hg.
  - destruct (Hhit k n Hg) as (st' & la & lb & Hget & _ & HI' & -> & He).
    exists (set_store st' self), (la ++ lb ++ [n]). by rewrite Hget.
  - rewrite (get_miss _ _ _ Hg).
    apply (Inv_dict_get_None _ _ HI) in Hg as ->. by exists self, ls.
  - destruct (Hhit k n Hg) as (st' & la & lb & _ & Hput & HI' & -> & He).
    exists (set_store st' self), (la ++ lb ++ [n]). by rewrite Hput.
  - destruct (put_new _ _ k v HI Hg)
      as (self' & Hput & HI' & Hcap & Hold & Hkn & Hvn).
    apply (Inv_dict_get_None _ _ HI) in Hg as ->. simpl.
    eexists self', _. rewrite Hput. split_and!; try done.
    rewrite (Inv_entries _ _ HI'), (Inv_entries _ _ HI).
    rewrite !length_app, length_fmap. simpl.
    assert (kvf (store self') <$> ls ++ [length (store self)]
            = (kvf (store self) <$> ls) ++ [(k, v)]) as Hall.
    { rewrite fmap_app. simpl. unfold kvf at 2. rewrite Hkn, Hvn. f_equal.
      apply kvf_ext; intros x Hx; apply Hold, (Inv_live_lt _ _ HI _ Hx). }
    destruct (Z.of_nat (length ls + 1) >? capacity self).
    + rewrite <- Hall. by destruct (ls ++ [length (store self)]).
    + done.
Qed.

(** ** Reachable caches *)

Lemma reachable_Inv self : reachable self -> exists ls, Inv self ls.
Proof.
  induction 1 as [ cap self Hnew | o self r self' _ [ls HI] Hstep ].
  - exists []. by apply (new_Inv cap).
  - destruct (step_refines o _ _ HI) as (self'' & ls' & Hstep' & HI' & _).
    rewrite Hstep in Hstep'. injection Hstep' as _ <-. by exists ls'.
Qed.

Lemma run_Inv ops self ls :
  Inv self ls ->
  exists rs self' ls',
    run ops self = (Ok rs, self') /\ Inv self' ls'
    /\ capacity self' = capacity self.
Proof.
  revert self ls. induction ops as [ | o ops IH ]; intros self ls HI.
  - by exists [], self, ls.
  - destruct (step_refines o _ _ HI) as (self1 & ls1 & Hstep & HI1 & _ & Hc1).
    destruct (IH _ _ HI1) as (rs & self' & ls' & Hrun & HI' & Hc').
    exists ((model_step (capacity self) o (entries self)).1 :: rs), self', ls'.
    simpl. unfold bind at 1. rewrite Hstep. unfold bind. rewrite Hrun.
    split_and!; [ done | done | congruence ].
Qed.

Lemma run_reachable ops self rs self' :
  reachable self -> run ops self = (rs, self') -> reachable self'.
Proof.
  revert self rs self'. induction ops as [ | o ops IH ]; intros self rs self' Hr.
  - by intros [= _ <-].
  - simpl. unfold bind at 1.
    destruct (step o self) as [[r | e] self1] eqn:Hstep.
    + unfold bind. destruct (run ops self1) as [[rs1 | e] self2] eqn:Hrun.
      * intros [= _ <-]. eapply IH; [ | done ]. by eapply reachable_step.
      * intros [= _ <-]. eapply IH; [ | done ]. by eapply reachable_step.
    + intros [= _ <-]. by eapply reachable_step.
Qed.

(** ** Times of access *)

Lemma last_access_from_snoc t0 tr a k :
  last_access_from t0 (tr ++ [a]) k =
  match a with
  | Some k' =>
      if py_eq k' k then Some (t0 + length tr)%nat
      else last_access_from t0 tr k
  | None => last_access_from t0 tr k
  end.
Proof.
  revert t0. induction tr as [ | b tr IH ]; intros t0; simpl.
  - rewrite Nat.add_0_r. by destruct a as [ k' | ]; [ destruct (py_eq k' k) | ].
  - rewrite IH. destruct a as [ k' | ]; [ | done ].
    destruct (py_eq k' k); [ | done ]. f_equal. lia.
Qed.

Lemma last_access_from_bound t0 tr k t :
  last_access_from t0 tr k = Some t -> (t0 <= t < t0 + length tr)%nat.
Proof.
  revert t0. induction tr as [ | b tr IH ]; intros t0; simpl; [ done | ].
  destruct (last_access_from (S t0) tr k) eqn:Hl.
  - intros [= <-]. apply IH in Hl. lia.
  - destruct b as [ k' | ]; [ | done ].
    destruct (py_eq k' k); [ | done ]. intros [= <-]. lia.
Qed.

Lemma last_access_snoc_eq tr k k0 :
  py_eq k k0 = true -> last_access (tr ++ [Some k]) k0 = Some (length tr).
Proof. intros Hk. unfold last_access. by rewrite last_access_from_snoc, Hk. Qed.

Lemma last_access_snoc_ne tr k k' :
  py_eq k k' = false -> last_access (tr ++ [Some k]) k' = last_access tr k'.
Proof. intros Hk. unfold last_access. by rewrite last_access_from_snoc, Hk. Qed.

Lemma last_access_snoc_None tr k' :
  last_access (tr ++ [None]) k' = last_access tr k'.
Proof. unfold last_access. by rewrite last_access_from_snoc. Qed.

Lemma StronglySorted_impl_elem {A} (R R' : relation A) l :
  (forall a b, a ∈ l -> b ∈ l -> R a b -> R' a b) ->
  StronglySorted R l -> StronglySorted R' l.
Proof.
  intros Himp Hl. induction Hl as [ | a l Hl IH Hall ]; constructor.
  - apply IH. intros x y Hx Hy. apply Himp; by right.
  - rewrite Forall_forall in Hall |- *. intros y Hy.
    apply Himp; [ left | by right | by apply Hall ].
Qed.

Lemma by_access_miss tr ks : by_access tr ks -> by_access (tr ++ [None]) ks.
Proof.
  intros [Hs Ha]. split.
  - eapply StronglySorted_impl_elem; [ | done ].
    intros a b _ _ (ta & tb & ? & ? & ?). exists ta, tb.
    by rewrite !last_access_snoc_None.
  - eapply Forall_impl; [ done | ]. intros a. by rewrite last_access_snoc_None.
Qed.

Lemma by_access_append tr ks k k0 :
  by_access tr ks -> Forall (fun k' => py_eq k k' = false) ks ->
  py_eq k k0 = true ->
  by_access (tr ++ [Some k]) (ks ++ [k0]).
Proof.
  intros [Hs Ha] Hne Hk. rewrite Forall_forall in Ha, Hne. split.
  - apply StronglySorted_app_2.
    + intros a b Ha' ->%list_elem_of_singleton.
      destruct (Ha a Ha') as [ta Hta]. exists ta, (length tr).
      rewrite last_access_snoc_ne by auto. rewrite last_access_snoc_eq by done.
      split_and!; try done.
      apply last_access_from_bound in Hta. lia.
    + eapply StronglySorted_impl_elem; [ | done ].
      intros a b Ha' Hb' (ta & tb & ? & ? & ?). exists ta, tb.
      by rewrite !last_access_snoc_ne by auto.
    + repeat constructor.
  - apply Forall_app. split.
    + apply Forall_forall. intros a Ha'.
      rewrite last_access_snoc_ne by auto. auto.
    + apply Forall_singleton. by rewrite last_access_snoc_eq.
Qed.

Lemma by_access_remove tr ks1 k0 ks2 :
  by_access tr (ks1 ++ k0 :: ks2) -> by_access tr (ks1 ++ ks2).
Proof.
  intros [Hs Ha]. split.
  - apply StronglySorted_app in Hs as (H12 & H1 & H2).
    apply StronglySorted_app_2; [ | done | ].
    + intros a b Ha' Hb'. apply H12; [ done | by right ].
    + by apply StronglySorted_cons in H2 as [_ ?].
  - rewrite Forall_app, Forall_cons in Ha. rewrite Forall_app. tauto.
Qed.

Lemma by_access_tail tr ks : by_access tr ks -> by_access tr (tail ks).
Proof.
  destruct ks as [ | k ks ]; [ done | ]. apply (by_access_remove tr [] k ks).
Qed.

Lemma keys_distinct_mid ks1 k0 ks2 :
  keys_distinct (ks1 ++ k0 :: ks2) ->
  Forall (fun k' => py_eq k0 k' = false) (ks1 ++ ks2).
Proof.
  intros Hd.
  assert (k0 :: ks1 ++ ks2 ≡ₚ ks1 ++ k0 :: ks2) as Hp
    by apply Permutation_middle.
  symmetry in Hp. by destruct (keys_distinct_perm _ _ Hp Hd).
Qed.

Lemma assoc_Some_split es k e :
  assoc es k = Some e ->
  exists ea eb,
    es = ea ++ e :: eb /\ py_eq e.1 k = true /\ remove_key es k = ea ++ eb.
Proof.
  induction es as [ | a es IH ]; simpl; [ done | ].
  destruct (py_eq a.1 k) eqn:Ha.
  - intros [= ->]. by exists [], es.
  - intros (ea & eb & -> & Hk & ->)%IH. by exists (a :: ea), eb.
Qed.

Lemma access_by_access o self ls tr self' r :
  Inv self ls -> by_access tr (entries self).*1 ->
  step o self = (r, self') ->
  by_access (tr ++ [access_of o self]) (entries self').*1.
Proof.
  intros HI Hb Hstep.
  destruct (step_refines o _ _ HI) as (self1 & ls1 & Hstep1 & HI1 & Hes & _).
  rewrite Hstep in Hstep1. injection Hstep1 as _ <-. rewrite Hes. clear Hes.
  pose proof (inv_keys _ _ HI) as Hd. rewrite <- (Inv_entries_keys _ _ HI) in Hd.
  assert (forall k e,
    assoc (entries self) k = Some e ->
    by_access (tr ++ [Some k]) (remove_key (entries self) k ++ [e]).*1) as Hhit.
  { intros k e (ea & eb & Hsplit & Hk & ->)%assoc_Some_split.
    rewrite Hsplit, fmap_app, fmap_cons in Hb, Hd.
    rewrite !fmap_app. simpl.
    apply by_access_append.
    - by eapply by_access_remove.
    - eapply Forall_impl; [ by apply keys_distinct_mid | ].
      intros k' Hk'. simpl in Hk'. rewrite py_eq_sym in Hk.
      rewrite py_eq_sym. rewrite py_eq_sym in Hk'.
      destruct (py_eq k' k) eqn:Hkk; [ | done ].
      by rewrite (py_eq_trans k' k e.1) in Hk'.
    - by rewrite py_eq_sym. }
  destruct o as [ k default | k v ]; simpl.
  - destruct (dict_get (_data self) k) as [ n | ] eqn:Hg.
    + destruct (assoc (entries self) k) as [ e | ] eqn:Ha; [ by apply Hhit | ].
      apply (Inv_dict_get_None _ _ HI) in Ha. congruence.
    + apply (Inv_dict_get_None _ _ HI) in Hg as ->. by apply by_access_miss.
  - destruct (assoc (entries self) k) as [ e | ] eqn:Ha; [ by apply Hhit | ].
    simpl.
    assert (by_access (tr ++ [Some k]) (entries self ++ [(k, v)]).*1) as Hnew.
    { rewrite fmap_app. simpl. apply by_access_append; [ done | | apply py_eq_refl ].
      apply assoc_None in Ha. eapply Forall_impl; [ done | ].
      intros k'. simpl. by rewrite py_eq_sym. }
    destruct (_ >? _); [ | done ].
    rewrite fmap_tail. by apply by_access_tail.
Qed.

Lemma run_by_access ops self ls pre :
  Inv self ls -> by_access pre (entries self).*1 ->
  exists rs self' ls',
    run ops self = (Ok rs, self') /\ Inv self' ls'
    /\ capacity self' = capacity self
    /\ by_access (pre ++ trace ops self) (entries self').*1.
Proof.
  revert self ls pre. induction ops as [ | o ops IH ]; intros self ls pre HI Hb.
  - exists [], self, ls. by rewrite app_nil_r.
  - destruct (step_refines o _ _ HI) as (self1 & ls1 & Hstep & HI1 & _ & Hc1).
    pose proof (access_by_access _ _ _ _ _ _ HI Hb Hstep) as Hb1.
    destruct (IH _ _ _ HI1 Hb1) as (rs & self' & ls' & Hrun & HI' & Hc' & Hb').
    exists ((model_step (capacity self) o (entries self)).1 :: rs), self', ls'.
    split_and!; [ | done | congruence | ].
    + simpl. unfold bind at 1. rewrite Hstep. unfold bind. by rewrite Hrun.
    + cbn [trace]. rewrite Hstep. simpl. by rewrite <- app_assoc in Hb'.
Qed.

Lemma trace_snoc ops o self rs self' :
  run ops self = (Ok rs, self') ->
  trace (ops ++ [o]) self = trace ops self ++ [access_of o self'].
Proof.
  revert self rs. induction ops as [ | o' ops IH ]; intros self rs.
  - by intros [= _ <-].
  - cbn [run app trace]. unfold bind at 1.
    destruct (step o' self) as [[r | e] self1]; [ | done ]. cbn [snd].
    unfold bind. destruct (run ops self1) as [[rs1 | e] self2] eqn:Hrun; [ | done ].
    intros [= _ <-]. f_equal. by eapply IH.
Qed.

(** Claim C1.  Take any sequence of [get]s and [put]s on a new cache and,
    after it, a [put] of a key the cache does not hold that brings the
    number of entries past the capacity.  The [put] returns, and exactly
    one entry [e] leaves: the list after the [put] is the old list with the
    new entry appended and [e] taken off, the index loses the key of [e]
    and nothing else, and [e] is the least recently accessed entry: every
    entry that stays was last accessed, by a hit of [get] or by a [put],
    strictly after [e] was. *)
Theorem eviction_is_least_recent cap ops rs self0 self k v r self' :
  new_LRUCache cap = Ok self0 ->
  run ops self0 = (Ok rs, self) ->
  dict_get (_data self) k = None ->
  __len__ self + 1 > cap ->
  put k v self = (r, self') ->
  exists e,
    r = Ok PyNone
    /\ entries self ++ [(k, v)] = e :: entries self'
    /\ (_data self).*1 ++ [k] ≡ₚ e.1 :: (_data self').*1
    /\ dict_get (_data self') e.1 = None
    /\ forall k', k' ∈ (entries self').*1 ->
         lru_before (trace (ops ++ [Put k v]) self0) e.1 k'.
Proof.
  intros Hnew Hrun Hg Hover Hput.
  destruct (new_Inv _ _ Hnew) as (HI0 & Hes0 & Hc0).
  destruct (run_by_access ops self0 [] [] HI0)
    as (rs1 & self1 & ls & Hrun1 & HI & Hc & Hb).
  { rewrite Hes0. split; constructor. }
  rewrite Hrun in Hrun1. injection Hrun1 as _ <-. simpl in Hb.
  destruct (step_refines (Put k v) _ _ HI) as (self2 & ls' & Hstep & HI' & Hes & _).
  simpl in Hstep, Hes. rewrite Hput in Hstep. injection Hstep as -> <-.
  pose proof Hg as Ha. apply (Inv_dict_get_None _ _ HI) in Ha.
  rewrite Ha in Hes |- *. simpl in Hes |- *.
  assert ((Z.of_nat (length (entries self ++ [(k, v)])) >? capacity self) = true)
    as Hgt.
  { rewrite length_app, (Inv_entries _ _ HI), length_fmap. simpl.
    rewrite (Inv_len _ _ HI) in Hover. apply Z.gtb_lt. lia. }
  rewrite Hgt in Hes.
  destruct (entries self ++ [(k, v)]) as [ | e rest ] eqn:Hall.
  { by destruct (entries self). }
  simpl in Hes. subst rest. exists e.
  assert (keys_distinct (e.1 :: (entries self').*1)) as Hd.
  { rewrite <- (fmap_cons fst), <- Hall, fmap_app. simpl.
    apply keys_distinct_snoc. split.
    - rewrite (Inv_entries_keys _ _ HI). apply HI.
    - by apply assoc_None. }
  split_and!; try done.
  - rewrite (Inv_keys_data _ _ HI), <- (Inv_entries_keys _ _ HI).
    rewrite (Inv_keys_data _ _ HI'), <- (Inv_entries_keys _ _ HI').
    change [k] with ([(k, v)].*1). by rewrite <- fmap_app, Hall.
  - apply (Inv_dict_get_None _ _ HI'), assoc_None.
    destruct Hd as [Hd _]. eapply Forall_impl; [ done | ].
    intros k'. simpl. by rewrite py_eq_sym.
  - intros k' Hk'. rewrite (trace_snoc _ _ _ _ _ Hrun). simpl.
    assert (by_access (trace ops self0 ++ [Some k]) (e.1 :: (entries self').*1))
      as [Hs _].
    { rewrite <- (fmap_cons fst), <- Hall, fmap_app. simpl.
      apply by_access_append; [ done | | apply py_eq_refl ].
      apply assoc_None in Ha. eapply Forall_impl; [ done | ].
      intros k''. simpl. by rewrite py_eq_sym. }
    apply StronglySorted_cons in Hs as [Hs _].
    rewrite Forall_forall in Hs. by apply Hs.
Qed.

(** ** The size of the cache *)

(** Claim C2.  On a cache made with a positive capacity every sequence of
    operations, of [put]s in particular, runs without raising and leaves a
    cache whose number of entries, [len(self._data)], is at most the
    capacity and is the number of nodes strictly between the two
    sentinels, the same nodes whether the list is walked along [next] or
    back along [prev]. *)
Theorem size_at_most_capacity cap ops self0 :
  0 < cap ->
  new_LRUCache cap = Ok self0 ->
  exists rs self,
    run ops self0 = (Ok rs, self)
    /\ __len__ self <= cap
    /\ __len__ self = Z.of_nat (length (chain self))
    /\ chain_back self = rev (chain self)
    /\ (_head self ∉ chain self) /\ (_tail self ∉ chain self).
Proof.
  intros Hpos Hnew.
  destruct (new_Inv _ _ Hnew) as (HI0 & _ & Hc0).
  destruct (run_Inv ops _ _ HI0) as (rs & self & ls & Hrun & HI & Hc).
  exists rs, self.
  rewrite (Inv_len _ _ HI), (Inv_chain _ _ HI), (Inv_chain_back _ _ HI).
  pose proof (inv_size _ _ HI) as Hsz. pose proof (inv_nodup _ _ HI) as Hnd.
  apply NoDup_cons in Hnd as [Ht Hnd]. apply NoDup_app in Hnd as (_ & Hh & _).
  split_and!; [ done | lia | done | done | | set_solver ].
  intros Hin. apply (Hh _ Hin). set_solver.
Qed.

(** ** [put] on a key that is present *)

Lemma lookup_val_Some self ls k v :
  Inv self ls -> lookup_val self k = Some v ->
  exists n, dict_get (_data self) k = Some n /\ valf (store self) n = v.
Proof.
  intros HI. unfold lookup_val.
  destruct (dict_get (_data self) k) as [ n | ] eqn:Hg; [ | done ]. simpl.
  destruct (Inv_dict_get_Some _ _ HI _ _ Hg) as [Hn _].
  destruct (lookup_keyf_valf (store self) n) as (nd & Hnd & _ & Hv).
  { by apply (Inv_live_lt _ _ HI). }
  rewrite Hnd. simpl. intros [= <-]. by exists n.
Qed.

(** Claim C4, amended.  When [k] is present with value [v1], [put(k, v2)]
    moves the node of [k] to the most recently used position, returns [v1]
    and keeps [v1] as the stored value: the [get(k)] that follows returns
    [v1], not [v2]. *)
Theorem put_present_keeps_value self k v1 v2 :
  reachable self -> lookup_val self k = Some v1 ->
  exists self1 self2 e,
    put k v2 self = (Ok v1, self1)
    /\ last (entries self1) = Some e /\ py_eq e.1 k = true /\ e.2 = v1
    /\ forall default, get k default self1 = (Ok v1, self2).
Proof.
  intros [ls HI]%reachable_Inv Hl.
  destruct (lookup_val_Some _ _ _ _ HI Hl) as (n & Hg & Hv).
  destruct (access_hit _ _ _ _ HI Hg)
    as (st' & la & lb & Hls & _ & Hput & HI' & Hkf & Hvf & Hk).
  assert (dict_get (_data (set_store st' self)) k = Some n) as Hg' by done.
  destruct (access_hit _ _ _ _ HI' Hg')
    as (st'' & la' & lb' & _ & Hget & _ & _ & _ & _ & _).
  exists (set_store st' self), (set_store st'' (set_store st' self)),
    (kvf (store self) n).
  split_and!.
  - by rewrite Hput, Hv.
  - rewrite (Inv_entries _ _ HI'). simpl.
    rewrite (kvf_ext (store self) st') by done.
    by rewrite fmap_last, !app_assoc, last_snoc.
  - done.
  - done.
  - intros default. rewrite Hget. simpl. by rewrite Hvf, Hv.
Qed.

(** ** [_remove] twice *)

Lemma st_set_next_id st l q :
  nextf st l = Some q -> st_set_next l (Some q) st = st.
Proof.
  intros (nd & Hnd & Hq)%nextf_Some. unfold st_set_next. rewrite Hnd.
  apply list_insert_id. rewrite Hnd. f_equal. destruct nd; simpl in *. by subst.
Qed.
Lemma st_set_prev_id st l p :
  prevf st l = Some p -> st_set_prev l (Some p) st = st.
Proof.
  intros (nd & Hnd & Hp)%prevf_Some. unfold st_set_prev. rewrite Hnd.
  apply list_insert_id. rewrite Hnd. f_equal. destruct nd; simpl in *. by subst.
Qed.

Lemma unlink_unlink p q st :
  (p < length st)%nat -> (q < length st)%nat ->
  unlink p q (unlink p q st) = unlink p q st.
Proof.
  intros Hp Hq. unfold unlink at 1.
  rewrite (st_set_next_id (unlink p q st)).
  - apply st_set_prev_id. rewrite prevf_unlink by done. by rewrite decide_True.
  - rewrite nextf_unlink by done. by rewrite decide_True.
Qed.

Lemma chain_of_linked self ls :
  NoDup (_tail self :: ls ++ [_head self]) ->
  linked (store self) (_tail self :: ls ++ [_head self]) ->
  chain self = ls.
Proof.
  intros Hnd Hl. unfold chain. apply walk_next_linked; [ done | done | ].
  assert (length (_tail self :: ls ++ [_head self]) <= length (store self))%nat
    as Hle.
  { apply NoDup_lt_length; [ done | ]. intros x Hx.
    eapply linked_lt; [ done | | done ]. simpl. rewrite length_app. simpl. lia. }
  simpl in Hle. rewrite length_app in Hle. simpl in Hle. lia.
Qed.

(** Claim C8, amended.  On a cache reached by [get]s and [put]s, [_remove]
    of a live node unlinks it, and [_remove] of the same node straight
    after that changes nothing: the cache it returns is the one it was
    given, chain between the sentinels included. *)
Theorem remove_twice self n :
  reachable self -> n ∈ chain self ->
  exists self1,
    _remove n self = (Ok tt, self1)
    /\ (n ∉ chain self1)
    /\ _remove n self1 = (Ok tt, self1).
Proof.
  intros [ls HI]%reachable_Inv. rewrite (Inv_chain _ _ HI).
  intros (la & lb & ->)%list_elem_of_split.
  set (t := _tail self). set (h := _head self). set (st := store self).
  pose proof (inv_nodup _ _ HI) as Hnd. pose proof (inv_linked _ _ HI) as Hl.
  fold t h st in Hnd, Hl.
  destruct (snoc_decomp t la) as (l1 & p & Hl1).
  assert (exists q l2, lb ++ [h] = q :: l2) as (q & l2 & Hl2).
  { destruct lb; simpl; eauto. }
  assert (t :: (la ++ n :: lb) ++ [h] = l1 ++ p :: n :: q :: l2) as Hpath.
  { rewrite <- app_assoc. simpl. rewrite Hl2.
    change (t :: la ++ n :: q :: l2) with ((t :: la) ++ n :: q :: l2).
    rewrite Hl1. by rewrite <- app_assoc. }
  assert (l1 ++ p :: q :: l2 = t :: (la ++ lb) ++ [h]) as Hpath1.
  { change (l1 ++ p :: q :: l2) with (l1 ++ [p] ++ q :: l2).
    rewrite app_assoc, <- Hl1, <- Hl2. simpl. by rewrite app_assoc. }
  rewrite Hpath in Hnd, Hl.
  destruct (linked_mid _ _ _ _ _ _ Hl) as [Hp Hq].
  assert (forall x, x ∈ l1 ++ p :: n :: q :: l2 -> (x < length st)%nat) as Hlt.
  { intros x Hx. eapply linked_lt; [ done | | done ].
    rewrite length_app. simpl. lia. }
  assert (p < length st)%nat as Hlp by (apply Hlt; set_solver).
  assert (q < length st)%nat as Hlq by (apply Hlt; set_solver).
  pose proof (linked_unlink _ _ _ _ _ _ Hnd Hl) as Hl'.
  assert (NoDup (l1 ++ p :: q :: l2) /\ n ∉ l1 ++ p :: q :: l2) as [Hnd' Hn'].
  { apply NoDup_app in Hnd as (H1 & H2 & H3).
    apply NoDup_cons in H3 as [Hp3 H3]. apply NoDup_cons in H3 as [Hn3 H3].
    split.
    - apply NoDup_app. split_and!; [ done | | ].
      + intros x Hx. specialize (H2 x Hx). set_solver.
      + apply NoDup_cons. split; [ set_solver | done ].
    - intros [Hx | Hx]%elem_of_app.
      + specialize (H2 n Hx). set_solver.
      + set_solver. }
  assert (n ≠ p /\ n ≠ q) as [Hnp Hnq] by set_solver.
  exists (set_store (unlink p q st) self). split_and!.
  - by apply _remove_linked.
  - rewrite (chain_of_linked _ (la ++ lb)); simpl; fold t h;
      rewrite <- ?Hpath1; try done.
    rewrite Hpath1 in Hn'. set_solver.
  - rewrite (_remove_linked _ p q); simpl; fold st.
    + by rewrite unlink_unlink.
    + rewrite prevf_unlink by done. by rewrite decide_False.
    + rewrite nextf_unlink by done. by rewrite decide_False.
    + by rewrite length_unlink.
    + by rewrite length_unlink.
Qed.

(** ** Lookups in the list model *)

Lemma assoc_Some_elem es k e :
  assoc es k = Some e -> e ∈ es /\ py_eq e.1 k = true.
Proof.
  intros (ea & eb & -> & Hk & _)%assoc_Some_split. split; [ set_solver | done ].
Qed.

Lemma assoc_elem es k e :
  keys_distinct es.*1 -> e ∈ es -> py_eq e.1 k = true -> assoc es k = Some e.
Proof.
  intros Hd (ea & eb & ->)%list_elem_of_split Hk.
  by destruct (assoc_mid ea e eb k).
Qed.

Lemma assoc_perm es es' k :
  es ≡ₚ es' -> keys_distinct es.*1 -> assoc es k = assoc es' k.
Proof.
  intros Hp Hd.
  destruct (assoc es k) as [ e | ] eqn:Ha.
  - apply assoc_Some_elem in Ha as [Hin Hk]. symmetry.
    apply assoc_elem; [ | by rewrite <- Hp | done ].
    eapply keys_distinct_perm; [ | done ]. by rewrite Hp.
  - symmetry. apply assoc_None. rewrite <- Hp. by apply assoc_None.
Qed.

Lemma assoc_py_eq es k k' : py_eq k k' = true -> assoc es k = assoc es k'.
Proof.
  intros Hk. induction es as [ | e es IH ]; simpl; [ done | ].
  rewrite IH. destruct (py_eq e.1 k) eqn:Hek.
  - by rewrite (py_eq_trans _ _ _ Hek Hk).
  - destruct (py_eq e.1 k') eqn:Hek'; [ | done ].
    rewrite py_eq_sym in Hk. by rewrite (py_eq_trans _ _ _ Hek' Hk) in Hek.
Qed.

Lemma assoc_snoc es k v k' :
  assoc (es ++ [(k, v)]) k' =
  match assoc es k' with
  | Some e => Some e
  | None => if py_eq k k' then Some (k, v) else None
  end.
Proof.
  induction es as [ | e es IH ]; simpl; [ done | ].
  by destruct (py_eq e.1 k').
Qed.

Lemma assoc_tail es k e :
  keys_distinct es.*1 -> assoc (tail es) k = Some e -> assoc es k = Some e.
Proof.
  destruct es as [ | e0 es ]; [ done | ]. simpl. intros [Hall _] Ha.
  apply assoc_Some_elem in Ha as Hin. destruct Hin as [Hin Hk].
  rewrite Forall_forall in Hall.
  assert (py_eq e0.1 e.1 = false) as Hne.
  { apply Hall. apply list_elem_of_fmap. by exists e. }
  destruct (py_eq e0.1 k) eqn:H0; [ | done ].
  rewrite py_eq_sym in Hk. by rewrite (py_eq_trans _ _ _ H0 Hk) in Hne.
Qed.

Lemma assoc_tail_last es k v k' :
  keys_distinct (es ++ [(k, v)]).*1 -> (1 <= length es)%nat ->
  py_eq k k' = true ->
  assoc (tail (es ++ [(k, v)])) k' = Some (k, v).
Proof.
  intros Hd Hlen Hk. destruct es as [ | e0 es ]; simpl in *; [ lia | ].
  destruct Hd as [_ Hd]. apply assoc_elem; [ done | set_solver | done ].
Qed.

(** ** [get] and [put] as lookups *)

Lemma Inv_assoc_hit self ls k n :
  Inv self ls -> dict_get (_data self) k = Some n ->
  assoc (entries self) k = Some (kvf (store self) n).
Proof.
  intros HI Hg. destruct (Inv_dict_get_Some _ _ HI _ _ Hg) as [Hn Hk].
  apply assoc_elem; [ | | done ].
  - rewrite (Inv_entries_keys _ _ HI). apply HI.
  - rewrite (Inv_entries _ _ HI). apply list_elem_of_fmap. by exists n.
Qed.

Lemma Inv_lookup_val self ls k :
  Inv self ls -> lookup_val self k = snd <$> assoc (entries self) k.
Proof.
  intros HI. unfold lookup_val.
  destruct (dict_get (_data self) k) as [ n | ] eqn:Hg; simpl.
  - rewrite (Inv_assoc_hit _ _ _ _ HI Hg). simpl.
    destruct (Inv_dict_get_Some _ _ HI _ _ Hg) as [Hn _].
    destruct (lookup_keyf_valf (store self) n) as (nd & -> & _ & Hv).
    { by apply (Inv_live_lt _ _ HI). }
    simpl. by rewrite Hv.
  - apply (Inv_dict_get_None _ _ HI) in Hg. by rewrite Hg.
Qed.

Lemma Inv_entries_distinct self ls : Inv self ls -> keys_distinct (entries self).*1.
Proof. intros HI. rewrite (Inv_entries_keys _ _ HI). apply HI. Qed.

Lemma hit_lookup_same self la n lb st' :
  Inv self (la ++ n :: lb) -> Inv (set_store st' self) (la ++ lb ++ [n]) ->
  (forall x, keyf st' x = keyf (store self) x) ->
  (forall x, valf st' x = valf (store self) x) ->
  forall k', lookup_val (set_store st' self) k' = lookup_val self k'.
Proof.
  intros HI HI' Hkf Hvf k'.
  rewrite (Inv_lookup_val _ _ _ HI'), (Inv_lookup_val _ _ _ HI).
  f_equal. apply assoc_perm; [ | by eapply Inv_entries_distinct ].
  rewrite (Inv_entries _ _ HI'), (Inv_entries _ _ HI). simpl.
  rewrite (kvf_ext (store self) st') by done.
  apply fmap_Permutation, Permutation_app_head.
  symmetry. apply Permutation_cons_append.
Qed.

Lemma get_spec self ls k default :
  Inv self ls ->
  exists self' ls',
    get k default self
    = (Ok (from_option id default (lookup_val self k)), self')
    /\ Inv self' ls'
    /\ capacity self' = capacity self
    /\ _data self' = _data self
    /\ forall k', lookup_val self' k' = lookup_val self k'.
Proof.
  intros HI.
  destruct (dict_get (_data self) k) as [ n | ] eqn:Hg.
  - destruct (access_hit _ _ _ _ HI Hg)
      as (st' & la & lb & Hls & Hget & _ & HI' & Hkf & Hvf & Hk).
    exists (set_store st' self), (la ++ lb ++ [n]).
    rewrite Hget, (Inv_lookup_val _ _ _ HI), (Inv_assoc_hit _ _ _ _ HI Hg).
    split_and!; try done.
    subst ls. by eapply hit_lookup_same.
  - exists self, ls. rewrite (get_miss _ _ _ Hg).
    unfold lookup_val. rewrite Hg. done.
Qed.

Lemma put_spec self ls k v :
  Inv self ls ->
  exists self' ls' r,
    put k v self = (Ok r, self')
    /\ Inv self' ls'
    /\ capacity self' = capacity self
    /\ (forall k' x,
          lookup_val self' k' = Some x ->
          lookup_val self k' = Some x
          \/ (py_eq k k' = true /\ x = v /\ lookup_val self k = None))
    /\ (is_Some (lookup_val self k) ->
          _data self' = _data self
          /\ forall k', lookup_val self' k' = lookup_val self k')
    /\ (lookup_val self k = None -> 1 <= capacity self ->
          forall k', py_eq k k' = true -> lookup_val self' k' = Some v).
Proof.
  intros HI.
  destruct (dict_get (_data self) k) as [ n | ] eqn:Hg.
  - destruct (access_hit _ _ _ _ HI Hg)
      as (st' & la & lb & Hls & _ & Hput & HI' & Hkf & Hvf & Hk).
    subst ls.
    pose proof (hit_lookup_same _ _ _ _ _ HI HI' Hkf Hvf) as Hsame.
    exists (set_store st' self), (la ++ lb ++ [n]), (valf (store self) n).
    split_and!; try done.
    + intros k' x. rewrite Hsame. auto.
    + rewrite (Inv_lookup_val _ _ _ HI), (Inv_assoc_hit _ _ _ _ HI Hg). done.
  - destruct (step_refines (Put k v) _ _ HI)
      as (self' & ls' & Hstep & HI' & Hes & Hc).
    simpl in Hstep, Hes.
    pose proof (Inv_entries_distinct _ _ HI) as Hd.
    pose proof Hg as Ha. apply (Inv_dict_get_None _ _ HI) in Ha.
    rewrite Ha in Hstep, Hes. simpl in Hstep, Hes.
    assert (lookup_val self k = None) as Hlk.
    { unfold lookup_val. by rewrite Hg. }
    assert (keys_distinct (entries self ++ [(k, v)]).*1) as Hd1.
    { rewrite fmap_app. apply keys_distinct_snoc. split; [ done | ].
      by apply assoc_None. }
    exists self', ls', PyNone. split_and!; try done.
    + intros k' x.
      rewrite (Inv_lookup_val _ _ _ HI'), (Inv_lookup_val _ _ _ HI), Hes.
      intros Hx.
      assert (snd <$> assoc (entries self ++ [(k, v)]) k' = Some x) as Hx1.
      { destruct (_ >? _); [ | done ].
        destruct (assoc (tail _) k') as [ e | ] eqn:Ht; [ | done ].
        by rewrite (assoc_tail _ _ _ Hd1 Ht). }
      rewrite assoc_snoc in Hx1.
      destruct (assoc (entries self) k') as [ e | ]; [ by left | ].
      destruct (py_eq k k'); [ | done ]. right. by injection Hx1 as <-.
    + rewrite Hlk. by intros [? ?].
    + intros _ Hcap k' Hk.
      rewrite (Inv_lookup_val _ _ _ HI'), Hes.
      destruct (_ >? _) eqn:Hgt.
      * rewrite assoc_tail_last; [ done | done | | done ].
        apply Z.gtb_lt in Hgt. rewrite length_app in Hgt. simpl in Hgt. lia.
      * rewrite assoc_snoc, <- (assoc_py_eq _ k k' Hk), Ha, Hk. done.
Qed.

(** ** The wrapper *)

Section wrapper_facts.
Context {W : Type}.
Variable func : list pyval -> list (string * pyval) -> M W pyval.

Lemma wrapper_hit args kwargs (s : @closure W) v :
  WInv s ->
  lookup_val (cache s) (_normalize_key args kwargs (typed s)) = Some v ->
  is_None v = false ->
  exists s',
    wrapper func args kwargs s = (Ok v, s')
    /\ WInv s'
    /\ hits s' = hits s + 1 /\ misses s' = misses s /\ calls s' = calls s
    /\ world s' = world s /\ max_size s' = max_size s /\ typed s' = typed s
    /\ _data (cache s') = _data (cache s)
    /\ __len__ (cache s') = __len__ (cache s)
    /\ forall k', lookup_val (cache s') k' = lookup_val (cache s) k'.
Proof.
  intros ([ls HI] & Hcap & Hpos) Hl Hv.
  destruct (get_spec _ _ (_normalize_key args kwargs (typed s)) PyNone HI)
    as (c' & ls' & Hget & HI' & Hc & Hd & Hsame).
  rewrite Hl in Hget. simpl in Hget.
  exists (mkClosure c' (hits s + 1) (misses s) (max_size s) (typed s)
            (world s) (calls s)).
  unfold wrapper, bind at 1, attr. cbn beta iota.
  unfold bind at 1, on_cache. rewrite Hget. cbn beta iota. rewrite Hv.
  cbn [negb]. unfold bind, incr_hits, ret. cbn.
  split_and!; try done.
  - split_and!; [ by exists ls' | cbn; congruence | done ].
  - unfold __len__. by rewrite Hd.
Qed.

Lemma wrapper_miss args kwargs (s : @closure W) :
  WInv s ->
  is_miss s (_normalize_key args kwargs (typed s)) = true ->
  exists c1 ls1,
    Inv c1 ls1 /\ capacity c1 = capacity (cache s)
    /\ _data c1 = _data (cache s)
    /\ (forall k', lookup_val c1 k' = lookup_val (cache s) k')
    /\ wrapper func args kwargs s =
       match func args kwargs (world s) with
       | (Err e, w') =>
           (Err e,
            mkClosure c1 (hits s) (misses s + 1) (max_size s) (typed s) w'
              (S (calls s)))
       | (Ok value, w') =>
           let '(r, c2) :=
             put (_normalize_key args kwargs (typed s)) value c1 in
           (match r with Ok _ => Ok value | Err e => Err e end,
            mkClosure c2 (hits s) (misses s + 1) (max_size s) (typed s) w'
              (S (calls s)))
       end.
Proof.
  intros ([ls HI] & Hcap & Hpos) Hm. unfold is_miss in Hm.
  destruct (get_spec _ _ (_normalize_key args kwargs (typed s)) PyNone HI)
    as (c' & ls' & Hget & HI' & Hc & Hd & Hsame).
  exists c', ls'. split_and!; try done.
  unfold wrapper, bind at 1, attr. cbn beta iota.
  unfold bind at 1, on_cache. rewrite Hget. cbn beta iota.
  assert (is_None (from_option id PyNone
            (lookup_val (cache s) (_normalize_key args kwargs (typed s))))
          = true) as ->.
  { by destruct (lookup_val _ _). }
  cbn [negb]. unfold bind at 1, incr_misses. cbn beta iota.
  unfold bind at 1, call_func. cbn -[put].
  destruct (func args kwargs (world s)) as [[value | e] w']; [ | done ].
  unfold bind, on_cache, ret. cbn -[put].
  by destruct (put (_normalize_key args kwargs (typed s)) value c')
    as [[r | e] c2].
Qed.

Lemma wrapper_miss_raise args kwargs (s : @closure W) e w' :
  WInv s ->
  is_miss s (_normalize_key args kwargs (typed s)) = true ->
  func args kwargs (world s) = (Err e, w') ->
  exists s',
    wrapper func args kwargs s = (Err e, s')
    /\ WInv s'
    /\ hits s' = hits s /\ misses s' = misses s + 1
    /\ calls s' = S (calls s)
    /\ world s' = w' /\ max_size s' = max_size s /\ typed s' = typed s
    /\ _data (cache s') = _data (cache s)
    /\ forall k', lookup_val (cache s') k' = lookup_val (cache s) k'.
Proof.
  intros HW Hm Hf.
  destruct (wrapper_miss args kwargs s HW Hm)
    as (c1 & ls1 & HI1 & Hc1 & Hd1 & Hsame & ->).
  rewrite Hf. eexists. split; [ done | ]. cbn.
  destruct HW as (_ & Hcap & Hpos).
  split_and!; try done. split_and!; [ by exists ls1 | cbn; congruence | done ].
Qed.

Lemma wrapper_miss_ok args kwargs (s : @closure W) value w' :
  WInv s ->
  is_miss s (_normalize_key args kwargs (typed s)) = true ->
  func args kwargs (world s) = (Ok value, w') ->
  exists s',
    wrapper func args kwargs s = (Ok value, s')
    /\ WInv s'
    /\ hits s' = hits s /\ misses s' = misses s + 1
    /\ calls s' = S (calls s)
    /\ world s' = w' /\ max_size s' = max_size s /\ typed s' = typed s
    /\ (forall k' x,
          lookup_val (cache s') k' = Some x ->
          lookup_val (cache s) k' = Some x
          \/ (py_eq (_normalize_key args kwargs (typed s)) k' = true
              /\ x = value))
    /\ (lookup_val (cache s) (_normalize_key args kwargs (typed s)) = None ->
          forall k',
            py_eq (_normalize_key args kwargs (typed s)) k' = true ->
            lookup_val (cache s') k' = Some value)
    /\ (is_Some (lookup_val (cache s)
                   (_normalize_key args kwargs (typed s))) ->
          forall k', lookup_val (cache s') k' = lookup_val (cache s) k').
Proof.
  intros HW Hm Hf.
  destruct (wrapper_miss args kwargs s HW Hm)
    as (c1 & ls1 & HI1 & Hc1 & Hd1 & Hsame & ->).
  rewrite Hf.
  destruct (put_spec _ _ (_normalize_key args kwargs (typed s)) value HI1)
    as (c2 & ls2 & r & -> & HI2 & Hc2 & Hany & Hpres & Habs).
  destruct HW as (_ & Hcap & Hpos).
  eexists. split; [ done | ]. cbn.
  split_and!; try done.
  - split_and!; [ by exists ls2 | cbn; congruence | done ].
  - intros k' x Hx. destruct (Hany k' x Hx) as [ ? | (? & ? & ?) ].
    + left. by rewrite <- Hsame.
    + by right.
  - intros Hn k' Hk. apply Habs; [ by rewrite Hsame | lia | done ].
  - intros Hs k'. rewrite <- Hsame in Hs.
    destruct (Hpres Hs) as [_ ->]. apply Hsame.
Qed.

Lemma is_miss_false (s : @closure W) k :
  is_miss s k = false ->
  exists v, lookup_val (cache s) k = Some v /\ is_None v = false.
Proof.
  unfold is_miss. destruct (lookup_val (cache s) k) as [ v | ]; [ | done ].
  intros ?. by exists v.
Qed.

Lemma decorator_WInv max_size typed dec (w : W) s :
  lru_cache_impl max_size typed = Ok dec -> dec w = Ok s ->
  WInv s /\ s = mkClosure
                 (mkLRUCache [] 0%nat 1%nat max_size
                    [mk_Node _SENTINEL _SENTINEL (Some 1%nat) None;
                     mk_Node _SENTINEL _SENTINEL None (Some 0%nat)])
                 0 0 max_size typed w 0.
Proof.
  unfold lru_cache_impl. destruct (max_size <=? 0) eqn:Hle; [ done | ].
  intros [= <-]. unfold decorator. rewrite new_LRUCache_eq. intros [= <-].
  split; [ | done ]. split_and!; cbn.
  - exists []. by apply (new_Inv max_size).
  - done.
  - apply Z.leb_gt in Hle. lia.
Qed.

Lemma wrapper_WInv args kwargs (s : @closure W) r s' :
  WInv s -> wrapper func args kwargs s = (r, s') ->
  WInv s' /\ max_size s' = max_size s /\ typed s' = typed s.
Proof.
  intros HW Hw.
  destruct (is_miss s (_normalize_key args kwargs (typed s))) eqn:Hm.
  - destruct (func args kwargs (world s)) as [[value | e] w'] eqn:Hf.
    + destruct (wrapper_miss_ok _ _ _ _ _ HW Hm Hf)
        as (s1 & Hw1 & HW1 & _ & _ & _ & _ & ? & ? & _).
      rewrite Hw in Hw1. by injection Hw1 as _ ->.
    + destruct (wrapper_miss_raise _ _ _ _ _ HW Hm Hf)
        as (s1 & Hw1 & HW1 & _ & _ & _ & _ & ? & ? & _).
      rewrite Hw in Hw1. by injection Hw1 as _ ->.
  - apply is_miss_false in Hm as (v & Hl & Hv).
    destruct (wrapper_hit _ _ _ _ HW Hl Hv)
      as (s1 & Hw1 & HW1 & _ & _ & _ & _ & ? & ? & _).
    rewrite Hw in Hw1. by injection Hw1 as _ ->.
Qed.

Lemma wreachable_WInv s : wreachable func s -> WInv s.
Proof.
  induction 1 as [ ms ty dec w s Hd Hs | args kwargs s r s' _ IH Hw | w s _ IH ].
  - by destruct (decorator_WInv _ _ _ _ _ Hd Hs).
  - by destruct (wrapper_WInv _ _ _ _ _ IH Hw).
  - done.
Qed.
End wrapper_facts.

Section wrapper_claims.
Context {W : Type}.
Variable func : list pyval -> list (string * pyval) -> M W pyval.

Lemma repeated_hits args kwargs v m : forall (s : @closure W),
  WInv s ->
  lookup_val (cache s) (_normalize_key args kwargs (typed s)) = Some v ->
  is_None v = false ->
  exists s',
    calls_of func (replicate m (args, kwargs)) s = (Ok (replicate m v), s')
    /\ hits s' = hits s + Z.of_nat m /\ misses s' = misses s
    /\ calls s' = calls s /\ max_size s' = max_size s
    /\ __len__ (cache s') = __len__ (cache s).
Proof.
  induction m as [ | m IH ]; intros s HW Hl Hv.
  - exists s. cbn. split_and!; try done. lia.
  - destruct (wrapper_hit func _ _ _ _ HW Hl Hv)
      as (s1 & Hw & HW1 & Hh & Hm & Hc & _ & Hms & Hty & _ & Hlen & Hsame).
    destruct (IH s1 HW1) as (s' & Hcs & Hh' & Hm' & Hc' & Hms' & Hlen');
      [ by rewrite Hty, Hsame | done | ].
    exists s'. cbn [replicate calls_of]. unfold bind at 1. rewrite Hw.
    unfold bind. rewrite Hcs. unfold ret.
    split_and!; try done; try congruence. lia.
Qed.

(** Claim C3, amended.  Take a wrapper whose cache has no entry for the key
    of the arguments and whose function, called on them, returns a value
    other than [None].  Then [n >= 1] calls in a row with those arguments
    all return that value, add one miss and [n - 1] hits to the counters
    that [cache_info] reports, and enter the function once. *)
Theorem repeated_calls_one_miss args kwargs (s : @closure W) v w' n :
  wreachable func s ->
  lookup_val (cache s) (_normalize_key args kwargs (typed s)) = None ->
  func args kwargs (world s) = (Ok v, w') ->
  is_None v = false ->
  (1 <= n)%nat ->
  exists s',
    calls_of func (replicate n (args, kwargs)) s = (Ok (replicate n v), s')
    /\ CacheInfo.misses (cache_info s') = CacheInfo.misses (cache_info s) + 1
    /\ CacheInfo.hits (cache_info s')
       = CacheInfo.hits (cache_info s) + (Z.of_nat n - 1)
    /\ calls s' = S (calls s).
Proof.
  intros HW%wreachable_WInv Hl Hf Hv Hn.
  destruct n as [ | m ]; [ lia | ].
  destruct (wrapper_miss_ok func args kwargs s v w' HW)
    as (s1 & Hw & HW1 & Hh & Hm & Hc & _ & _ & Hty & _ & Hnew & _);
    [ unfold is_miss; by rewrite Hl | done | ].
  destruct (repeated_hits args kwargs v m s1 HW1)
    as (s' & Hcs & Hh' & Hm' & Hc' & _); [ | done | ].
  { rewrite Hty. apply Hnew; [ done | apply py_eq_refl ]. }
  exists s'. cbn [replicate calls_of]. unfold bind at 1. rewrite Hw.
  unfold bind. rewrite Hcs. unfold ret. cbn.
  split_and!; try done; try congruence; lia.
Qed.

Lemma get_None_is_miss (s : @closure W) k :
  WInv s -> (get k PyNone (cache s)).1 = Ok PyNone -> is_miss s k = true.
Proof.
  intros ([ls HI] & _) Hg.
  destruct (get_spec _ _ k PyNone HI) as (c' & ls' & Hget & _).
  rewrite Hget in Hg. unfold is_miss.
  destruct (lookup_val (cache s) k) as [ v | ]; [ | done ].
  simpl in Hg. by injection Hg as ->.
Qed.

(** Claim C7.  When the lookup of a call misses and the wrapped function
    raises [e], the call raises [e] and stores nothing: the index and what
    the cache holds for every key are as before the call.  The next call
    with the same arguments, whatever the rest of the program has done to
    its state meanwhile, enters the function again. *)
Theorem failure_is_not_cached args kwargs (s : @closure W) e w' :
  wreachable func s ->
  (get (_normalize_key args kwargs (typed s)) PyNone (cache s)).1
  = Ok PyNone ->
  func args kwargs (world s) = (Err e, w') ->
  exists s',
    wrapper func args kwargs s = (Err e, s')
    /\ _data (cache s') = _data (cache s)
    /\ (forall k, lookup_val (cache s') k = lookup_val (cache s) k)
    /\ calls s' = S (calls s)
    /\ (forall r s'',
          wrapper func args kwargs s' = (r, s'') -> calls s'' = S (calls s'))
    /\ (forall w r s'',
          wrapper func args kwargs (set_world w s') = (r, s'') ->
          calls s'' = S (calls s')).
Proof.
  intros HW%wreachable_WInv Hm%get_None_is_miss Hf; [ | done ].
  destruct (wrapper_miss_raise func _ _ _ _ _ HW Hm Hf)
    as (s' & Hw & HW' & _ & _ & Hc & _ & _ & Hty & Hd & Hsame).
  exists s'.
  assert (forall t r s'',
    WInv t -> typed t = typed s' -> calls t = calls s' ->
    (forall k, lookup_val (cache t) k = lookup_val (cache s') k) ->
    wrapper func args kwargs t = (r, s'') -> calls s'' = S (calls s'))
    as Hagain.
  { intros t r s'' HWt Htt Hct Hlt Hw'.
    assert (is_miss t (_normalize_key args kwargs (typed t)) = true) as Hm'.
    { unfold is_miss in *. by rewrite Htt, Hlt, Hty, Hsame. }
    destruct (wrapper_miss func args kwargs _ HWt Hm')
      as (c1 & ls1 & _ & _ & _ & _ & Heq).
    rewrite Heq in Hw'. rewrite <- Hct.
    destruct (func args kwargs (world t)) as [[value | e'] w''].
    - destruct (put _ value c1) as [r' c2]. by injection Hw' as _ <-.
    - by injection Hw' as _ <-. }
  split_and!; try done.
  - intros r s''. by apply Hagain.
  - intros w r s''. by apply Hagain.
Qed.

Lemma none_stays_miss typed0 key :
  (forall a kw w,
     py_eq (_normalize_key a kw typed0) key = true ->
     exists w', func a kw w = (Ok PyNone, w')) ->
  forall s : @closure W,
    wreachable func s -> typed s = typed0 -> is_miss s key = true.
Proof.
  intros Hnone s Hr.
  induction Hr as [ ms ty dec w s Hd Hs | a kw s r s' Hr IH Hw | w s _ IH ].
  - destruct (decorator_WInv _ _ _ _ _ Hd Hs) as [_ ->]. done.
  - intros Hty'. pose proof (wreachable_WInv func _ Hr) as HW.
    destruct (wrapper_WInv func _ _ _ _ _ HW Hw) as (_ & _ & Hty).
    rewrite Hty' in Hty. symmetry in Hty. specialize (IH Hty).
    destruct (is_miss s (_normalize_key a kw (typed s))) eqn:Hm.
    + destruct (func a kw (world s)) as [[value | e] w'] eqn:Hf.
      * destruct (wrapper_miss_ok func _ _ _ _ _ HW Hm Hf)
          as (s1 & Hw1 & _ & _ & _ & _ & _ & _ & _ & Hany & _).
        rewrite Hw in Hw1. injection Hw1 as _ <-.
        unfold is_miss in *.
        destruct (lookup_val (cache s') key) as [ x | ] eqn:Hx; [ | done ].
        destruct (Hany _ _ Hx) as [ Hold | [Hk ->] ].
        -- by rewrite Hold in IH.
        -- rewrite Hty in Hk. destruct (Hnone a kw (world s) Hk) as [w'' Hf'].
           rewrite Hf in Hf'. by injection Hf' as ->.
      * destruct (wrapper_miss_raise func _ _ _ _ _ HW Hm Hf)
          as (s1 & Hw1 & _ & _ & _ & _ & _ & _ & _ & _ & Hsame).
        rewrite Hw in Hw1. injection Hw1 as _ <-.
        unfold is_miss in *. by rewrite Hsame.
    + apply is_miss_false in Hm as (v & Hl & Hv).
      destruct (wrapper_hit func _ _ _ _ HW Hl Hv)
        as (s1 & Hw1 & _ & _ & _ & _ & _ & _ & _ & _ & _ & Hsame).
      rewrite Hw in Hw1. injection Hw1 as _ <-.
      unfold is_miss in *. by rewrite Hsame.
  - done.
Qed.

(** Claim C6, amended.  Let the wrapped function return [None] on the
    arguments of a call and on every arguments that have the same canonical
    key.  Then in every state of the wrapper a call with those arguments
    is a miss: it adds one to the misses and nothing to the hits, enters
    the function, returns [None] and leaves [None] stored under the
    key. *)
Theorem none_result_is_never_a_hit typed0 args kwargs (s : @closure W) :
  (forall a kw w,
     py_eq (_normalize_key a kw typed0) (_normalize_key args kwargs typed0)
     = true ->
     exists w', func a kw w = (Ok PyNone, w')) ->
  wreachable func s -> typed s = typed0 ->
  exists s',
    wrapper func args kwargs s = (Ok PyNone, s')
    /\ misses s' = misses s + 1 /\ hits s' = hits s
    /\ calls s' = S (calls s)
    /\ lookup_val (cache s') (_normalize_key args kwargs typed0)
       = Some PyNone.
Proof.
  intros Hnone Hr Hty.
  pose proof (none_stays_miss _ _ Hnone s Hr Hty) as Hm.
  pose proof (wreachable_WInv func _ Hr) as HW.
  destruct (Hnone args kwargs (world s) (py_eq_refl _)) as [w' Hf].
  rewrite <- Hty in Hm.
  destruct (wrapper_miss_ok func _ _ _ _ _ HW Hm Hf)
    as (s' & Hw & _ & Hh & Hms & Hc & _ & _ & _ & _ & Hnew & Hold).
  exists s'. split_and!; try done.
  rewrite <- Hty.
  destruct (lookup_val (cache s) (_normalize_key args kwargs (typed s)))
    as [ x | ] eqn:Hx.
  - rewrite Hold by done. rewrite Hx. unfold is_miss in Hm. rewrite Hx in Hm.
    by destruct x.
  - apply Hnew; [ done | apply py_eq_refl ].
Qed.
End wrapper_claims.

(** ** The key of a call *)

Lemma insert_item_perm x l : insert_item x l ≡ₚ x :: l.
Proof.
  induction l as [ | y l IH ]; simpl; [ done | ].
  destruct (String.leb x.1 y.1); [ done | ].
  rewrite IH. apply perm_swap.
Qed.

Lemma sorted_perm l : sorted l ≡ₚ l.
Proof.
  induction l as [ | x l IH ]; simpl; [ done | ].
  by rewrite insert_item_perm, IH.
Qed.

Lemma insert_item_sorted x l :
  StronglySorted name_le l -> StronglySorted name_le (insert_item x l).
Proof.
  induction 1 as [ | y l Hs IH Hall ]; simpl.
  - repeat constructor.
  - destruct (String.leb x.1 y.1) eqn:Hxy.
    + constructor; [ by constructor | ].
      assert (name_le x y) as Hle by (unfold name_le, String.le; by rewrite Hxy).
      constructor; [ done | ].
      eapply Forall_impl; [ exact Hall | ].
      intros z Hz. unfold name_le in *. by etrans.
    + constructor; [ done | ].
      rewrite insert_item_perm. constructor; [ | done ].
      unfold name_le. destruct (total String.le y.1 x.1) as [ ? | Hle ]; [ done | ].
      unfold String.le in Hle. by rewrite Hxy in Hle.
Qed.

Lemma sorted_sorted l : StronglySorted name_le (sorted l).
Proof.
  induction l as [ | x l IH ]; simpl; [ constructor | ].
  by apply insert_item_sorted.
Qed.

Lemma NoDup_fst_inj {A B} (l : list (A * B)) x y :
  NoDup l.*1 -> x ∈ l -> y ∈ l -> x.1 = y.1 -> x = y.
Proof.
  induction l as [ | z l IH ]; simpl; intros Hnd Hx Hy Hxy.
  - by apply elem_of_nil in Hx.
  - apply NoDup_cons in Hnd as [Hz Hnd].
    apply elem_of_cons in Hx as [ -> | Hx ]; apply elem_of_cons in Hy as [ -> | Hy ].
    + done.
    + destruct Hz. rewrite Hxy. apply list_elem_of_fmap. by exists y.
    + destruct Hz. rewrite <- Hxy. apply list_elem_of_fmap. by exists x.
    + by apply IH.
Qed.

Lemma sorted_unique kw1 kw2 :
  NoDup kw1.*1 -> kw1 ≡ₚ kw2 -> sorted kw1 = sorted kw2.
Proof.
  intros Hnd Hp.
  apply (StronglySorted_unique_strong name_le);
    [ | apply sorted_sorted | apply sorted_sorted
    | by rewrite !sorted_perm ].
  intros x y Hx Hy Hxy Hyx.
  apply (NoDup_fst_inj kw1); [ done | by rewrite <- sorted_perm | | ].
  - rewrite Hp. by rewrite <- sorted_perm.
  - unfold name_le in *. by apply (anti_symm String.le).
Qed.

(** Claim C9.  [_normalize_key] is a function of its three arguments, and
    two collections of named arguments that hold the same pairs, in any
    two orders, give the same key, for every positional arguments and for
    either value of [typed].  The names of one call are distinct. *)
Theorem normalize_key_ignores_named_order args kw1 kw2 typed :
  NoDup kw1.*1 -> kw1 ≡ₚ kw2 ->
  _normalize_key args kw1 typed = _normalize_key args kw2 typed.
Proof.
  intros Hnd Hp.
  assert (forall kw, match kw with [] => [] | _ :: _ => sorted kw end = sorted kw)
    as Hs by (by intros []).
  unfold _normalize_key. by rewrite !Hs, (sorted_unique kw1 kw2).
Qed.

(** ** When two calls have the same key *)

Lemma all2_Forall2 {A} (f : A -> A -> bool) l1 l2 :
  all2 f l1 l2 = true <-> Forall2 (fun x y => f x y = true) l1 l2.
Proof.
  revert l2. induction l1 as [ | x l1 IH ]; intros [ | y l2 ]; simpl.
  - split; [ constructor | done ].
  - split; [ done | inversion 1 ].
  - split; [ done | inversion 1 ].
  - rewrite andb_true_iff, IH. split.
    + intros [? ?]. by constructor.
    + by inversion 1.
Qed.

Lemma Forall2_conj {A B} (P Q : A -> B -> Prop) l k :
  Forall2 (fun x y => P x y /\ Q x y) l k <-> Forall2 P l k /\ Forall2 Q l k.
Proof.
  split.
  - induction 1 as [ | x y l k [? ?] _ [? ?] ]; split; by constructor.
  - intros [HP HQ]. induction HP as [ | x y l k ? _ IH ]; [ constructor | ].
    inversion HQ; subst. constructor; auto.
Qed.

Lemma Forall2_ext_iff {A B} (P Q : A -> B -> Prop) l k :
  (forall x y, P x y <-> Q x y) -> Forall2 P l k <-> Forall2 Q l k.
Proof.
  intros HPQ.
  split; intros HF; (eapply Forall2_impl; [ exact HF | ]); intros x y; apply HPQ.
Qed.

Lemma sorted_names_sorted kw : StronglySorted String.le (sorted kw).*1.
Proof.
  pose proof (sorted_sorted kw) as Hs.
  induction Hs as [ | x l _ IH Hall ]; simpl; constructor; [ done | ].
  rewrite Forall_fmap. eapply Forall_impl; [ exact Hall | ]. done.
Qed.

Lemma named_agree_names R kw1 kw2 :
  NoDup kw1.*1 -> NoDup kw2.*1 -> named_agree R kw1 kw2 ->
  (sorted kw1).*1 = (sorted kw2).*1.
Proof.
  intros Hnd1 Hnd2 [H12 H21].
  apply (StronglySorted_unique String.le); try apply sorted_names_sorted.
  rewrite !sorted_perm. apply NoDup_Permutation; [ done | done | ].
  intros n. rewrite !list_elem_of_fmap. split.
  - intros ([n' v1] & -> & Hin). destruct (H12 _ _ Hin) as (v2 & ? & _).
    by exists (n', v2).
  - intros ([n' v2] & -> & Hin). destruct (H21 _ _ Hin) as (v1 & ? & _).
    by exists (n', v1).
Qed.

Lemma sorted_named_agree R kw1 kw2 :
  NoDup kw1.*1 -> NoDup kw2.*1 ->
  Forall2 (fun x y => x.1 = y.1 /\ R x.2 y.2) (sorted kw1) (sorted kw2)
  <-> named_agree R kw1 kw2.
Proof.
  intros Hnd1 Hnd2. split.
  - intros HF. split.
    + intros n v1 Hin. rewrite <- sorted_perm in Hin.
      apply list_elem_of_lookup in Hin as [i Hi].
      destruct (Forall2_lookup_l _ _ _ _ _ HF Hi) as ([n' v2] & Hj & Hn & HR).
      simpl in *. subst n'. exists v2. split; [ | done ].
      rewrite <- (sorted_perm kw2). by eapply list_elem_of_lookup_2.
    + intros n v2 Hin. rewrite <- sorted_perm in Hin.
      apply list_elem_of_lookup in Hin as [i Hi].
      destruct (Forall2_lookup_r _ _ _ _ _ HF Hi) as ([n' v1] & Hj & Hn & HR).
      simpl in *. subst n'. exists v1. split; [ | done ].
      rewrite <- (sorted_perm kw1). by eapply list_elem_of_lookup_2.
  - intros Hag. pose proof (named_agree_names R _ _ Hnd1 Hnd2 Hag) as Hnames.
    destruct Hag as [H12 _].
    apply Forall2_same_length_lookup_2.
    { apply (f_equal length) in Hnames. by rewrite !length_fmap in Hnames. }
    intros i [n v1] [n' v2] Hi Hj.
    assert (n = n') as <-.
    { apply (f_equal (fun l => l !! i)) in Hnames.
      rewrite !list_lookup_fmap, Hi, Hj in Hnames. by injection Hnames. }
    split; [ done | ]. simpl.
    destruct (H12 n v1) as (v2' & Hin2 & HR).
    { rewrite <- (sorted_perm kw1). by eapply list_elem_of_lookup_2. }
    assert ((n, v2') = (n, v2)) as [= ->]; [ | done ].
    apply (NoDup_fst_inj kw2); [ done | done | | done ].
    rewrite <- (sorted_perm kw2). by eapply list_elem_of_lookup_2.
Qed.

Lemma all2_fmap_Forall2 {A} (g : A -> pyval) l1 l2 :
  all2 py_eq (g <$> l1) (g <$> l2) = true
  <-> Forall2 (fun x y => py_eq (g x) (g y) = true) l1 l2.
Proof. by rewrite all2_Forall2, Forall2_fmap. Qed.

Lemma py_eq_item_tuple x y :
  py_eq (item_tuple x) (item_tuple y) = true
  <-> x.1 = y.1 /\ py_eq x.2 y.2 = true.
Proof.
  unfold item_tuple. cbn [py_eq all2].
  by rewrite andb_true_r, andb_true_iff, String.eqb_eq.
Qed.

Lemma items_sorted kw :
  match kw with [] => [] | _ :: _ => sorted kw end = sorted kw.
Proof. by destruct kw. Qed.

Lemma key_eq_spec typed args1 kwargs1 args2 kwargs2 :
  NoDup kwargs1.*1 -> NoDup kwargs2.*1 ->
  py_eq (_normalize_key args1 kwargs1 typed) (_normalize_key args2 kwargs2 typed)
  = true
  <-> Forall2 (arg_eq typed) args1 args2
      /\ named_agree (arg_eq typed) kwargs1 kwargs2.
Proof.
  intros Hnd1 Hnd2. rewrite <- (sorted_named_agree _ _ _ Hnd1 Hnd2).
  unfold _normalize_key. rewrite !items_sorted. unfold arg_eq.
  destruct typed; cbn [py_eq all2].
  - rewrite !andb_true_r, !andb_true_iff, !all2_fmap_Forall2, all2_Forall2.
    rewrite (Forall2_ext_iff _ _ _ _ py_eq_item_tuple).
    rewrite (Forall2_ext_iff (fun x y : pyval => py_eq (PyType _) (PyType _) = true)
               (fun x y => type_of x = type_of y));
      [ | intros x y; apply pytype_eqb_eq ].
    rewrite (Forall2_ext_iff
               (fun x y : string * pyval => py_eq (PyType _) (PyType _) = true)
               (fun x y => type_of x.2 = type_of y.2));
      [ | intros x y; apply pytype_eqb_eq ].
    rewrite (Forall2_ext_iff (fun v1 v2 : pyval => _ /\ (true = true -> _))
               (fun x y => py_eq x y = true /\ type_of x = type_of y));
      [ | intros x y; tauto ].
    rewrite (Forall2_ext_iff
               (fun x y : string * pyval => _ /\ _ /\ (true = true -> _))
               (fun x y => (x.1 = y.1 /\ py_eq x.2 y.2 = true)
                           /\ type_of x.2 = type_of y.2));
      [ | intros x y; tauto ].
    rewrite !Forall2_conj. tauto.
  - rewrite andb_true_r, andb_true_iff, all2_fmap_Forall2, all2_Forall2.
    rewrite (Forall2_ext_iff _ _ _ _ py_eq_item_tuple).
    rewrite (Forall2_ext_iff (fun v1 v2 : pyval => _ /\ (false = true -> _))
               (fun x y => py_eq x y = true));
      [ | intros x y; intuition congruence ].
    rewrite (Forall2_ext_iff
               (fun x y : string * pyval => _ /\ _ /\ (false = true -> _))
               (fun x y => x.1 = y.1 /\ py_eq x.2 y.2 = true));
      [ | intros x y; intuition congruence ].
    done.
Qed.

Lemma Forall2_types (l1 l2 : list pyval) :
  Forall2 (fun x y => type_of x = type_of y) l1 l2
  <-> type_of <$> l1 = type_of <$> l2.
Proof. by rewrite list_eq_Forall2, Forall2_fmap. Qed.

Lemma arg_eq_untyped v1 v2 : arg_eq false v1 v2 <-> py_eq v1 v2 = true.
Proof. unfold arg_eq. intuition congruence. Qed.

Lemma arg_eq_typed v1 v2 :
  arg_eq true v1 v2 <-> py_eq v1 v2 = true /\ type_of v1 = type_of v2.
Proof. unfold arg_eq. tauto. Qed.

Lemma named_agree_iff (R R' : pyval -> pyval -> Prop) kw1 kw2 :
  (forall v1 v2, R v1 v2 <-> R' v1 v2) ->
  named_agree R kw1 kw2 <-> named_agree R' kw1 kw2.
Proof.
  intros HR. unfold named_agree.
  split; intros [H12 H21]; split; intros n v Hin.
  - destruct (H12 n v Hin) as (v' & ? & ?). exists v'. by rewrite <- HR.
  - destruct (H21 n v Hin) as (v' & ? & ?). exists v'. by rewrite <- HR.
  - destruct (H12 n v Hin) as (v' & ? & ?). exists v'. by rewrite HR.
  - destruct (H21 n v Hin) as (v' & ? & ?). exists v'. by rewrite HR.
Qed.

Lemma key_untyped_spec args1 kwargs1 args2 kwargs2 :
  NoDup kwargs1.*1 -> NoDup kwargs2.*1 ->
  py_eq (_normalize_key args1 kwargs1 false) (_normalize_key args2 kwargs2 false)
  = true
  <-> all2 py_eq args1 args2 = true
      /\ named_agree (fun v1 v2 => py_eq v1 v2 = true) kwargs1 kwargs2.
Proof.
  intros Hnd1 Hnd2. rewrite (key_eq_spec false) by done.
  rewrite (Forall2_ext_iff _ _ _ _ arg_eq_untyped), <- all2_Forall2.
  by rewrite (named_agree_iff _ _ _ _ arg_eq_untyped).
Qed.

Lemma key_typed_spec args1 kwargs1 args2 kwargs2 :
  NoDup kwargs1.*1 -> NoDup kwargs2.*1 ->
  py_eq (_normalize_key args1 kwargs1 true) (_normalize_key args2 kwargs2 true)
  = true
  <-> all2 py_eq args1 args2 = true
      /\ type_of <$> args1 = type_of <$> args2
      /\ named_agree
           (fun v1 v2 => py_eq v1 v2 = true /\ type_of v1 = type_of v2)
           kwargs1 kwargs2.
Proof.
  intros Hnd1 Hnd2. rewrite (key_eq_spec true) by done.
  rewrite (Forall2_ext_iff _ _ _ _ arg_eq_typed), Forall2_conj.
  rewrite <- all2_Forall2, Forall2_types.
  rewrite (named_agree_iff _ _ _ _ arg_eq_typed). tauto.
Qed.

Lemma key_typed_differs args1 kwargs1 args2 kwargs2 :
  NoDup kwargs1.*1 -> NoDup kwargs2.*1 ->
  (type_of <$> args1 ≠ type_of <$> args2
   \/ exists n v1 v2,
        (n, v1) ∈ kwargs1 /\ (n, v2) ∈ kwargs2 /\ type_of v1 ≠ type_of v2) ->
  py_eq (_normalize_key args1 kwargs1 true) (_normalize_key args2 kwargs2 true)
  = false.
Proof.
  intros Hnd1 Hnd2 Hty.
  destruct (py_eq _ _) eqn:Hk; [ | done ].
  apply key_typed_spec in Hk as (_ & Hta & [H12 _]); [ | done | done ].
  destruct Hty as [ Hne | (n & v1 & v2 & Hin1 & Hin2 & Hne) ]; [ done | ].
  destruct (H12 n v1 Hin1) as (v2' & Hin2' & _ & Ht).
  assert ((n, v2') = (n, v2)) as [= ->]; [ | done ].
  by apply (NoDup_fst_inj kwargs2).
Qed.

Section typed_claims.
Context {W : Type}.
Variable func : list pyval -> list (string * pyval) -> M W pyval.

Lemma wrapper_miss_counts args kwargs (s : @closure W) r s' :
  WInv s ->
  is_miss s (_normalize_key args kwargs (typed s)) = true ->
  wrapper func args kwargs s = (r, s') ->
  WInv s' /\ typed s' = typed s
  /\ misses s' = misses s + 1 /\ hits s' = hits s
  /\ forall k' x,
       lookup_val (cache s') k' = Some x ->
       lookup_val (cache s) k' = Some x
       \/ py_eq (_normalize_key args kwargs (typed s)) k' = true.
Proof.
  intros HW Hm Hw.
  destruct (func args kwargs (world s)) as [[value | e] w'] eqn:Hf.
  - destruct (wrapper_miss_ok func _ _ _ _ _ HW Hm Hf)
      as (s1 & Hw1 & HW1 & Hh & Hms & _ & _ & _ & Hty & Hany & _).
    rewrite Hw in Hw1. injection Hw1 as _ <-. split_and!; try done.
    intros k' x Hx. destruct (Hany k' x Hx) as [ ? | [? _] ]; auto.
  - destruct (wrapper_miss_raise func _ _ _ _ _ HW Hm Hf)
      as (s1 & Hw1 & HW1 & Hh & Hms & _ & _ & _ & Hty & _ & Hsame).
    rewrite Hw in Hw1. injection Hw1 as _ <-. split_and!; try done.
    intros k' x Hx. left. by rewrite <- Hsame.
Qed.

(** Claim C10, amended.  Let two calls pass arguments that are equal for
    [==], the positional ones item by item and the named ones name by
    name, and let an argument of one differ in type from the argument of
    the other at the same position or under the same name.  A new wrapper
    in typed mode gives the two calls keys that are not equal, and counts
    two misses and no hit after them.  A new wrapper in untyped mode gives
    them equal keys and, when the first call returns a value other than
    [None], counts one miss and one hit, the second call returning that
    value.  The names of one call are distinct. *)
Theorem typed_mode_tells_types_apart args1 args2 kwargs1 kwargs2 max_size
    (w : W) :
  NoDup kwargs1.*1 -> NoDup kwargs2.*1 ->
  all2 py_eq args1 args2 = true ->
  named_agree (fun v1 v2 => py_eq v1 v2 = true) kwargs1 kwargs2 ->
  (type_of <$> args1 ≠ type_of <$> args2
   \/ exists n v1 v2,
        (n, v1) ∈ kwargs1 /\ (n, v2) ∈ kwargs2 /\ type_of v1 ≠ type_of v2) ->
  0 < max_size ->
  (exists dec s,
     lru_cache_impl max_size true = Ok dec /\ dec w = Ok s
     /\ py_eq (_normalize_key args1 kwargs1 true)
              (_normalize_key args2 kwargs2 true) = false
     /\ forall r1 s1 r2 s2,
          wrapper func args1 kwargs1 s = (r1, s1) ->
          wrapper func args2 kwargs2 s1 = (r2, s2) ->
          CacheInfo.misses (cache_info s2) = 2
          /\ CacheInfo.hits (cache_info s2) = 0)
  /\ (exists dec s,
       lru_cache_impl max_size false = Ok dec /\ dec w = Ok s
       /\ py_eq (_normalize_key args1 kwargs1 false)
                (_normalize_key args2 kwargs2 false) = true
       /\ forall v w',
            func args1 kwargs1 w = (Ok v, w') -> is_None v = false ->
            exists s1 s2,
              wrapper func args1 kwargs1 s = (Ok v, s1)
              /\ wrapper func args2 kwargs2 s1 = (Ok v, s2)
              /\ CacheInfo.misses (cache_info s2) = 1
              /\ CacheInfo.hits (cache_info s2) = 1).
Proof.
  intros Hnd1 Hnd2 Heq Hnamed Hty Hpos.
  assert (forall typed, exists dec s,
    @lru_cache_impl W max_size typed = Ok dec /\ dec w = Ok s) as Hmk.
  { intros typed. unfold lru_cache_impl.
    destruct (max_size <=? 0) eqn:Hle; [ apply Z.leb_le in Hle; lia | ].
    eexists _, _. split; [ done | ]. unfold decorator.
    by rewrite new_LRUCache_eq. }
  split.
  - destruct (Hmk true) as (dec & s & Hdec & Hs). exists dec, s.
    destruct (decorator_WInv _ _ _ _ _ Hdec Hs) as [HW Hs0].
    pose proof (key_typed_differs args1 kwargs1 args2 kwargs2 Hnd1 Hnd2 Hty)
      as Hne.
    split_and!; try done.
    intros r1 s1 r2 s2 Hw1 Hw2.
    assert (typed s = true /\ misses s = 0 /\ hits s = 0
            /\ forall k, lookup_val (cache s) k = None)
      as (Hts & Hms & Hhs & Hempty) by by subst s.
    destruct (wrapper_miss_counts _ _ _ _ _ HW
                ltac:(unfold is_miss; by rewrite Hempty) Hw1)
      as (HW1 & Hty1 & Hm1 & Hh1 & Hany).
    assert (is_miss s1 (_normalize_key args2 kwargs2 (typed s1)) = true)
      as Hmiss.
    { unfold is_miss. rewrite Hty1, Hts.
      destruct (lookup_val (cache s1) _) as [ x | ] eqn:Hx; [ | done ].
      destruct (Hany _ _ Hx) as [ Hold | Hk ].
      - by rewrite Hempty in Hold.
      - rewrite Hts in Hk. congruence. }
    destruct (wrapper_miss_counts _ _ _ _ _ HW1 Hmiss Hw2)
      as (_ & _ & Hm2 & Hh2 & _).
    cbn. lia.
  - destruct (Hmk false) as (dec & s & Hdec & Hs). exists dec, s.
    destruct (decorator_WInv _ _ _ _ _ Hdec Hs) as [HW Hs0].
    assert (py_eq (_normalize_key args1 kwargs1 false)
              (_normalize_key args2 kwargs2 false) = true) as Hk
      by by apply key_untyped_spec.
    split_and!; try done.
    intros v w' Hf Hv.
    assert (typed s = false /\ misses s = 0 /\ hits s = 0 /\ world s = w
            /\ forall k, lookup_val (cache s) k = None)
      as (Hts & Hms & Hhs & Hws & Hempty) by by subst s.
    rewrite <- Hws in Hf.
    destruct (wrapper_miss_ok func args1 kwargs1 s v w' HW)
      as (s1 & Hw1 & HW1 & Hh1 & Hm1 & _ & _ & _ & Hty1 & _ & Hnew & _);
      [ unfold is_miss; by rewrite Hempty | done | ].
    destruct (wrapper_hit func args2 kwargs2 s1 v HW1)
      as (s2 & Hw2 & _ & Hh2 & Hm2 & _); [ | done | ].
    { rewrite Hty1. apply Hnew; [ apply Hempty | ]. by rewrite Hts. }
    exists s1, s2. split_and!; try done; cbn; lia.
Qed.

(** Claim C5, amended.  [LRUCache(capacity)] never fails and gives an empty
    cache, whatever the capacity.  [lru_cache_impl(max_size, typed)] raises
    [ValueError] when [max_size <= 0], by its own test and before any
    cache is made; with a positive [max_size] it succeeds and wraps the
    function around an empty cache with both counters at zero. *)
Theorem construction_checks cap max_size typed (w : W) :
  (exists self,
     new_LRUCache cap = Ok self /\ entries self = [] /\ __len__ self = 0
     /\ capacity self = cap)
  /\ (max_size <= 0 ->
      @lru_cache_impl W max_size typed
      = Err (ValueError "max_size must be > 0"))
  /\ (0 < max_size ->
      exists dec s,
        lru_cache_impl max_size typed = Ok dec /\ dec w = Ok s
        /\ entries (cache s) = []
        /\ cache_info s = CacheInfo.mk 0 0 max_size 0).
Proof.
  split_and!.
  - eexists. by rewrite new_LRUCache_eq.
  - intros Hle. unfold lru_cache_impl.
    by apply Z.leb_le in Hle as ->.
  - intros Hpos. unfold lru_cache_impl.
    destruct (max_size <=? 0) eqn:Hle; [ apply Z.leb_le in Hle; lia | ].
    eexists _, _. split; [ done | ]. unfold decorator.
    by rewrite new_LRUCache_eq.
Qed.
End typed_claims.

(** * Examples, witnesses and counterexamples *)

Lemma reachable_run ops self0 cap :
  new_LRUCache cap = Ok self0 -> reachable (run ops self0).2.
Proof.
  intros Hnew.
  apply (run_reachable ops self0 (run ops self0).1); [ by eapply reachable_new | ].
  by destruct (run ops self0).
Qed.

Lemma eviction_is_least_recent_witness :
  exists e,
    (put ex_c (PyInt 3) ex_after_ops).1 = Ok PyNone
    /\ entries ex_after_ops ++ [(ex_c, PyInt 3)]
       = e :: entries (put ex_c (PyInt 3) ex_after_ops).2
    /\ (_data ex_after_ops).*1 ++ [ex_c]
       ≡ₚ e.1 :: (_data (put ex_c (PyInt 3) ex_after_ops).2).*1
    /\ dict_get (_data (put ex_c (PyInt 3) ex_after_ops).2) e.1 = None
    /\ forall k', k' ∈ (entries (put ex_c (PyInt 3) ex_after_ops).2).*1 ->
         lru_before (trace (ex_ops ++ [Put ex_c (PyInt 3)]) (ex_new 2)) e.1 k'.
Proof.
  apply (eviction_is_least_recent 2 ex_ops [PyNone; PyNone; PyInt 1]
           (ex_new 2) ex_after_ops ex_c (PyInt 3)).
  - reflexivity.
  - vm_compute. reflexivity.
  - vm_compute. reflexivity.
  - vm_compute. reflexivity.
  - vm_compute. reflexivity.
Defined.

Lemma size_at_most_capacity_witness :
  exists rs self,
    run ex_ops (ex_new 2) = (Ok rs, self)
    /\ __len__ self <= 2
    /\ __len__ self = Z.of_nat (length (chain self))
    /\ chain_back self = rev (chain self)
    /\ (_head self ∉ chain self) /\ (_tail self ∉ chain self).
Proof.
  apply (size_at_most_capacity 2 ex_ops (ex_new 2)).
  - lia.
  - reflexivity.
Defined.

Lemma put_present_keeps_value_counterexample :
  reachable ex_a1
  /\ lookup_val ex_a1 ex_a = Some (PyInt 1)
  /\ exists self1 self2,
       put ex_a (PyInt 2) ex_a1 = (Ok (PyInt 1), self1)
       /\ get ex_a PyNone self1 = (Ok (PyInt 1), self2)
       /\ Ok (PyInt 1) ≠ @Ok pyval (PyInt 2).
Proof.
  split_and!.
  - eapply reachable_step; [ by apply (reachable_new 2) | ].
    by instantiate (1 := Ok PyNone); instantiate (1 := Put ex_a (PyInt 1)).
  - reflexivity.
  - eexists _, _. split_and!; [ vm_compute; reflexivity | vm_compute; reflexivity | ].
    discriminate.
Qed.

Lemma put_present_keeps_value_witness :
  exists self1 self2 e,
    put ex_a (PyInt 2) ex_a1 = (Ok (PyInt 1), self1)
    /\ last (entries self1) = Some e /\ py_eq e.1 ex_a = true /\ e.2 = PyInt 1
    /\ forall default, get ex_a default self1 = (Ok (PyInt 1), self2).
Proof.
  apply (put_present_keeps_value ex_a1 ex_a (PyInt 1) (PyInt 2)).
  - apply (reachable_run [Put ex_a (PyInt 1)] (ex_new 2) 2). reflexivity.
  - reflexivity.
Defined.

Lemma ex_wrapper_reachable func typed : wreachable func (ex_wrapper typed).
Proof. by apply (wreachable_new func 2 typed (decorator 2 typed) tt). Qed.

Lemma repeated_calls_one_miss_counterexample :
  wreachable ex_none (ex_wrapper false)
  /\ lookup_val (cache (ex_wrapper false))
       (_normalize_key [PyInt 3] [] false) = None
  /\ exists s',
       calls_of ex_none (replicate 2 ([PyInt 3], [])) (ex_wrapper false)
       = (Ok [PyNone; PyNone], s')
       /\ cache_info s' = CacheInfo.mk 0 2 2 1
       /\ calls s' = 2%nat.
Proof.
  split_and!.
  - apply ex_wrapper_reachable.
  - reflexivity.
  - eexists. split_and!; [ vm_compute; reflexivity | reflexivity | reflexivity ].
Qed.

Lemma repeated_calls_one_miss_witness :
  exists s',
    calls_of ex_square (replicate 3 ([PyInt 3], [])) (ex_wrapper false)
    = (Ok (replicate 3 (PyInt 9)), s')
    /\ CacheInfo.misses (cache_info s')
       = CacheInfo.misses (cache_info (ex_wrapper false)) + 1
    /\ CacheInfo.hits (cache_info s')
       = CacheInfo.hits (cache_info (ex_wrapper false)) + (Z.of_nat 3 - 1)
    /\ calls s' = S (calls (ex_wrapper false)).
Proof.
  apply (repeated_calls_one_miss ex_square [PyInt 3] [] (ex_wrapper false)
           (PyInt 9) tt 3).
  - apply (wreachable_new ex_square 2 false (decorator 2 false) tt);
      reflexivity.
  - reflexivity.
  - reflexivity.
  - reflexivity.
  - lia.
Defined.

Lemma construction_checks_counterexample :
  new_LRUCache 0 = Ok (ex_new 0)
  /\ new_LRUCache (-1) = Ok (ex_new (-1))
  /\ forall e, new_LRUCache 0 ≠ Err e.
Proof. split_and!; [ reflexivity | reflexivity | discriminate ]. Qed.

Lemma construction_checks_witness :
  @lru_cache_impl unit 0 false = Err (ValueError "max_size must be > 0")
  /\ exists dec s,
       lru_cache_impl 2 false = Ok dec /\ dec tt = Ok s
       /\ entries (cache s) = []
       /\ cache_info s = CacheInfo.mk 0 0 2 0.
Proof.
  split.
  - apply (construction_checks 0 0 false tt). lia.
  - apply (construction_checks 2 2 false tt). lia.
Defined.

Lemma none_result_is_never_a_hit_counterexample :
  (forall w, ex_float_only [PyInt 1] [] w = (Ok PyNone, w))
  /\ exists s1 s2,
       wrapper ex_float_only [PyFloat 1] [] (ex_wrapper false)
       = (Ok (PyInt 5), s1)
       /\ wreachable ex_float_only s1
       /\ wrapper ex_float_only [PyInt 1] [] s1 = (Ok (PyInt 5), s2)
       /\ hits s2 = hits s1 + 1 /\ misses s2 = misses s1
       /\ calls s2 = calls s1.
Proof.
  split; [ done | ].
  eexists _, _. split; [ vm_compute; reflexivity | ]. split.
  - apply (wreachable_call ex_float_only [PyFloat 1] [] (ex_wrapper false)
             (Ok (PyInt 5))); [ apply ex_wrapper_reachable | ].
    vm_compute. reflexivity.
  - split_and!; [ vm_compute; reflexivity | reflexivity.. ].
Qed.

Lemma ex_after_none_reachable : wreachable ex_none ex_after_none.
Proof.
  apply (wreachable_call ex_none [PyInt 3] [] (ex_wrapper false) (Ok PyNone)).
  - apply ex_wrapper_reachable.
  - vm_compute. reflexivity.
Qed.

Lemma none_result_is_never_a_hit_witness :
  exists s',
    wrapper ex_none [PyInt 3] [] ex_after_none = (Ok PyNone, s')
    /\ misses s' = misses ex_after_none + 1
    /\ hits s' = hits ex_after_none
    /\ calls s' = S (calls ex_after_none)
    /\ lookup_val (cache s') (_normalize_key [PyInt 3] [] false) = Some PyNone.
Proof.
  apply (none_result_is_never_a_hit ex_none false [PyInt 3] [] ex_after_none).
  - intros a kw w _. exists w. reflexivity.
  - apply ex_after_none_reachable.
  - reflexivity.
Defined.

Lemma failure_is_not_cached_witness :
  exists s',
    wrapper ex_square [PyStr "x"] [] (ex_wrapper false)
    = (Err (Raised (PyStr "TypeError")), s')
    /\ _data (cache s') = _data (cache (ex_wrapper false))
    /\ (forall k,
          lookup_val (cache s') k = lookup_val (cache (ex_wrapper false)) k)
    /\ calls s' = S (calls (ex_wrapper false))
    /\ (forall r s'',
          wrapper ex_square [PyStr "x"] [] s' = (r, s'') ->
          calls s'' = S (calls s'))
    /\ (forall w r s'',
          wrapper ex_square [PyStr "x"] [] (set_world w s') = (r, s'') ->
          calls s'' = S (calls s')).
Proof.
  apply (failure_is_not_cached ex_square [PyStr "x"] [] (ex_wrapper false)
           (Raised (PyStr "TypeError")) tt).
  - apply (wreachable_new ex_square 2 false (decorator 2 false) tt);
      reflexivity.
  - reflexivity.
  - reflexivity.
Defined.

Lemma remove_twice_counterexample :
  reachable ex_abc_b
  /\ chain ex_abc_b = [4; 3]%nat
  /\ (2 < length (store ex_abc_b))%nat
  /\ (2%nat ∉ chain ex_abc_b)
  /\ 2%nat ≠ _head ex_abc_b /\ 2%nat ≠ _tail ex_abc_b
  /\ exists self',
       _remove 2%nat ex_abc_b = (Ok tt, self')
       /\ chain self' = [3%nat]
       /\ chain self' ≠ chain ex_abc_b.
Proof.
  assert (chain ex_abc_b = [4; 3]%nat) as Hchain by (vm_compute; reflexivity).
  split_and!.
  - apply (reachable_run _ (ex_new 2) 2). reflexivity.
  - exact Hchain.
  - vm_compute. lia.
  - rewrite Hchain. rewrite !not_elem_of_cons. split_and!; [ lia | lia | ].
    apply not_elem_of_nil.
  - vm_compute. lia.
  - vm_compute. lia.
  - eexists. split; [ vm_compute; reflexivity | ].
    split; [ vm_compute; reflexivity | ].
    rewrite Hchain. vm_compute. discriminate.
Qed.

Lemma remove_twice_witness :
  exists self1,
    _remove 3%nat ex_after_ops = (Ok tt, self1)
    /\ (3%nat ∉ chain self1)
    /\ _remove 3%nat self1 = (Ok tt, self1).
Proof.
  apply (remove_twice ex_after_ops 3%nat).
  - apply (reachable_run ex_ops (ex_new 2) 2). reflexivity.
  - vm_compute. apply list_elem_of_here.
Defined.

Lemma normalize_key_ignores_named_order_witness :
  _normalize_key [PyInt 1; PyInt 2]
    [("a"%string, PyInt 1); ("b"%string, PyInt 2)] true
  = _normalize_key [PyInt 1; PyInt 2]
      [("b"%string, PyInt 2); ("a"%string, PyInt 1)] true.
Proof.
  apply (normalize_key_ignores_named_order [PyInt 1; PyInt 2]
           [("a"%string, PyInt 1); ("b"%string, PyInt 2)]
           [("b"%string, PyInt 2); ("a"%string, PyInt 1)] true).
  - apply (bool_decide_unpack _). vm_compute. exact I.
  - apply perm_swap.
Defined.

Lemma typed_mode_tells_types_apart_counterexample :
  all2 py_eq [PyInt 1] [PyFloat 1] = true
  /\ type_of <$> [PyInt 1] ≠ type_of <$> [PyFloat 1]
  /\ exists s1 s2,
       wrapper ex_none [PyInt 1] [] (ex_wrapper false) = (Ok PyNone, s1)
       /\ wrapper ex_none [PyFloat 1] [] s1 = (Ok PyNone, s2)
       /\ cache_info s2 = CacheInfo.mk 0 2 2 1.
Proof.
  split_and!; [ reflexivity | discriminate | ].
  eexists _, _.
  split_and!; [ vm_compute; reflexivity | vm_compute; reflexivity | reflexivity ].
Qed.

Lemma typed_mode_tells_types_apart_witness :
  (exists dec s,
     lru_cache_impl 2 true = Ok dec /\ dec tt = Ok s
     /\ py_eq (_normalize_key [PyInt 3] [("x", PyInt 1)] true)
              (_normalize_key [PyInt 3] [("x", PyFloat 1)] true) = false
     /\ forall r1 s1 r2 s2,
          wrapper ex_square [PyInt 3] [("x", PyInt 1)] s = (r1, s1) ->
          wrapper ex_square [PyInt 3] [("x", PyFloat 1)] s1 = (r2, s2) ->
          CacheInfo.misses (cache_info s2) = 2
          /\ CacheInfo.hits (cache_info s2) = 0)
  /\ (exists dec s,
       lru_cache_impl 2 false = Ok dec /\ dec tt = Ok s
       /\ py_eq (_normalize_key [PyInt 3] [("x", PyInt 1)] false)
                (_normalize_key [PyInt 3] [("x", PyFloat 1)] false) = true
       /\ forall v w',
            ex_square [PyInt 3] [("x", PyInt 1)] tt = (Ok v, w') ->
            is_None v = false ->
            exists s1 s2,
              wrapper ex_square [PyInt 3] [("x", PyInt 1)] s = (Ok v, s1)
              /\ wrapper ex_square [PyInt 3] [("x", PyFloat 1)] s1 = (Ok v, s2)
              /\ CacheInfo.misses (cache_info s2) = 1
              /\ CacheInfo.hits (cache_info s2) = 1).
Proof.
  apply (typed_mode_tells_types_apart ex_square [PyInt 3] [PyInt 3]
           [("x", PyInt 1)] [("x", PyFloat 1)] 2 tt).
  - apply (bool_decide_unpack _). vm_compute. exact I.
  - apply (bool_decide_unpack _). vm_compute. exact I.
  - reflexivity.
  - split; intros n v [= -> ->]%list_elem_of_singleton.
    + exists (PyFloat 1). split; [ apply list_elem_of_singleton | ]; reflexivity.
    + exists (PyInt 1). split; [ apply list_elem_of_singleton | ]; reflexivity.
  - right. exists "x", (PyInt 1), (PyFloat 1).
    split_and!; [ by apply list_elem_of_singleton.. | discriminate ].
  - lia.
Defined.

(** * Further properties

    What the code does beyond the statements above, on the same model. *)

(** ** The cache *)

(** On every cache reached from a new one by [get]s and [put]s, a [get] or
    a [put] returns without raising, and what it returns and the entries it
    leaves, least recently used first, are those of the list model: a hit
    moves the entry to the end and returns its stored value, a [get] that
    misses returns the default and changes nothing, a [put] of a new key
    returns [None], appends the entry and drops the first one when the
    length has passed the capacity. *)
Theorem cache_follows_list_model self o :
  reachable self ->
  exists self',
    step o self = (Ok (model_step (capacity self) o (entries self)).1, self')
    /\ entries self' = (model_step (capacity self) o (entries self)).2
    /\ capacity self' = capacity self.
Proof.
  intros [ls HI]%reachable_Inv.
  destruct (step_refines o _ _ HI) as (self' & ls' & Hstep & _ & Hes & Hc).
  by exists self'.
Qed.

(** On every reachable cache the index and the list agree: the nodes
    between the sentinels are distinct and are the same walked forwards or
    backwards, the index holds exactly their keys, each with its node, no
    two keys of the index are equal for [==], and [len] is the number of
    nodes and is at most the capacity (at most 0 when the capacity is
    negative). *)
Theorem index_and_list_agree self :
  reachable self ->
  NoDup (chain self)
  /\ chain_back self = rev (chain self)
  /\ _data self ≡ₚ (fun l => (keyf (store self) l, l)) <$> chain self
  /\ keys_distinct (_data self).*1
  /\ __len__ self = Z.of_nat (length (chain self))
  /\ __len__ self <= Z.max 0 (capacity self).
Proof.
  intros [ls HI]%reachable_Inv.
  rewrite (Inv_chain _ _ HI), (Inv_chain_back _ _ HI), (Inv_len _ _ HI).
  pose proof (inv_nodup _ _ HI) as Hnd.
  apply NoDup_cons in Hnd as [_ Hnd]. apply NoDup_app in Hnd as (Hnd & _ & _).
  split_and!; try done; try apply HI.
  eapply keys_distinct_perm; [ | apply HI ].
  symmetry. apply (Inv_keys_data _ _ HI).
Qed.

(** With a capacity of at least 1, a [put] of a key the cache does not hold
    returns [None], and the [get] that follows, with that key or with any
    key equal to it for [==] (as [7] and [7.0] are), returns the value that
    was put. *)
Theorem put_then_get self k k' v default :
  reachable self -> 1 <= capacity self ->
  dict_get (_data self) k = None -> py_eq k k' = true ->
  exists self1 self2,
    put k v self = (Ok PyNone, self1)
    /\ get k' default self1 = (Ok v, self2).
Proof.
  intros [ls HI]%reachable_Inv Hcap Hg Hk.
  assert (lookup_val self k = None) as Hl by (unfold lookup_val; by rewrite Hg).
  destruct (step_refines (Put k v) _ _ HI) as (self1 & ls1 & Hput & HI1 & _ & _).
  simpl in Hput. apply (Inv_dict_get_None _ _ HI) in Hg. rewrite Hg in Hput.
  destruct (put_spec _ _ k v HI) as (s1 & l1 & r & Hput' & _ & _ & _ & _ & Hnew).
  rewrite Hput in Hput'. injection Hput' as _ <-.
  destruct (get_spec _ _ k' default HI1) as (self2 & ls2 & Hget & _).
  rewrite (Hnew Hl Hcap k' Hk) in Hget.
  by exists self1, self2.
Qed.

Lemma model_step_length cap o es :
  keys_distinct es.*1 ->
  (length es <= length (model_step cap o es).2 <= length es + 1)%nat
  /\ (forall k d, o = Get k d -> length (model_step cap o es).2 = length es).
Proof.
  intros Hd.
  assert (forall k e, assoc es k = Some e ->
            length (remove_key es k ++ [e]) = length es) as Hhit.
  { intros k e (ea & eb & -> & _ & ->)%assoc_Some_split.
    rewrite !length_app. simpl. lia. }
  destruct o as [ k d | k v ]; simpl.
  - destruct (assoc es k) as [ e | ] eqn:Ha; simpl.
    + rewrite (Hhit _ _ Ha). split; [ lia | done ].
    + split; [ lia | done ].
  - split; [ | done ].
    destruct (assoc es k) as [ e | ] eqn:Ha; simpl.
    + rewrite (Hhit _ _ Ha). lia.
    + destruct (_ >? _) eqn:Hgt.
      * destruct es; simpl; rewrite ?length_app; simpl; lia.
      * rewrite length_app; simpl; lia.
Qed.

Lemma Inv_step_len self ls o r self' :
  Inv self ls -> step o self = (r, self') ->
  __len__ self <= __len__ self' <= __len__ self + 1
  /\ (forall k default, o = Get k default -> __len__ self' = __len__ self).
Proof.
  intros HI Hstep.
  destruct (step_refines o _ _ HI) as (self1 & ls1 & Hstep1 & HI1 & Hes & _).
  rewrite Hstep in Hstep1. injection Hstep1 as _ <-.
  pose proof (model_step_length (capacity self) o (entries self)
                (Inv_entries_distinct _ _ HI)) as [Hlen Hget].
  rewrite <- Hes in Hlen, Hget.
  rewrite (Inv_len _ _ HI), (Inv_len _ _ HI1).
  rewrite (Inv_entries _ _ HI), (Inv_entries _ _ HI1), !length_fmap in Hlen, Hget.
  split; [ lia | ]. intros k d Ho. by rewrite (Hget k d Ho).
Qed.

(** No operation makes a reachable cache shorter: [len] stays or grows by
    one with each [get] or [put], and a [get] leaves it as it is. *)
Theorem len_never_decreases self o r self' :
  reachable self -> step o self = (r, self') ->
  __len__ self <= __len__ self' <= __len__ self + 1
  /\ (forall k default, o = Get k default -> __len__ self' = __len__ self).
Proof. intros [ls HI]%reachable_Inv. by eapply Inv_step_len. Qed.

(** A [get] reads: it returns the stored value of the key, or the default
    when there is none, and leaves the index, the length and the value
    held for every key as they were; the entries are the same up to their
    order. *)
Theorem get_keeps_contents self k default r self' :
  reachable self -> get k default self = (r, self') ->
  r = Ok (from_option id default (lookup_val self k))
  /\ entries self' ≡ₚ entries self
  /\ _data self' = _data self
  /\ __len__ self' = __len__ self
  /\ forall k', lookup_val self' k' = lookup_val self k'.
Proof.
  intros [ls HI]%reachable_Inv Hget.
  destruct (get_spec _ _ k default HI) as (s1 & ls1 & Hget1 & HI1 & _ & Hd & Hsame).
  rewrite Hget in Hget1. injection Hget1 as -> <-.
  destruct (step_refines (Get k default) _ _ HI) as (s2 & ls2 & Hstep & _ & Hes & _).
  simpl in Hstep, Hes. rewrite Hget in Hstep. injection Hstep as _ <-.
  split_and!; try done.
  - rewrite Hes. destruct (assoc (entries self) k) as [ e | ] eqn:Ha; [ | done ].
    apply assoc_Some_split in Ha as (ea & eb & -> & _ & ->). simpl.
    rewrite <- app_assoc. apply Permutation_app_head.
    symmetry. apply Permutation_cons_append.
  - unfold __len__. by rewrite Hd.
Qed.

(** [__init__] takes any capacity.  A cache whose capacity is zero or
    negative holds nothing, whatever was done to it: it is empty, every
    [get] returns its default and leaves the cache as it is, and every
    [put] returns [None] and leaves it empty. *)
Theorem nonpositive_capacity_stays_empty self :
  reachable self -> capacity self <= 0 ->
  entries self = [] /\ _data self = [] /\ __len__ self = 0
  /\ (forall k default, get k default self = (Ok default, self))
  /\ (forall k v, exists self',
        put k v self = (Ok PyNone, self') /\ entries self' = []).
Proof.
  intros [ls HI]%reachable_Inv Hcap.
  pose proof (inv_size _ _ HI) as Hsz.
  assert (ls = []) as -> by (destruct ls; [ done | simpl in Hsz; lia ]).
  pose proof (inv_index _ _ HI) as Hd. simpl in Hd.
  apply Permutation_nil_r in Hd.
  assert (entries self = []) as Hes by by rewrite (Inv_entries _ _ HI).
  split_and!; try done.
  - unfold __len__. by rewrite Hd.
  - intros k default. apply get_miss. by rewrite Hd.
  - intros k v.
    destruct (step_refines (Put k v) _ _ HI) as (s1 & ls1 & Hstep & _ & Hes1 & _).
    simpl in Hstep, Hes1. rewrite Hes in Hstep, Hes1. simpl in Hstep, Hes1.
    exists s1. split; [ done | ]. rewrite Hes1.
    assert ((Z.of_nat 1 >? capacity self) = true) as Hgt
      by (apply Z.gtb_lt; lia).
    by rewrite Hgt.
Qed.




Lemma model_step_last cap o es k :
  keys_distinct es.*1 -> Z.of_nat (length es) <= Z.max 0 cap -> 1 <= cap ->
  match o with
  | Put k' _ => k' = k
  | Get k' _ => k' = k /\ is_Some (assoc es k)
  end ->
  exists e, last (model_step cap o es).2 = Some e /\ py_eq e.1 k = true.
Proof.
  intros Hd Hsz Hcap Ho.
  assert (forall e0, assoc es k = Some e0 ->
            exists e, last (remove_key es k ++ [e0]) = Some e
                      /\ py_eq e.1 k = true) as Hhit.
  { intros e0 [_ Hk]%assoc_Some_elem. exists e0. by rewrite last_snoc. }
  destruct o as [ k' d | k' v ]; simpl.
  - destruct Ho as [-> [e0 Ha]]. rewrite Ha. simpl. by apply Hhit.
  - subst k'. destruct (assoc es k) as [ e0 | ] eqn:Ha; simpl; [ by apply Hhit | ].
    exists (k, v). split; [ | apply py_eq_refl ].
    destruct (_ >? _) eqn:Hgt; [ | by rewrite last_snoc ].
    apply Z.gtb_lt in Hgt. rewrite length_app in Hgt. simpl in Hgt.
    destruct es as [ | e1 es ]; [ simpl in *; lia | ].
    simpl. by rewrite last_snoc.
Qed.

(** With a capacity of at least 2, the key an operation has just accessed
    (by a [put], or by a [get] that hit) is held after it and is still held,
    with the same value, after one more [put], whatever its key. *)
Theorem recently_used_survives_put self o r self1 k k2 v2 r2 self2 :
  reachable self -> 2 <= capacity self ->
  step o self = (r, self1) -> access_of o self = Some k ->
  put k2 v2 self1 = (r2, self2) ->
  is_Some (lookup_val self1 k) /\ lookup_val self2 k = lookup_val self1 k.
Proof.
  intros [ls HI]%reachable_Inv Hcap Hstep Hacc Hput.
  destruct (step_refines o _ _ HI) as (s1 & ls1 & Hstep1 & HI1 & Hes1 & Hc1).
  rewrite Hstep in Hstep1. injection Hstep1 as _ <-.
  destruct (model_step_last (capacity self) o (entries self) k) as (e & Hlast & Hk).
  { by eapply Inv_entries_distinct. }
  { rewrite (Inv_entries _ _ HI), length_fmap. apply HI. }
  { lia. }
  { destruct o as [ k' d | k' v ]; simpl in Hacc.
    - destruct (dict_get (_data self) k') as [ n | ] eqn:Hg; [ | done ].
      injection Hacc as ->. split; [ done | ].
      by rewrite (Inv_assoc_hit _ _ _ _ HI Hg).
    - by injection Hacc. }
  rewrite <- Hes1 in Hlast.
  pose proof (Inv_entries_distinct _ _ HI1) as Hd1.
  assert (e ∈ entries self1) as Hin1.
  { apply last_Some in Hlast as [l' ->]. set_solver. }
  assert (lookup_val self1 k = Some e.2) as Hl1.
  { rewrite (Inv_lookup_val _ _ _ HI1), (assoc_elem _ _ e); done. }
  split; [ by rewrite Hl1 | ].
  destruct (step_refines (Put k2 v2) _ _ HI1) as (s2 & ls2 & Hstep2 & HI2 & Hes2 & _).
  simpl in Hstep2, Hes2. rewrite Hput in Hstep2. injection Hstep2 as _ <-.
  pose proof (Inv_entries_distinct _ _ HI2) as Hd2.
  rewrite Hl1, (Inv_lookup_val _ _ _ HI2).
  rewrite (assoc_elem _ _ e); [ done | done | | done ].
  rewrite Hes2.
  destruct (assoc (entries self1) k2) as [ e2 | ] eqn:Ha2; simpl.
  - apply assoc_Some_split in Ha2 as (ea & eb & Heq & _ & ->).
    rewrite Heq in Hin1. set_solver.
  - destruct (_ >? _) eqn:Hgt; [ | set_solver ].
    apply Z.gtb_lt in Hgt. rewrite length_app in Hgt. simpl in Hgt.
    apply last_Some in Hlast as [l' Hl'].
    rewrite Hl' in Hgt |- *. rewrite length_app in Hgt. simpl in Hgt.
    destruct l' as [ | e1 l' ]; [ simpl in Hgt; lia | ]. simpl. set_solver.
Qed.

Lemma keys_distinct_drop n ks : keys_distinct ks -> keys_distinct (drop n ks).
Proof.
  revert n. induction ks as [ | k ks IH ]; intros [ | n ]; simpl; try done.
  intros [_ Hd]. by apply IH.
Qed.

Lemma run_distinct_puts kvs : forall self ls rs self',
  Inv self ls -> keys_distinct ((entries self).*1 ++ kvs.*1) ->
  run ((fun kv => Put kv.1 kv.2) <$> kvs) self = (rs, self') ->
  entries self'
  = drop (length (entries self ++ kvs) - Z.to_nat (capacity self))
      (entries self ++ kvs).
Proof.
  induction kvs as [ | [k v] kvs IH ]; intros self ls rs self' HI Hd;
    assert (length (entries self) <= Z.to_nat (capacity self))%nat as Hsz
      by (pose proof (inv_size _ _ HI); rewrite (Inv_entries _ _ HI), length_fmap;
          lia).
  - intros [= _ <-]. rewrite app_nil_r.
    by replace (length (entries self) - Z.to_nat (capacity self))%nat
      with 0%nat by lia.
  - destruct (step_refines (Put k v) _ _ HI) as (self1 & ls1 & Hstep & HI1 & Hes & Hc).
    cbn [fmap list_fmap run fst snd]. unfold bind at 1. rewrite Hstep. unfold bind.
    destruct (run _ self1) as [rs1 self2] eqn:Hrun.
    assert (assoc (entries self) k = None) as Ha.
    { apply assoc_None. simpl in Hd. apply keys_distinct_mid, Forall_app in Hd as [Hd _].
      eapply Forall_impl; [ done | ]. intros k'. simpl. by rewrite py_eq_sym. }
    simpl in Hes. rewrite Ha in Hes. simpl in Hes.
    set (es := entries self) in *. set (c := Z.to_nat (capacity self)) in *.
    assert (entries self1 = drop (length es + 1 - c) (es ++ [(k, v)])) as Hes1.
    { rewrite length_app in Hes. simpl in Hes. rewrite Hes. clear Hes.
      destruct (_ >? _) eqn:Hgt.
      - apply Z.gtb_lt in Hgt.
        replace (length es + 1 - c)%nat with 1%nat by (unfold c, es in *; lia).
        by destruct (es ++ [(k, v)]).
      - rewrite Z.gtb_ltb in Hgt. apply Z.ltb_ge in Hgt.
        by replace (length es + 1 - c)%nat with 0%nat by (unfold c, es in *; lia). }
    assert (entries self1 ++ kvs
            = drop (length es + 1 - c) (es ++ (k, v) :: kvs)) as Happ.
    { assert (es ++ (k, v) :: kvs = (es ++ [(k, v)]) ++ kvs) as ->
        by (by rewrite <- app_assoc).
      rewrite Hes1. symmetry. apply drop_app_le. rewrite length_app. simpl. unfold c, es in *; lia. }
    intros Heq.
    assert (self' = self2) as -> by (destruct rs1; by injection Heq).
    assert (keys_distinct ((entries self1).*1 ++ kvs.*1)) as Hd1.
    { rewrite <- fmap_app, Happ, fmap_drop. apply keys_distinct_drop.
      by rewrite fmap_app. }
    rewrite (IH _ _ _ _ HI1 Hd1 Hrun).
    rewrite Hc. fold c. rewrite Happ, drop_drop. f_equal.
    rewrite length_drop, !length_app. simpl. unfold c, es in *; lia.
Qed.

(** After [put]s of keys no two of which are equal for [==], on a new
    cache, the entries are the last [capacity] of the pairs that were put,
    in the order they were put (none of them when the capacity is not
    positive). *)
Theorem distinct_puts_keep_last cap self0 kvs rs self :
  new_LRUCache cap = Ok self0 -> keys_distinct kvs.*1 ->
  run ((fun kv => Put kv.1 kv.2) <$> kvs) self0 = (rs, self) ->
  entries self = drop (length kvs - Z.to_nat cap) kvs.
Proof.
  intros Hnew Hd Hrun. destruct (new_Inv _ _ Hnew) as (HI0 & Hes0 & Hc0).
  assert (keys_distinct ((entries self0).*1 ++ kvs.*1)) as Hd0
    by (by rewrite Hes0).
  rewrite (run_distinct_puts _ _ _ _ _ HI0 Hd0 Hrun).
  by rewrite Hes0, Hc0.
Qed.


(** A [put] of a key the cache does not hold, when there are fewer entries
    than the capacity, evicts nothing: it returns [None], the new entry is
    appended as the most recently used one, [len] grows by one and every
    other key keeps its value. *)
Theorem put_with_room_keeps_all self k v :
  reachable self -> dict_get (_data self) k = None ->
  __len__ self < capacity self ->
  exists self',
    put k v self = (Ok PyNone, self')
    /\ entries self' = entries self ++ [(k, v)]
    /\ __len__ self' = __len__ self + 1
    /\ forall k', py_eq k k' = false -> lookup_val self' k' = lookup_val self k'.
Proof.
  intros [ls HI]%reachable_Inv Hg Hroom.
  destruct (step_refines (Put k v) _ _ HI) as (self' & ls' & Hstep & HI' & Hes & _).
  simpl in Hstep, Hes. apply (Inv_dict_get_None _ _ HI) in Hg.
  rewrite Hg in Hstep, Hes. simpl in Hstep, Hes.
  assert ((Z.of_nat (length (entries self ++ [(k, v)])) >? capacity self) = false)
    as Hgt.
  { rewrite Z.gtb_ltb. apply Z.ltb_ge. rewrite (Inv_len _ _ HI) in Hroom.
    rewrite length_app, (Inv_entries _ _ HI), length_fmap. simpl. lia. }
  rewrite Hgt in Hes. exists self'. split_and!; try done.
  - rewrite (Inv_len _ _ HI'), (Inv_len _ _ HI).
    apply (f_equal length) in Hes.
    rewrite length_app, (Inv_entries _ _ HI'), (Inv_entries _ _ HI), !length_fmap
      in Hes.
    simpl in Hes. lia.
  - intros k' Hk. rewrite (Inv_lookup_val _ _ _ HI'), (Inv_lookup_val _ _ _ HI), Hes.
    rewrite assoc_snoc, Hk. by destruct (assoc (entries self) k').
Qed.

Lemma move_live_Inv self la n lb :
  Inv self (la ++ n :: lb) ->
  exists st',
    _move_front n self = (Ok tt, set_store st' self)
    /\ Inv (set_store st' self) (la ++ lb ++ [n])
    /\ (forall x, keyf st' x = keyf (store self) x)
    /\ (forall x, valf st' x = valf (store self) x).
Proof.
  intros HI.
  destruct (_move_front_live self la n lb) as (st' & Hmf & Hl & Hlen & Hkf & Hvf);
    [ apply HI | apply HI | ].
  exists st'. split_and!; try done.
  assert (la ++ lb ++ [n] ≡ₚ la ++ n :: lb) as Hperm.
  { apply Permutation_app_head. symmetry. apply Permutation_cons_append. }
  constructor; simpl.
  - rewrite Hperm. apply HI.
  - done.
  - rewrite (inv_index _ _ HI). rewrite Hperm.
    fold (klf st'). fold (klf (store self)). by rewrite (klf_ext (store self) st').
  - rewrite (keyf_ext (store self) st') by done.
    eapply keys_distinct_perm; [ | apply HI ]. by rewrite Hperm.
  - rewrite Hperm. apply HI.
Qed.

(** [_move_front] of a live node of a reachable cache returns and makes
    the node the most recently used one: the other nodes keep their order,
    the list reads the same in both directions, and neither the index nor
    the key or the value of any node changes. *)
Theorem move_front_makes_most_recent self la n lb :
  reachable self -> chain self = la ++ n :: lb ->
  exists self',
    _move_front n self = (Ok tt, self')
    /\ chain self' = la ++ lb ++ [n]
    /\ chain_back self' = rev (la ++ lb ++ [n])
    /\ _data self' = _data self
    /\ entries self = kvf (store self) <$> (la ++ n :: lb)
    /\ entries self' = kvf (store self) <$> (la ++ lb ++ [n]).
Proof.
  intros [ls HI]%reachable_Inv Hch. rewrite (Inv_chain _ _ HI) in Hch. subst ls.
  destruct (move_live_Inv _ _ _ _ HI) as (st' & Hmf & HI' & Hkf & Hvf).
  exists (set_store st' self).
  rewrite (Inv_chain _ _ HI'), (Inv_chain_back _ _ HI').
  rewrite (Inv_entries _ _ HI), (Inv_entries _ _ HI'). simpl.
  split_and!; try done. by rewrite (kvf_ext (store self) st').
Qed.

(** [_pop] on a reachable cache that is not empty returns the least
    recently used node and unlinks it.  It leaves the index alone, which
    still maps the key of that node to it, so [len] is then one more than
    the number of nodes of the list: the caller has to delete the key, as
    [put] does. *)
Theorem pop_takes_least_recent self n rest :
  reachable self -> chain self = n :: rest ->
  exists self',
    _pop self = (Ok n, self')
    /\ chain self' = rest
    /\ chain_back self' = rev rest
    /\ _data self' = _data self
    /\ dict_get (_data self') (keyf (store self') n) = Some n
    /\ __len__ self' = Z.of_nat (length (chain self')) + 1.
Proof.
  intros [ls HI]%reachable_Inv Hch. rewrite (Inv_chain _ _ HI) in Hch. subst ls.
  pose proof (inv_nodup _ _ HI) as Hnd. pose proof (inv_linked _ _ HI) as Hl.
  destruct (_pop_live self n rest Hnd Hl) as (st' & Hpop & Hl' & Hlen & Hkf & Hvf).
  exists (set_store st' self).
  assert (NoDup (_tail self :: rest ++ [_head self])) as Hnd'.
  { simpl in Hnd. apply NoDup_cons in Hnd as [Ht Hnd].
    apply NoDup_cons in Hnd as [_ Hnd]. apply NoDup_cons. set_solver. }
  pose proof (Inv_length _ _ HI) as Hlen0. simpl in Hlen0.
  assert (dict_get (_data self) (keyf (store self) n) = Some n) as Hg.
  { destruct (dict_get (_data self) (keyf (store self) n)) as [ n' | ] eqn:Hg.
    - destruct (Inv_dict_get_Some _ _ HI _ _ Hg) as [Hn' Hk].
      apply elem_of_cons in Hn' as [ -> | Hn' ]; [ done | ].
      pose proof (inv_keys _ _ HI) as [Hall _]. simpl in Hall.
      rewrite Forall_forall in Hall.
      rewrite py_eq_sym, Hall in Hk; [ done | ].
      apply list_elem_of_fmap. by exists n'.
    - apply (Inv_dict_get_None _ _ HI) in Hg. apply assoc_None in Hg.
      rewrite (Inv_entries_keys _ _ HI) in Hg. simpl in Hg.
      apply Forall_cons in Hg as [Hg _]. by rewrite py_eq_refl in Hg. }
  split_and!; try done.
  - unfold chain. simpl. apply (walk_next_linked st' _ (_tail self)); [ done | done | lia ].
  - unfold chain_back. simpl.
    apply (walk_prev_linked st' _ (_tail self)); [ done | done | lia ].
  - simpl. by rewrite Hkf.
  - unfold chain, __len__. simpl.
    rewrite (walk_next_linked st' _ (_tail self) rest (_head self));
      [ | done | done | lia ].
    rewrite (inv_index _ _ HI), length_fmap. simpl. lia.
Qed.

(** [_remove] of a live node of a reachable cache joins its two
    neighbours and takes it off the list, in both directions, and changes
    nothing else: the index is as it was, and so are the [prev] and the
    [next] of the node itself, which still point at its former
    neighbours. *)
Theorem remove_unlinks_only self la n lb :
  reachable self -> chain self = la ++ n :: lb ->
  exists self',
    _remove n self = (Ok tt, self')
    /\ chain self' = la ++ lb
    /\ chain_back self' = rev (la ++ lb)
    /\ _data self' = _data self
    /\ prevf (store self') n = prevf (store self) n
    /\ nextf (store self') n = nextf (store self) n
    /\ is_Some (prevf (store self') n) /\ is_Some (nextf (store self') n).
Proof.
  intros [ls HI]%reachable_Inv Hch. rewrite (Inv_chain _ _ HI) in Hch. subst ls.
  pose proof (Inv_length _ _ HI) as Hlen. rewrite length_app in Hlen. simpl in Hlen.
  set (t := _tail self). set (h := _head self). set (st := store self).
  pose proof (inv_nodup _ _ HI) as Hnd. pose proof (inv_linked _ _ HI) as Hl.
  fold t h st in Hnd, Hl, Hlen.
  destruct (snoc_decomp t la) as (l1 & p & Hl1).
  assert (exists q l2, lb ++ [h] = q :: l2) as (q & l2 & Hl2).
  { destruct lb; simpl; eauto. }
  assert (t :: (la ++ n :: lb) ++ [h] = l1 ++ p :: n :: q :: l2) as Hpath.
  { rewrite <- app_assoc. simpl. rewrite Hl2.
    change (t :: la ++ n :: q :: l2) with ((t :: la) ++ n :: q :: l2).
    rewrite Hl1. by rewrite <- app_assoc. }
  assert (l1 ++ p :: q :: l2 = t :: (la ++ lb) ++ [h]) as Hpath1.
  { change (l1 ++ p :: q :: l2) with (l1 ++ [p] ++ q :: l2).
    rewrite app_assoc, <- Hl1, <- Hl2. simpl. by rewrite app_assoc. }
  rewrite Hpath in Hnd, Hl.
  destruct (linked_mid _ _ _ _ _ _ Hl) as [Hp Hq].
  assert (forall x, x ∈ l1 ++ p :: n :: q :: l2 -> (x < length st)%nat) as Hlt.
  { intros x Hx. eapply linked_lt; [ done | | done ].
    rewrite length_app. simpl. lia. }
  assert (p < length st)%nat as Hlp by (apply Hlt; set_solver).
  assert (q < length st)%nat as Hlq by (apply Hlt; set_solver).
  pose proof (linked_unlink _ _ _ _ _ _ Hnd Hl) as Hl'.
  assert (NoDup (l1 ++ p :: q :: l2) /\ n ∉ l1 ++ p :: q :: l2) as [Hnd' Hn'].
  { apply NoDup_app in Hnd as (H1 & H2 & H3).
    apply NoDup_cons in H3 as [Hp3 H3]. apply NoDup_cons in H3 as [Hn3 H3].
    split.
    - apply NoDup_app. split_and!; [ done | | ].
      + intros x Hx. specialize (H2 x Hx). set_solver.
      + apply NoDup_cons. split; [ set_solver | done ].
    - intros [Hx | Hx]%elem_of_app.
      + specialize (H2 n Hx). set_solver.
      + set_solver. }
  assert (n ≠ p /\ n ≠ q) as [Hnp Hnq] by set_solver.
  rewrite Hpath1 in Hnd', Hl'.
  exists (set_store (unlink p q st) self). split_and!.
  - by apply _remove_linked.
  - by apply chain_of_linked.
  - unfold chain_back. simpl. fold t h.
    apply (walk_prev_linked (unlink p q st) _ t); [ done | done | ].
    rewrite length_unlink, length_app. lia.
  - done.
  - simpl. fold st. rewrite prevf_unlink by done. by rewrite decide_False.
  - simpl. fold st. rewrite nextf_unlink by done. by rewrite decide_False.
  - simpl. fold st. rewrite prevf_unlink by done. rewrite decide_False by done.
    by rewrite Hp.
  - simpl. fold st. rewrite nextf_unlink by done. rewrite decide_False by done.
    by rewrite Hq.
Qed.

(** The order of the list is the order of use: after any operations on a
    new cache, the keys of the entries, read from the least recently used
    end, have each been accessed (by a [put], or by a [get] that hit) and
    are in strictly increasing order of the time of their last access. *)
Theorem entries_in_access_order cap ops self0 rs self :
  new_LRUCache cap = Ok self0 -> run ops self0 = (rs, self) ->
  by_access (trace ops self0) (entries self).*1.
Proof.
  intros Hnew Hrun. destruct (new_Inv _ _ Hnew) as (HI0 & Hes0 & _).
  destruct (run_by_access ops self0 [] [] HI0)
    as (rs1 & self1 & ls & Hrun1 & _ & _ & Hb).
  { rewrite Hes0. split; constructor. }
  rewrite Hrun in Hrun1. by injection Hrun1 as _ <-.
Qed.

(** ** Keys *)

Lemma all2_length (l1 l2 : list pyval) :
  all2 py_eq l1 l2 = true -> length l1 = length l2.
Proof.
  revert l2. induction l1 as [ | x l1 IH ]; intros [ | y l2 ]; simpl; try done.
  intros [_ Hl]%andb_true_iff. f_equal. by apply IH.
Qed.

Lemma all2_items (l1 l2 : list (string * pyval)) :
  all2 py_eq (item_tuple <$> l1) (item_tuple <$> l2) = true
  <-> l1.*1 = l2.*1 /\ all2 py_eq l1.*2 l2.*2 = true.
Proof.
  revert l2.
  induction l1 as [ | [n1 v1] l1 IH ]; intros [ | [n2 v2] l2 ].
  - done.
  - split; [ done | by intros [? ?] ].
  - split; [ done | by intros [? ?] ].
  - rewrite !fmap_cons. unfold item_tuple. cbn [all2 py_eq fst snd].
    rewrite andb_true_r, !andb_true_iff, IH, String.eqb_eq. split.
    + intros ([-> ?] & -> & ?). done.
    + intros ([= -> ->] & ? & ?). done.
Qed.



Lemma key_eq_parts typed args1 kwargs1 args2 kwargs2 :
  py_eq (_normalize_key args1 kwargs1 typed) (_normalize_key args2 kwargs2 typed)
  = true ->
  all2 py_eq args1 args2 = true
  /\ all2 py_eq (item_tuple <$> sorted kwargs1) (item_tuple <$> sorted kwargs2)
     = true.
Proof.
  unfold _normalize_key. rewrite !items_sorted. intros Hk.
  destruct typed; cbn [py_eq all2] in Hk;
    rewrite ?andb_true_r, ?andb_true_iff in Hk; tauto.
Qed.

(** Two calls with equal keys, in either mode, have the same number of
    positional arguments and the same names of named arguments: a value
    passed by position and the same value passed by name never share an
    entry. *)
Theorem equal_keys_same_shape typed args1 kwargs1 args2 kwargs2 :
  py_eq (_normalize_key args1 kwargs1 typed) (_normalize_key args2 kwargs2 typed)
  = true ->
  length args1 = length args2 /\ kwargs1.*1 ≡ₚ kwargs2.*1.
Proof.
  intros [Ha [Hn _]%all2_items]%key_eq_parts.
  split; [ by apply all2_length | ].
  by rewrite <- (sorted_perm kwargs1), <- (sorted_perm kwargs2), Hn.
Qed.

(** ** The wrapper, call by call *)

Section wrapper_more.
Context {W : Type}.
Variable func : list pyval -> list (string * pyval) -> M W pyval.

Lemma wrapper_len args kwargs (s : @closure W) r s' :
  WInv s -> wrapper func args kwargs s = (r, s') ->
  __len__ (cache s) <= __len__ (cache s')
  /\ __len__ (cache s') - __len__ (cache s) <= misses s' - misses s <= 1
  /\ hits s <= hits s'
  /\ misses s' - misses s = Z.of_nat (calls s') - Z.of_nat (calls s).
Proof.
  intros HW Hw.
  destruct (is_miss s (_normalize_key args kwargs (typed s))) eqn:Hm.
  - destruct (wrapper_miss func args kwargs s HW Hm)
      as (c1 & ls1 & HI1 & _ & Hd1 & _ & Heq).
    rewrite Hw in Heq.
    assert (__len__ c1 = __len__ (cache s)) as Hlen1
      by (unfold __len__; by rewrite Hd1).
    destruct (func args kwargs (world s)) as [[value | e] w'].
    + destruct (put _ value c1) as [r2 c2] eqn:Hput.
      destruct (Inv_step_len c1 ls1 (Put _ value) r2 c2 HI1 Hput) as [Hlen _].
      injection Heq as _ ->. cbn. lia.
    + injection Heq as _ ->. cbn. lia.
  - apply is_miss_false in Hm as (v & Hl & Hv).
    destruct (wrapper_hit func _ _ _ _ HW Hl Hv)
      as (s1 & Hw1 & _ & Hh & Hms & Hc & _ & _ & _ & _ & Hlen & _).
    rewrite Hw in Hw1. injection Hw1 as _ <-. lia.
Qed.

(** For every wrapper a program can have, what [cache_info] reports is
    consistent: [misses] is the number of times the wrapped function was
    entered, [hits] is not negative, and [currsize] lies between 0 and both
    [max_size] and [misses]; [max_size] is positive and is the capacity of
    the cache. *)
Theorem counters_invariant (s : @closure W) :
  wreachable func s ->
  CacheInfo.misses (cache_info s) = Z.of_nat (calls s)
  /\ 0 <= CacheInfo.hits (cache_info s)
  /\ 0 <= CacheInfo.currsize (cache_info s)
  /\ CacheInfo.currsize (cache_info s) <= CacheInfo.max_size (cache_info s)
  /\ CacheInfo.currsize (cache_info s) <= CacheInfo.misses (cache_info s)
  /\ 1 <= CacheInfo.max_size (cache_info s)
  /\ capacity (cache s) = max_size s.
Proof.
  intros Hr. pose proof (wreachable_WInv func _ Hr) as ([ls HI] & Hcap & Hpos).
  cbn. rewrite (Inv_len _ _ HI). pose proof (inv_size _ _ HI) as Hsz.
  assert (misses s = Z.of_nat (calls s) /\ 0 <= hits s
          /\ __len__ (cache s) <= misses s) as (Hm & Hh & Hl).
  { clear ls HI Hcap Hpos Hsz.
    induction Hr as [ ms ty dec w s Hd Hs | a kw s r s' Hr IH Hw | w s _ IH ].
    - by destruct (decorator_WInv _ _ _ _ _ Hd Hs) as [_ ->].
    - pose proof (wreachable_WInv func _ Hr) as HW.
      pose proof (wrapper_len _ _ _ _ _ HW Hw). lia.
    - done. }
  rewrite (Inv_len _ _ HI) in Hl. split_and!; try done; lia.
Qed.

(** The arguments are hashable values, as all of [pyval] are, and the
    wrapped function does not call the wrapper.  Then a call of the
    wrapper is a hit or a miss, and nothing else.  On a hit the cache holds
    a value other than [None] under the key: the call returns it, adds one
    to [hits], and neither enters the function nor changes the state of
    the rest of the program or the number of entries.  On a miss the call
    returns what the function returns, or raises what it raises, in the
    state the function leaves, and adds one to [misses].  On such
    arguments the wrapper raises nothing of its own; [max_size] and
    [typed] never change. *)
Theorem call_is_hit_or_miss args kwargs (s : @closure W) r s' :
  wreachable func s -> wrapper func args kwargs s = (r, s') ->
  max_size s' = max_size s /\ typed s' = typed s
  /\ ((exists v,
         lookup_val (cache s) (_normalize_key args kwargs (typed s)) = Some v
         /\ is_None v = false /\ r = Ok v
         /\ hits s' = hits s + 1 /\ misses s' = misses s
         /\ calls s' = calls s /\ world s' = world s
         /\ __len__ (cache s') = __len__ (cache s))
      \/ (is_miss s (_normalize_key args kwargs (typed s)) = true
          /\ (r, world s') = func args kwargs (world s)
          /\ hits s' = hits s /\ misses s' = misses s + 1
          /\ calls s' = S (calls s))).
Proof.
  intros HW%wreachable_WInv Hw.
  destruct (is_miss s (_normalize_key args kwargs (typed s))) eqn:Hm.
  - destruct (func args kwargs (world s)) as [[value | e] w'] eqn:Hf.
    + destruct (wrapper_miss_ok func _ _ _ _ _ HW Hm Hf)
        as (s1 & Hw1 & _ & ? & ? & ? & ? & ? & ? & _).
      rewrite Hw in Hw1. injection Hw1 as -> ->.
      split_and!; try done. right. split_and!; try done. congruence.
    + destruct (wrapper_miss_raise func _ _ _ _ _ HW Hm Hf)
        as (s1 & Hw1 & _ & ? & ? & ? & ? & ? & ? & _).
      rewrite Hw in Hw1. injection Hw1 as -> ->.
      split_and!; try done. right. split_and!; try done. congruence.
  - apply is_miss_false in Hm as (v & Hl & Hv).
    destruct (wrapper_hit func _ _ _ _ HW Hl Hv)
      as (s1 & Hw1 & _ & ? & ? & ? & ? & ? & ? & _ & ? & _).
    rewrite Hw in Hw1. injection Hw1 as -> ->.
    split_and!; try done. left. by exists v.
Qed.

(** A [None] stored under a key stays: a call whose key holds [None]
    enters the function and returns its result or raises its exception,
    and, because [put] keeps the value of a key that is present, stores
    nothing, whatever the function returned: the cache holds for every key
    what it held before. *)
Theorem stored_none_sticks args kwargs (s : @closure W) r s' :
  wreachable func s ->
  lookup_val (cache s) (_normalize_key args kwargs (typed s)) = Some PyNone ->
  wrapper func args kwargs s = (r, s') ->
  (r, world s') = func args kwargs (world s)
  /\ calls s' = S (calls s)
  /\ __len__ (cache s') = __len__ (cache s)
  /\ forall k, lookup_val (cache s') k = lookup_val (cache s) k.
Proof.
  intros HW%wreachable_WInv Hl Hw.
  assert (is_miss s (_normalize_key args kwargs (typed s)) = true) as Hm
    by (unfold is_miss; by rewrite Hl).
  destruct (wrapper_miss func args kwargs s HW Hm)
    as (c1 & ls1 & HI1 & _ & Hd1 & Hsame & Heq).
  rewrite Hw in Heq.
  destruct (func args kwargs (world s)) as [[value | e] w'] eqn:Hf.
  - destruct (put_spec _ _ (_normalize_key args kwargs (typed s)) value HI1)
      as (c2 & ls2 & r2 & Hput & _ & _ & _ & Hpres & _).
    rewrite Hput in Heq. injection Heq as -> ->. cbn.
    destruct Hpres as [Hd2 Hsame2]; [ by rewrite Hsame, Hl | ].
    split_and!; try done.
    + unfold __len__. by rewrite Hd2, Hd1.
    + intros k. by rewrite Hsame2.
  - injection Heq as -> ->. cbn. split_and!; try done.
    unfold __len__. by rewrite Hd1.
Qed.

Lemma calls_of_counts cs : forall (s : @closure W) r s',
  WInv s -> calls_of func cs s = (r, s') ->
  max_size s' = max_size s /\ typed s' = typed s
  /\ match r with
     | Ok rs =>
         length rs = length cs
         /\ hits s' + misses s' = hits s + misses s + Z.of_nat (length cs)
     | Err _ =>
         hits s + misses s + 1 <= hits s' + misses s'
         <= hits s + misses s + Z.of_nat (length cs)
     end.
Proof.
  induction cs as [ | [a kw] cs IH ]; intros s r s' HW.
  - intros [= <- <-]. cbn. split_and!; try done. lia.
  - cbn [calls_of]. unfold bind at 1.
    destruct (wrapper func a kw s) as [r1 s1] eqn:Hw.
    destruct (wrapper_WInv func _ _ _ _ _ HW Hw) as (HW1 & Hms & Hty).
    assert (hits s1 + misses s1 = hits s + misses s + 1) as Hone.
    { destruct (is_miss s (_normalize_key a kw (typed s))) eqn:Hm.
      - destruct (wrapper_miss_counts func _ _ _ _ _ HW Hm Hw) as (_ & _ & ? & ? & _).
        lia.
      - apply is_miss_false in Hm as (v & Hl & Hv).
        destruct (wrapper_hit func _ _ _ _ HW Hl Hv) as (s2 & Hw2 & _ & ? & ? & _).
        rewrite Hw in Hw2. injection Hw2 as _ <-. lia. }
    destruct r1 as [ x | e ].
    + unfold bind. destruct (calls_of func cs s1) as [[rs | e] s2] eqn:Hcs;
        intros [= <- <-]; destruct (IH _ _ _ HW1 Hcs) as (? & ? & Hr);
        cbn [length]; split_and!; try congruence; try lia.
    + intros [= <- <-]. cbn [length]. split_and!; try done; lia.
Qed.

(** The arguments are hashable values, as all of [pyval] are, and the
    wrapped function does not call the wrapper.  Then the calls made one
    after the other on a new wrapper are each counted once: when none of
    them raises there are as many results as calls and [hits + misses] is
    their number; when one raises, which is then the function raising, the
    calls after it are not made and [hits + misses] is at least 1 and at
    most their number.  [cache_info] reports the [max_size] that
    [lru_cache_impl] was given. *)
Theorem every_call_is_counted max_size0 typed0 dec w s0 cs r (s : @closure W) :
  lru_cache_impl max_size0 typed0 = Ok dec -> dec w = Ok s0 ->
  calls_of func cs s0 = (r, s) ->
  CacheInfo.max_size (cache_info s) = max_size0
  /\ match r with
     | Ok rs =>
         length rs = length cs
         /\ CacheInfo.hits (cache_info s) + CacheInfo.misses (cache_info s)
            = Z.of_nat (length cs)
     | Err _ =>
         1 <= CacheInfo.hits (cache_info s) + CacheInfo.misses (cache_info s)
         <= Z.of_nat (length cs)
     end.
Proof.
  intros Hd Hs Hcs. destruct (decorator_WInv _ _ _ _ _ Hd Hs) as [HW ->].
  destruct (calls_of_counts _ _ _ _ HW Hcs) as (Hms & _ & Hr). cbn in *.
  split; [ done | ]. destruct r; lia.
Qed.

Section pure_function.
Variable f : list pyval -> list (string * pyval) -> pyval.
Variable typed0 : bool.
Hypothesis func_pure : forall a kw w, func a kw w = (Ok (f a kw), w).
Hypothesis f_keys : forall a kw a' kw',
  py_eq (_normalize_key a kw typed0) (_normalize_key a' kw' typed0) = true ->
  f a kw = f a' kw'.

End pure_function.

End wrapper_more.

(** ** Instances *)

Lemma ex_after_ops_reachable : reachable ex_after_ops.
Proof. apply (reachable_run ex_ops (ex_new 2) 2). reflexivity. Qed.

Lemma ex_a1_reachable : reachable ex_a1.
Proof. apply (reachable_run [Put ex_a (PyInt 1)] (ex_new 2) 2). reflexivity. Qed.

Lemma cache_follows_list_model_witness :
  exists self',
    step (Put ex_c (PyInt 3)) ex_after_ops
    = (Ok (model_step (capacity ex_after_ops) (Put ex_c (PyInt 3))
             (entries ex_after_ops)).1, self')
    /\ entries self'
       = (model_step (capacity ex_after_ops) (Put ex_c (PyInt 3))
            (entries ex_after_ops)).2
    /\ capacity self' = capacity ex_after_ops.
Proof.
  apply (cache_follows_list_model ex_after_ops (Put ex_c (PyInt 3))).
  apply ex_after_ops_reachable.
Defined.

Lemma index_and_list_agree_witness :
  NoDup (chain ex_after_ops)
  /\ chain_back ex_after_ops = rev (chain ex_after_ops)
  /\ _data ex_after_ops
     ≡ₚ (fun l => (keyf (store ex_after_ops) l, l)) <$> chain ex_after_ops
  /\ keys_distinct (_data ex_after_ops).*1
  /\ __len__ ex_after_ops = Z.of_nat (length (chain ex_after_ops))
  /\ __len__ ex_after_ops <= Z.max 0 (capacity ex_after_ops).
Proof. apply (index_and_list_agree ex_after_ops), ex_after_ops_reachable. Defined.

Lemma put_then_get_witness :
  exists self1 self2,
    put (PyInt 7) (PyStr "seven") ex_after_ops = (Ok PyNone, self1)
    /\ get (PyFloat 7) PyNone self1 = (Ok (PyStr "seven"), self2).
Proof.
  apply (put_then_get ex_after_ops (PyInt 7) (PyFloat 7) (PyStr "seven") PyNone).
  - apply ex_after_ops_reachable.
  - vm_compute. discriminate.
  - vm_compute. reflexivity.
  - reflexivity.
Defined.

Lemma len_never_decreases_witness :
  __len__ ex_a1 <= __len__ (step (Put ex_b (PyInt 2)) ex_a1).2 <= __len__ ex_a1 + 1
  /\ (forall k default,
        Put ex_b (PyInt 2) = Get k default ->
        __len__ (step (Put ex_b (PyInt 2)) ex_a1).2 = __len__ ex_a1).
Proof.
  apply (len_never_decreases ex_a1 (Put ex_b (PyInt 2)) (Ok PyNone)).
  - apply ex_a1_reachable.
  - vm_compute. reflexivity.
Defined.

Lemma get_keeps_contents_witness :
  (get ex_a PyNone ex_after_ops).1
  = Ok (from_option id PyNone (lookup_val ex_after_ops ex_a))
  /\ entries (get ex_a PyNone ex_after_ops).2 ≡ₚ entries ex_after_ops
  /\ _data (get ex_a PyNone ex_after_ops).2 = _data ex_after_ops
  /\ __len__ (get ex_a PyNone ex_after_ops).2 = __len__ ex_after_ops
  /\ forall k',
       lookup_val (get ex_a PyNone ex_after_ops).2 k' = lookup_val ex_after_ops k'.
Proof.
  apply (get_keeps_contents ex_after_ops ex_a PyNone).
  - apply ex_after_ops_reachable.
  - vm_compute. reflexivity.
Defined.

Lemma nonpositive_capacity_stays_empty_witness :
  entries ex_zero = [] /\ _data ex_zero = [] /\ __len__ ex_zero = 0
  /\ (forall k default, get k default ex_zero = (Ok default, ex_zero))
  /\ (forall k v, exists self',
        put k v ex_zero = (Ok PyNone, self') /\ entries self' = []).
Proof.
  apply (nonpositive_capacity_stays_empty ex_zero).
  - apply (reachable_run ex_ops (ex_new 0) 0). reflexivity.
  - vm_compute. discriminate.
Defined.

Lemma recently_used_survives_put_witness :
  is_Some (lookup_val (step (Put ex_b (PyInt 2)) ex_a1).2 ex_b)
  /\ lookup_val (put ex_c (PyInt 3) (step (Put ex_b (PyInt 2)) ex_a1).2).2 ex_b
     = lookup_val (step (Put ex_b (PyInt 2)) ex_a1).2 ex_b.
Proof.
  apply (recently_used_survives_put ex_a1 (Put ex_b (PyInt 2)) (Ok PyNone) _ ex_b
           ex_c (PyInt 3) (Ok PyNone)).
  - apply ex_a1_reachable.
  - vm_compute. discriminate.
  - vm_compute. reflexivity.
  - reflexivity.
  - vm_compute. reflexivity.
Defined.


Lemma distinct_puts_keep_last_witness :
  entries (run ((fun kv => Put kv.1 kv.2) <$> ex_kvs) (ex_new 2)).2
  = drop (length ex_kvs - Z.to_nat 2) ex_kvs.
Proof.
  apply (distinct_puts_keep_last 2 (ex_new 2) ex_kvs
           (Ok [PyNone; PyNone; PyNone])).
  - reflexivity.
  - vm_compute. repeat constructor.
  - vm_compute. reflexivity.
Defined.

Lemma put_with_room_keeps_all_witness :
  exists self',
    put ex_b (PyInt 2) ex_a1 = (Ok PyNone, self')
    /\ entries self' = entries ex_a1 ++ [(ex_b, PyInt 2)]
    /\ __len__ self' = __len__ ex_a1 + 1
    /\ forall k', py_eq ex_b k' = false -> lookup_val self' k' = lookup_val ex_a1 k'.
Proof.
  apply (put_with_room_keeps_all ex_a1 ex_b (PyInt 2)).
  - apply ex_a1_reachable.
  - vm_compute. reflexivity.
  - vm_compute. reflexivity.
Defined.

Lemma move_front_makes_most_recent_witness :
  exists self',
    _move_front 3%nat ex_after_ops = (Ok tt, self')
    /\ chain self' = [] ++ [2%nat] ++ [3%nat]
    /\ chain_back self' = rev ([] ++ [2%nat] ++ [3%nat])
    /\ _data self' = _data ex_after_ops
    /\ entries ex_after_ops
       = kvf (store ex_after_ops) <$> ([] ++ 3%nat :: [2%nat])
    /\ entries self' = kvf (store ex_after_ops) <$> ([] ++ [2%nat] ++ [3%nat]).
Proof.
  apply (move_front_makes_most_recent ex_after_ops [] 3%nat [2%nat]).
  - apply ex_after_ops_reachable.
  - vm_compute. reflexivity.
Defined.

Lemma pop_takes_least_recent_witness :
  exists self',
    _pop ex_after_ops = (Ok 3%nat, self')
    /\ chain self' = [2%nat]
    /\ chain_back self' = rev [2%nat]
    /\ _data self' = _data ex_after_ops
    /\ dict_get (_data self') (keyf (store self') 3%nat) = Some 3%nat
    /\ __len__ self' = Z.of_nat (length (chain self')) + 1.
Proof.
  apply (pop_takes_least_recent ex_after_ops 3%nat [2%nat]).
  - apply ex_after_ops_reachable.
  - vm_compute. reflexivity.
Defined.

Lemma equal_keys_same_shape_witness :
  length [PyInt 1] = length [PyFloat 1]
  /\ [("b", PyInt 2); ("a", PyInt 1)].*1
     ≡ₚ [("a", PyFloat 1); ("b", PyInt 2)].*1.
Proof.
  apply (equal_keys_same_shape false [PyInt 1] [("b", PyInt 2); ("a", PyInt 1)]
           [PyFloat 1] [("a", PyFloat 1); ("b", PyInt 2)]).
  vm_compute. reflexivity.
Defined.



Lemma ex_after_call_reachable : wreachable ex_square ex_after_call.
Proof.
  apply (wreachable_call ex_square [PyInt 3] [] (ex_wrapper false) (Ok (PyInt 9))).
  - apply ex_wrapper_reachable.
  - vm_compute. reflexivity.
Qed.

Lemma counters_invariant_witness :
  CacheInfo.misses (cache_info ex_after_call) = Z.of_nat (calls ex_after_call)
  /\ 0 <= CacheInfo.hits (cache_info ex_after_call)
  /\ 0 <= CacheInfo.currsize (cache_info ex_after_call)
  /\ CacheInfo.currsize (cache_info ex_after_call)
     <= CacheInfo.max_size (cache_info ex_after_call)
  /\ CacheInfo.currsize (cache_info ex_after_call)
     <= CacheInfo.misses (cache_info ex_after_call)
  /\ 1 <= CacheInfo.max_size (cache_info ex_after_call)
  /\ capacity (cache ex_after_call) = max_size ex_after_call.
Proof. apply (counters_invariant ex_square ex_after_call), ex_after_call_reachable. Defined.

Lemma call_is_hit_or_miss_witness :
  max_size (wrapper ex_square [PyInt 3] [] ex_after_call).2 = max_size ex_after_call
  /\ typed (wrapper ex_square [PyInt 3] [] ex_after_call).2 = typed ex_after_call
  /\ ((exists v,
         lookup_val (cache ex_after_call)
           (_normalize_key [PyInt 3] [] (typed ex_after_call)) = Some v
         /\ is_None v = false /\ Ok (PyInt 9) = Ok v
         /\ hits (wrapper ex_square [PyInt 3] [] ex_after_call).2
            = hits ex_after_call + 1
         /\ misses (wrapper ex_square [PyInt 3] [] ex_after_call).2
            = misses ex_after_call
         /\ calls (wrapper ex_square [PyInt 3] [] ex_after_call).2
            = calls ex_after_call
         /\ world (wrapper ex_square [PyInt 3] [] ex_after_call).2
            = world ex_after_call
         /\ __len__ (cache (wrapper ex_square [PyInt 3] [] ex_after_call).2)
            = __len__ (cache ex_after_call))
      \/ (is_miss ex_after_call
            (_normalize_key [PyInt 3] [] (typed ex_after_call)) = true
          /\ (Ok (PyInt 9), world (wrapper ex_square [PyInt 3] [] ex_after_call).2)
             = ex_square [PyInt 3] [] (world ex_after_call)
          /\ hits (wrapper ex_square [PyInt 3] [] ex_after_call).2
             = hits ex_after_call
          /\ misses (wrapper ex_square [PyInt 3] [] ex_after_call).2
             = misses ex_after_call + 1
          /\ calls (wrapper ex_square [PyInt 3] [] ex_after_call).2
             = S (calls ex_after_call))).
Proof.
  apply (call_is_hit_or_miss ex_square [PyInt 3] [] ex_after_call (Ok (PyInt 9))).
  - apply ex_after_call_reachable.
  - vm_compute. reflexivity.
Defined.

Lemma stored_none_sticks_witness :
  ((wrapper ex_none [PyInt 3] [] ex_after_none).1,
   world (wrapper ex_none [PyInt 3] [] ex_after_none).2)
  = ex_none [PyInt 3] [] (world ex_after_none)
  /\ calls (wrapper ex_none [PyInt 3] [] ex_after_none).2 = S (calls ex_after_none)
  /\ __len__ (cache (wrapper ex_none [PyInt 3] [] ex_after_none).2)
     = __len__ (cache ex_after_none)
  /\ forall k,
       lookup_val (cache (wrapper ex_none [PyInt 3] [] ex_after_none).2) k
       = lookup_val (cache ex_after_none) k.
Proof.
  apply (stored_none_sticks ex_none [PyInt 3] [] ex_after_none).
  - apply ex_after_none_reachable.
  - vm_compute. reflexivity.
  - vm_compute. reflexivity.
Defined.

Lemma every_call_is_counted_witness :
  CacheInfo.max_size
    (cache_info
       (calls_of ex_square [([PyInt 3], []); ([PyInt 4], []); ([PyInt 3], [])]
          (ex_wrapper false)).2) = 2
  /\ length [PyInt 9; PyInt 16; PyInt 9]
     = length [([PyInt 3], []); ([PyInt 4], @nil (string * pyval));
               ([PyInt 3], [])]
  /\ CacheInfo.hits
       (cache_info
          (calls_of ex_square [([PyInt 3], []); ([PyInt 4], []); ([PyInt 3], [])]
             (ex_wrapper false)).2)
     + CacheInfo.misses
         (cache_info
            (calls_of ex_square
               [([PyInt 3], []); ([PyInt 4], []); ([PyInt 3], [])]
               (ex_wrapper false)).2)
     = Z.of_nat
         (length [([PyInt 3], []); ([PyInt 4], @nil (string * pyval));
                  ([PyInt 3], [])]).
Proof.
  apply (every_call_is_counted ex_square 2 false (decorator 2 false) tt
           (ex_wrapper false)
           [([PyInt 3], []); ([PyInt 4], []); ([PyInt 3], [])]
           (Ok [PyInt 9; PyInt 16; PyInt 9])).
  - reflexivity.
  - reflexivity.
  - vm_compute. reflexivity.
Defined.



Lemma remove_unlinks_only_witness :
  exists self',
    _remove 3%nat ex_after_ops = (Ok tt, self')
    /\ chain self' = [] ++ [2%nat]
    /\ chain_back self' = rev ([] ++ [2%nat])
    /\ _data self' = _data ex_after_ops
    /\ prevf (store self') 3%nat = prevf (store ex_after_ops) 3%nat
    /\ nextf (store self') 3%nat = nextf (store ex_after_ops) 3%nat
    /\ is_Some (prevf (store self') 3%nat)
    /\ is_Some (nextf (store self') 3%nat).
Proof.
  apply (remove_unlinks_only ex_after_ops [] 3%nat [2%nat]).
  - apply ex_after_ops_reachable.
  - vm_compute. reflexivity.
Defined.

Lemma entries_in_access_order_witness :
  by_access (trace ex_ops (ex_new 2)) (entries ex_after_ops).*1.
Proof.
  apply (entries_in_access_order 2 ex_ops (ex_new 2)
           (Ok [PyNone; PyNone; PyInt 1]) ex_after_ops).
  - reflexivity.
  - vm_compute. reflexivity.
Defined.
